(** * MetroMan runner: observation reconciliation

    A shallow embedding of [run_metroman.py]: the time alignment, the
    aggregation of the per-reach channels, the validity filter and the
    quality classification done by [retrieve_obs], the re-expansion of
    the estimates done by [write_output], the experiment of
    [set_up_experiment], the floor of the slopes in [process], and the
    dispatch of [main] between them.

    Conventions.
    - A numpy float is an [option]: [None] is NaN, [Some q] a defined
      value.  Observation instants are hours rounded to an integer
      ([np.round(time/3600.)]), so a defined instant is a [Z]; the other
      channels carry rationals.  No property below depends on rounding.
    - A Python dict keyed by reach identifier is a [gmap Z _]; a Python
      [set] is a [gset Z].
    - Exceptions are values of [exn]; the file accesses and the
      assignments to [SetQuality] are recorded in an event log. *)

From Stdlib Require Import QArith Ascii.
From stdpp Require Import gmap list sorting strings pretty.

Set Warnings "-clear-no-such-hyp".

(** ** Data read from the collaborators *)

Abbreviation instant := (option Z).
Abbreviation float := (option Q).

Definition isnan {A} (x : option A) : bool :=
  match x with None => true | Some _ => false end.

(** One time step of a SWOT reach file: the variables [reach/time],
    [reach/wse], [reach/width] and [reach/slope2] share the dimension
    [nt], so a file is a list of such rows. *)
Record swot_row := SwotRow {
  time : instant;
  wse : float;
  width : float;
  slope2 : float
}.

(** An entry of the reach list, with what its three files resolve to:
    [swot] is [None] when [os.path.exists(swotfile)] is false, [mean_q]
    is the value looked up in the SoS file ([None] when it is masked or
    NaN).  The SoS and SWORD files are taken to exist and to contain the
    reach. *)
Record reach := Reach {
  reach_id : Z;
  swot : option (list swot_row);
  mean_q : float
}.

Inductive exn :=
| KeyError
| UnboundLocalError
| AttributeError
| IndexError
| RuntimeError
| ValueError.

(** ** Python and numpy primitives *)

(** [for i, x in enumerate(l)] from index [i], threading a state. *)
Fixpoint for_enumerate {A St} (body : St → nat → A → St)
    (i : nat) (l : list A) (s : St) : St :=
  match l with
  | [] => s
  | x :: l' => for_enumerate body (S i) l' (body s i x)
  end.

(** The same with a body that may raise. *)
Fixpoint for_enumerate_exn {A St} (body : St → nat → A → exn + St)
    (i : nat) (l : list A) (s : St) : exn + St :=
  match l with
  | [] => inr s
  | x :: l' =>
      match body s i x with
      | inl e => inl e
      | inr s' => for_enumerate_exn body (S i) l' s'
      end
  end.

(** [[t for t in ts if not np.isnan(t)]] *)
Definition valid_times (ts : list instant) : list Z := omap id ts.

(** [t in overlap_ts]: the list holds no NaN, and NaN equals nothing. *)
Definition in_overlap (t : instant) (overlap_ts : list Z) : bool :=
  match t with
  | Some z => bool_decide (z ∈ overlap_ts)
  | None => false
  end.

(** [t in list(tarray[:ii])]: the elements are fresh float objects, so a
    NaN is never found. *)
Definition in_raw (t : instant) (l : list instant) : bool :=
  match t with
  | Some z => bool_decide (Some z ∈ l)
  | None => false
  end.

(** [list(set(a).intersection(set(b)))]; the order of the result is
    unspecified in Python and only membership and length are used
    before [sort]. *)
Definition set_intersection (a b : list Z) : list Z :=
  elements ((list_to_set a : gset Z) ∩ list_to_set b).

(** [l.sort()] *)
Definition py_sort (l : list Z) : list Z := merge_sort Z.le l.

(** ** Step -1 of [retrieve_obs]: overlapping times *)

(** Lines 113-124: the dict [allts] gets an entry only for a reach whose
    SWOT file exists. *)
Definition record_times (allts : gmap Z (list instant)) (r : reach)
    : gmap Z (list instant) :=
  match swot r with
  | Some f => <[reach_id r := time <$> f]> allts
  | None => allts
  end.

Definition extract_times (reachlist : list reach) : gmap Z (list instant) :=
  foldl record_times ∅ reachlist.

(** [swot_file_exists] after that loop: unbound for an empty list. *)
Definition swot_file_exists (reachlist : list reach) : option bool :=
  (λ r, bool_decide (is_Some (swot r))) <$> last reachlist.

(** Lines 130-144. *)
Definition overlap_body (allts : gmap Z (list instant))
    (st : list Z * gmap Z (list bool)) (i : nat) (r : reach)
    : exn + (list Z * gmap Z (list bool)) :=
  let '(overlap_ts, overlap_fs) := st in
  match allts !! reach_id r with
  | None => inl KeyError
  | Some ts =>
      let treach := valid_times ts in
      let nt_reach := length ts in
      if decide (i = 0) then
        inr (treach, <[reach_id r := replicate nt_reach true]> overlap_fs)
      else
        let overlap_ts := set_intersection overlap_ts treach in
        let fs :=
          for_enumerate
            (λ m ii t, if in_overlap t overlap_ts then <[ii := true]> m else m)
            0 ts (replicate nt_reach false) in
        inr (overlap_ts, <[reach_id r := fs]> overlap_fs)
  end.

(** Lines 153-160, for one reach. *)
Definition fix_mask (overlap_ts : list Z) (tarray : list instant)
    (m : list bool) : list bool :=
  for_enumerate
    (λ m ii t,
       let m := <[ii := in_overlap t overlap_ts]> m in
       if in_raw t (take ii tarray) then <[ii := false]> m else m)
    0 tarray m.

(** Lines 150-160. *)
Definition fix_body (allts : gmap Z (list instant)) (overlap_ts : list Z)
    (overlap_fs : gmap Z (list bool)) (i : nat) (r : reach)
    : exn + gmap Z (list bool) :=
  match allts !! reach_id r with
  | None => inl KeyError
  | Some tarray =>
      match overlap_fs !! reach_id r with
      | None => inl KeyError
      | Some m => inr (<[reach_id r := fix_mask overlap_ts tarray m]> overlap_fs)
      end
  end.

Record alignment := Alignment {
  a_overlap_ts : list Z;
  a_nt : nat;
  a_overlap_fs : gmap Z (list bool)
}.

(** Lines 113-163. *)
Definition time_alignment (reachlist : list reach) : exn + alignment :=
  let allts := extract_times reachlist in
  match for_enumerate_exn (overlap_body allts) 0 reachlist ([], ∅) with
  | inl e => inl e
  | inr (overlap_ts, overlap_fs) =>
      match for_enumerate_exn (fix_body allts overlap_ts) 0 reachlist overlap_fs with
      | inl e => inl e
      | inr overlap_fs =>
          let overlap_ts := py_sort overlap_ts in
          inr (Alignment overlap_ts (length overlap_ts) overlap_fs)
      end
  end.

(** ** numpy on arrays and matrices

    A 1-D array is a list; a 2-D array is the list of its rows. *)

(** [arr[mask]] for a boolean mask of the length of [arr]. *)
Fixpoint bool_index {A} (arr : list A) (mask : list bool) : list A :=
  match arr, mask with
  | x :: arr', b :: mask' =>
      if b then x :: bool_index arr' mask' else bool_index arr' mask'
  | _, _ => []
  end.

(** numpy refuses a boolean index of another length. *)
Definition getitem_bool {A} (arr : list A) (mask : list bool) : exn + list A :=
  if decide (length arr = length mask) then inr (bool_index arr mask)
  else inl IndexError.

(** [sum(mask)] *)
Definition count_true (mask : list bool) : nat :=
  length (filter (λ b, b = true) mask).

(** [np.where(mask)[0]]: the indices of the true entries, ascending;
    [where_from i] numbers the entries from [i]. *)
Fixpoint where_from (i : nat) (mask : list bool) : list nat :=
  match mask with
  | [] => []
  | b :: mask' =>
      if b then i :: where_from (S i) mask' else where_from (S i) mask'
  end.

Definition np_where (mask : list bool) : list nat := where_from 0 mask.

(** [np.delete(arr, obj)] for an index array [obj], as numpy does it:
    [keep = ones(N, bool); keep[obj] = False; arr[keep]].  numpy raises
    for an index that is not below [N]; the indices passed here come
    from [np.where] over [N] columns, or are the index 0 of an array of
    four entries or more. *)
Definition keep_mask (N : nat) (obj : list nat) : list bool :=
  foldl (λ keep i, <[i := false]> keep) (replicate N true) obj.

Definition np_delete {A} (arr : list A) (obj : list nat) : list A :=
  bool_index arr (keep_mask (length arr) obj).

(** [np.delete(M, obj, 1)] *)
Definition np_delete_cols {A} (M : list (list A)) (obj : list nat)
    : list (list A) :=
  (λ row, np_delete row obj) <$> M.

(** [np.any(np.isnan(M), 0)] for a matrix with [ncols] columns. *)
Definition any_isnan_cols {A} (ncols : nat) (M : list (list (option A)))
    : list bool :=
  foldr (λ row acc, zip_with orb (isnan <$> row) acc)
        (replicate ncols false) M.

(** ** The validity filter (step 2 of [retrieve_obs], lines 305-318) *)

(** The fields [AllObs.h], [AllObs.w] and [AllObs.S]; the prefix keeps
    [S] for the successor of [nat]. *)
Record Observations := MkObservations {
  obs_h : list (list float);
  obs_w : list (list float);
  obs_S : list (list float)
}.

Record filtered := Filtered {
  f_iDelete : list nat;
  f_nDelete : nat;
  f_obs : Observations;
  f_nt : nat;
  f_talli : list Q
}.

Definition bad_columns (nt : nat) (AllObs : Observations) : list bool :=
  zip_with orb
    (zip_with orb (any_isnan_cols nt (obs_h AllObs))
                  (any_isnan_cols nt (obs_w AllObs)))
    (any_isnan_cols nt (obs_S AllObs)).

Definition validity_filter (nt : nat) (AllObs : Observations)
    (talli : list Q) : filtered :=
  let iDelete := np_where (bad_columns nt AllObs) in
  let nDelete := length iDelete in
  {| f_iDelete := iDelete;
     f_nDelete := nDelete;
     f_obs := {| obs_h := np_delete_cols (obs_h AllObs) iDelete;
                 obs_w := np_delete_cols (obs_w AllObs) iDelete;
                 obs_S := np_delete_cols (obs_S AllObs) iDelete |};
     f_nt := nt - nDelete;
     f_talli := np_delete talli iDelete |}.

(** ** The quality tier *)

(** [SetQuality]: 0, 1 and 2. *)
Inductive tier := Nominal | Degraded | Invalid.

Definition tier_code (q : tier) : Z :=
  match q with Nominal => 0 | Degraded => 1 | Invalid => 2 end.

Global Instance tier_eq_dec : EqDecision tier.
Proof. solve_decision. Defined.

(** The places of [retrieve_obs] that assign [SetQuality]. *)
Inductive checkpoint :=
| Initial
| PreFilter
| Consistency
| PriorGuard
| PostFilter.

Global Instance checkpoint_eq_dec : EqDecision checkpoint.
Proof. solve_decision. Defined.

(** ** Effects: file accesses, assignments to [SetQuality], exceptions *)

Inductive event :=
| OpenSwot (id : Z)
| ReadTime (id : Z)
| ReadWse (id : Z)
| ReadWidth (id : Z)
| ReadSlope (id : Z)
| ReadQbar (id : Z)
| ReadSword (id : Z)
| Assign (c : checkpoint) (q : tier).

Global Instance event_eq_dec : EqDecision event.
Proof. solve_decision. Defined.

(** The reads of step 1.2: elevation, width, slope, prior, reference. *)
Definition is_channel_read (e : event) : bool :=
  match e with
  | ReadWse _ | ReadWidth _ | ReadSlope _ | ReadQbar _ | ReadSword _ => true
  | _ => false
  end.

(** A run yields the events it produced and an exception or a value. *)
Definition M (A : Type) : Type := list event * (exn + A).

Global Instance M_ret : MRet M := λ A a, ([], inr a).
Global Instance M_bind : MBind M := λ A B f m,
  match m with
  | (l, inl e) => (l, inl e)
  | (l, inr a) => let '(l', r) := f a in (l ++ l', r)
  end.

Definition tell (l : list event) : M unit := (l, inr tt).
Definition lift {A} (x : exn + A) : M A := ([], x).
Definition set_quality (c : checkpoint) (q : tier) : M tier :=
  tell [Assign c q];; mret q.

Definition events {A} (m : M A) : list event := m.1.
Definition outcome {A} (m : M A) : exn + A := m.2.

(** The values assigned to [SetQuality], in order. *)
Definition tiers (l : list event) : list tier :=
  omap (λ e, match e with Assign _ q => Some q | _ => None end) l.

(** ** [retrieve_obs] *)

(** [iDelete] is the tuple returned by [np.where] or the integer 0. *)
Inductive index_obj :=
| IntIndex (z : Z)
| WhereIndex (l : list nat).

(** Modelled from the spec: the class [Domain] of
    [metroman.MetroManVariables] is not in the sources; the spec gives
    it the reach count, the aligned time-step count and the time-delta
    vector.  [D_t] and [D_dt] are the attributes [t] and [dt], set on
    the last return only; the reach lengths and distances, read from
    SWORD, are not kept. *)
Record Domain := MkDomain {
  nR : nat;
  nt : nat;
  D_t : option (list Q);
  D_dt : option (list Q)
}.

(** The tuple returned by [retrieve_obs]. *)
Record retrieved := Retrieved {
  Qbar : list float;
  iDelete : index_obj;
  nDelete : nat;
  SetQuality : tier;
  DAll : Domain;
  AllObs : option Observations;
  overlap_ts : list Z
}.

(** Lines 178-187: days between an instant and the first one, from the
    [days] and [seconds] of a [timedelta] of whole hours.  The range of
    [datetime] is not modelled. *)
Definition elapsed_days (t0 t : Z) : Q :=
  let d := (t - t0)%Z in
  (inject_Z (d / 24) + Qmake ((d mod 24) * 3600) 86400)%Q.

Definition talli_of (overlap_ts : list Z) : list Q :=
  match overlap_ts with
  | [] => []
  | t0 :: _ => elapsed_days t0 <$> overlap_ts
  end.

(** Lines 343-345. *)
Definition dt_of (talli : list Q) : list Q :=
  zip_with (λ a b, ((b - a) * 86400)%Q) talli (tail talli).

(** Modelled from the spec: the class [Observations] of
    [metroman.MetroManVariables] is not in the sources; the spec gives it
    reach-by-time matrices for elevation, width and slope.  Fresh
    entries are written as zero; step 1.2 overwrites every row before
    the matrices are read. *)
Definition new_Observations (nR nt : nat) : Observations :=
  let fresh := replicate nR (replicate nt (Some 0%Q)) in
  MkObservations fresh fresh fresh.

(** The events of lines 113-124. *)
Definition time_events (reachlist : list reach) : list event :=
  reachlist ≫= λ r,
    match swot r with
    | Some _ => [OpenSwot (reach_id r); ReadTime (reach_id r)]
    | None => []
    end.

Record loop_state := LoopState {
  ls_quality : tier;
  ls_obs : option Observations;
  ls_Qbar : list float
}.

(** The three constants of lines 105-107 are parameters of the section,
    so that what depends on their values can be stated. *)
Section thresholds.
Variables ntmin ntmin_prior nRmin : nat.

(** Lines 203-206. *)
Definition initial_quality (nR : nat) : tier :=
  if decide (nR < nRmin) then Degraded else Nominal.

(** Lines 328-333: the tier assigned when the filtered count is below
    [ntmin], whatever the tier was. *)
Definition post_filter_quality (nt : nat) : option tier :=
  if decide (nt < ntmin) then
    if decide (nt < ntmin_prior) then Some Invalid else Some Degraded
  else None.

(** Lines 222-291, one reach; the early return of 1.2.2 is the left
    injection.  A reach without file leaves [swot_dataset] closed, and
    reading it raises.  In [AllObs.h[i,:] = h[mask]] the right-hand side
    is evaluated first; it has [nt] entries by the guard of 1.2.2, and
    [i] is below [nR], so the assignment itself does not raise. *)
Definition read_reach (nr : nat) (al : alignment) (st : loop_state)
    (i : nat) (r : reach) : M (retrieved + loop_state) :=
  let id := reach_id r in
  (if swot r is Some _ then tell [OpenSwot id] else mret ());;
  mask ← lift (from_option inr (inl KeyError) (a_overlap_fs al !! id));
  let nt_reach_overlap := count_true mask in
  if decide (nt_reach_overlap ≠ a_nt al) then
    q ← set_quality Consistency Invalid;
    mret (inl {| Qbar := ls_Qbar st;
                 iDelete := IntIndex 0;
                 nDelete := 0;
                 SetQuality := q;
                 DAll := MkDomain nr (a_nt al) None None;
                 AllObs := ls_obs st;
                 overlap_ts := np_delete (a_overlap_ts al) [0] |})
  else
    let fetch (e : event) (chan : swot_row → float) : M (list float) :=
      tell [e];;
      f ← lift (from_option inr (inl RuntimeError) (swot r));
      lift (getitem_bool (chan <$> f) mask) in
    let target : M Observations :=
      lift (from_option inr (inl AttributeError) (ls_obs st)) in
    hrow ← fetch (ReadWse id) wse;
    obs ← target;
    wrow ← fetch (ReadWidth id) width;
    srow ← fetch (ReadSlope id) slope2;
    let obs := {| obs_h := <[i := hrow]> (obs_h obs);
                  obs_w := <[i := wrow]> (obs_w obs);
                  obs_S := <[i := srow]> (obs_S obs) |} in
    tell [ReadQbar id];;
    let Qbar := <[i := mean_q r]> (ls_Qbar st) in
    q ← (if isnan (mean_q r) then set_quality PriorGuard Invalid
         else mret (ls_quality st));
    tell [ReadSword id];;
    mret (inr (LoopState q (Some obs) Qbar)).

(** Lines 221-291. *)
Fixpoint read_loop (nr : nat) (al : alignment) (i : nat)
    (l : list reach) (st : loop_state) : M (retrieved + loop_state) :=
  match l with
  | [] => mret (inr st)
  | r :: l' =>
      x ← read_reach nr al st i r;
      match x with
      | inl res => mret (inl res)
      | inr st' => read_loop nr al (S i) l' st'
      end
  end.

(** Lines 81-353.  [Qbar], like every [np.empty] array, starts as
    zeros.  [AllObs] is the float [0.] when the file of the last reach
    does not exist. *)
Definition retrieve_obs_with (reachlist : list reach) : M retrieved :=
  tell (time_events reachlist);;
  al ← lift (time_alignment reachlist);
  let nr := length reachlist in
  let talli := talli_of (a_overlap_ts al) in
  exists_ ← lift (from_option inr (inl UnboundLocalError)
                              (swot_file_exists reachlist));
  let AllObs := if (exists_ : bool)
                then Some (new_Observations nr (a_nt al)) else None in
  let Qbar := replicate nr (Some 0%Q) in
  q ← set_quality Initial (initial_quality nr);
  if decide (a_nt al < ntmin_prior) then
    q ← set_quality PreFilter Invalid;
    mret {| Qbar := Qbar; iDelete := IntIndex 0; nDelete := 0;
            SetQuality := q;
            DAll := MkDomain nr (a_nt al) None None;
            AllObs := AllObs;
            overlap_ts := a_overlap_ts al |}
  else
    x ← read_loop nr al 0 reachlist (LoopState q AllObs Qbar);
    match x with
    | inl res => mret res
    | inr st =>
        obs ← lift (from_option inr (inl AttributeError) (ls_obs st));
        let flt := validity_filter (a_nt al) obs talli in
        match post_filter_quality (f_nt flt) with
        | Some q' =>
            q ← set_quality PostFilter q';
            mret {| Qbar := ls_Qbar st; iDelete := IntIndex 0;
                    nDelete := 0; SetQuality := q;
                    DAll := MkDomain nr (f_nt flt) None None;
                    AllObs := Some (f_obs flt);
                    overlap_ts := a_overlap_ts al |}
        | None =>
            mret {| Qbar := ls_Qbar st;
                    iDelete := WhereIndex (f_iDelete flt);
                    nDelete := f_nDelete flt;
                    SetQuality := ls_quality st;
                    DAll := MkDomain nr (f_nt flt) (Some (f_talli flt))
                                     (Some (dt_of (f_talli flt)));
                    AllObs := Some (f_obs flt);
                    overlap_ts := a_overlap_ts al |}
        end
    end.
End thresholds.

(** Lines 104-107. *)
Definition ntmin : nat := 4.
Definition ntmin_prior : nat := 4.
Definition nRmin : nat := 3.

Definition retrieve_obs (reachlist : list reach) : M retrieved :=
  retrieve_obs_with ntmin ntmin_prior nRmin reachlist.

(** ** [write_output], step 1: the placeholders of the removed columns *)

Definition fillvalue : float := Some (-999999999999)%Q.

(** [iDelete - np.arange(nDelete)] reshaped to [[nDelete,]].  The tuple
    of [np.where] has shape (1, k): it broadcasts against (nDelete,)
    when k = nDelete or k = 1. *)
Definition iInsert_of (iDelete : index_obj) (nDelete : nat) : exn + list Z :=
  let arange := Z.of_nat <$> seq 0 nDelete in
  match iDelete with
  | IntIndex z => inr ((λ j, z - j)%Z <$> arange)
  | WhereIndex D =>
      if decide (length D = nDelete) then
        inr (zip_with Z.sub (Z.of_nat <$> D) arange)
      else
        match D with
        | [d] => inr ((λ j, Z.of_nat d - j)%Z <$> arange)
        | _ => inl ValueError
        end
  end.

(** [new[indices] = v; new[old_mask] = arr], where [old_mask] is false
    exactly at [indices]. *)
Fixpoint insert_build {A} (old_mask : list bool) (v : A) (arr : list A)
    : list A :=
  match old_mask with
  | [] => []
  | true :: mask' =>
      match arr with
      | a :: arr' => a :: insert_build mask' v arr'
      | [] => []
      end
  | false :: mask' => v :: insert_build mask' v arr
  end.

(** [np.insert(arr, obj, v)] along the axis of [arr], for an index
    array, as numpy does it: negative indices count from the end, the
    indices are sorted, the j-th smallest moves right by j, and the new
    array takes [v] at these places and [arr] elsewhere. *)
Definition np_insert {A} (arr : list A) (obj : list Z) (v : A)
    : exn + list A :=
  let N := length arr in
  let indices := (λ i, if decide (i < 0) then i + Z.of_nat N else i)%Z <$> obj in
  let numnew := length indices in
  let indices := imap (λ j i, i + Z.of_nat j)%Z (merge_sort Z.le indices) in
  if decide (Forall (λ p, 0 ≤ p < Z.of_nat (N + numnew))%Z indices) then
    inr (insert_build (keep_mask (N + numnew) (Z.to_nat <$> indices)) v arr)
  else inl IndexError.

(** [np.insert(M, obj, v, 1)] *)
Fixpoint np_insert_cols {A} (M : list (list A)) (obj : list Z) (v : A)
    : exn + list (list A) :=
  match M with
  | [] => inr []
  | row :: M' =>
      match np_insert row obj v, np_insert_cols M' obj v with
      | inr row', inr M'' => inr (row' :: M'')
      | inl e, _ | _, inl e => inl e
      end
  end.

(** Modelled from the spec: the class [Estimates] of
    [metroman.MetroManVariables] is not in the sources; of its
    attributes, the per-time-step series that [write_output] re-expands:
    discharge, its uncertainty, and the prior-only discharge. *)
Record Estimates := MkEstimates {
  AllQ : list (list float);
  QhatUnc_HatAllAll : list (list float);
  QhatAllPrior : list (list float)
}.

(** Lines 428-438. *)
Definition add_placeholders (Estimate : Estimates) (iDelete : index_obj)
    (nDelete : nat) (SetQuality : tier) : exn + Estimates :=
  match iInsert_of iDelete nDelete with
  | inl e => inl e
  | inr iInsert =>
      match SetQuality with
      | Nominal =>
          match np_insert_cols (AllQ Estimate) iInsert fillvalue,
                np_insert_cols (QhatUnc_HatAllAll Estimate) iInsert fillvalue with
          | inr q, inr u =>
              inr (MkEstimates q u (QhatAllPrior Estimate))
          | inl e, _ | _, inl e => inl e
          end
      | Degraded =>
          match np_insert_cols (QhatAllPrior Estimate) iInsert fillvalue with
          | inr q =>
              inr (MkEstimates (AllQ Estimate) (QhatUnc_HatAllAll Estimate) q)
          | inl e => inl e
          end
      | Invalid => inr Estimate
      end
  end.

(** The indices below [nt] that are not in [D], ascending. *)
Definition complement_idx (nt : nat) (D : list nat) : list nat :=
  filter (λ p, p ∉ D) (seq 0 nt).

(** The array the round trip is stated against: in an array of [nt]
    zeros, the values of [F] written at the places outside [D], then
    the sentinel written at the places in [D]. *)
Definition scatter {A} (zero : A) (nt : nat) (D : list nat) (sentinel : A)
    (F : list A) : list A :=
  let full := replicate nt zero in
  let full := foldl (λ acc px, <[px.1 := px.2]> acc) full
                    (zip (complement_idx nt D) F) in
  foldl (λ acc d, <[d := sentinel]> acc) full D.

(** ** [set_up_experiment] *)

(** [mean(Qbar)]: the sum over the count; NaN when an entry is NaN or
    the array is empty.  The sum is exact here, and an infinite prior
    is not represented: nothing is stated of the value. *)
Definition np_sum (l : list float) : float :=
  foldr (λ x acc, a ← x; b ← acc; Some (a + b)%Q) (Some 0%Q) l.

Definition np_mean (l : list float) : float :=
  match l with
  | [] => None
  | _ => (λ s, s / inject_Z (Z.of_nat (length l)))%Q <$> np_sum l
  end.

(** Modelled from the spec: the classes [Chain], [RandomSeeds],
    [Experiment] and [Prior] of [metroman.MetroManVariables] are not in
    the sources; the spec treats the estimation routine as a
    collaborator that takes the discharge-scale prior.  The records
    hold the attributes that [set_up_experiment] assigns. *)
Record Chain := MkChain {
  C_N : Z;
  C_Nburn : Z
}.

Record RandomSeeds := MkRandomSeeds {
  Seed : Z
}.

Record Experiment := MkExperiment {
  tUse : Z * Z;
  nOpt : Z
}.

Record Prior := MkPrior {
  meanQbar : float;
  covQbar : Q;
  eQm : Q;
  Geomorph_Use : bool;
  AllLats_q : list (list Q)
}.

(** Lines 355-381. *)
Definition set_up_experiment (DAll : Domain) (Qbar : list float)
    : Chain * RandomSeeds * Experiment * Prior :=
  let C := {| C_N := 10000; C_Nburn := 2000 |} in
  let R := {| Seed := 9 |} in
  let tUseMax := Z.min 31 (Z.of_nat (nt DAll)) in
  let Exp := {| tUse := (1, tUseMax - 1)%Z; nOpt := 5 |} in
  let P := {| meanQbar := np_mean Qbar;
              covQbar := 0.5;
              eQm := 0;
              Geomorph_Use := false;
              AllLats_q := replicate (nR DAll) (replicate (nt DAll) 0%Q) |} in
  (C, R, Exp, P).

(** ** [process]: the floor of the slopes *)

Definition Smin : Q := 5 # 100000.

(** [x < c] on a float: false at NaN. *)
Definition float_lt (x : float) (c : Q) : bool :=
  match x with
  | Some q => negb (Qle_bool c q)
  | None => false
  end.

(** [M < c] *)
Definition matrix_lt (M : list (list float)) (c : Q) : list (list bool) :=
  (λ row : list float, (λ x, float_lt x c) <$> row) <$> M.

(** [np.putmask(M, mask, v)] for a scalar [v]: the array after the
    call, which returns [None]. *)
Definition putmask (M : list (list float)) (mask : list (list bool))
    (v : float) : list (list float) :=
  zip_with (zip_with (λ x (b : bool), if b then v else x)) M mask.

(** [M[mask] = v] for a scalar [v]. *)
Definition setitem_mask (M : list (list float)) (mask : list (list bool))
    (v : float) : list (list float) :=
  zip_with (zip_with (λ x (b : bool), if b then v else x)) M mask.

(** Lines 403-405, for one matrix:
    [S[S<Smin] = putmask(S, S<Smin, Smin)].  The right-hand side is
    evaluated first and changes [S] in place; its value [None] is then
    assigned at the mask computed from the changed [S], and [None]
    stored in a float array is NaN. *)
Definition limit_slopes (S : list (list float)) : list (list float) :=
  let S := putmask S (matrix_lt S Smin) (Some Smin) in
  setitem_mask S (matrix_lt S Smin) None.

(** ** [write_output], step 2: what is handed to the NetCDF dataset *)

(** [sep.join(l)] *)
Fixpoint str_join (sep : string) (l : list string) : string :=
  match l with
  | [] => ""
  | x :: l' =>
      match l' with
      | [] => x
      | _ => x +:+ sep +:+ str_join sep l'
      end
  end.

(** [str(n)] for an integer. *)
Definition str (n : Z) : string := pretty n.

(** [len(M[0])] *)
Definition len_first {A} (M : list (list A)) : exn + nat :=
  match M with
  | [] => inl IndexError
  | row :: _ => inr (length row)
  end.

(** The attributes, the dimensions and the values assigned to the
    variables [nt], [allq], [q_u] and [t] of the dataset; [None] is a
    variable that is created and never assigned.  The per-reach scalars
    ([A0hat], [nahat], [x1hat]) and the variables [nr] and [reach_id]
    are not kept, and what the NetCDF library does with the values (it
    may refuse a shape) is not modelled. *)
Record output := Output {
  o_set_id : string;
  o_valid : Z;
  o_dim_nr : nat;
  o_dim_nt : nat;
  o_nt : list Z;
  o_allq : option (list (list float));
  o_q_u : option (list (list float));
  o_t : list float
}.

(** Lines 419-500. *)
Definition write_output (reachids : list string) (Estimate : Estimates)
    (iDelete : index_obj) (nDelete : nat) (SetQuality : tier)
    (overlap_ts : list float) : exn + output :=
  match add_placeholders Estimate iDelete nDelete SetQuality with
  | inl e => inl e
  | inr Estimate =>
      let setid := str_join "-" reachids +:+ "_metroman.nc" in
      let valid := if decide (tier_code SetQuality < 2)%Z then 1%Z else 0%Z in
      let len_nt :=
        match SetQuality with
        | Nominal => len_first (AllQ Estimate)
        | Degraded => len_first (QhatAllPrior Estimate)
        | Invalid => inr 0
        end in
      match len_nt with
      | inl e => inl e
      | inr n =>
          inr {| o_set_id := setid;
                 o_valid := valid;
                 o_dim_nr := length reachids;
                 o_dim_nt := n;
                 o_nt := Z.of_nat <$> seq 0 n;
                 o_allq :=
                   match SetQuality with
                   | Nominal => Some (AllQ Estimate)
                   | Degraded => Some (QhatAllPrior Estimate)
                   | Invalid => None
                   end;
                 o_q_u :=
                   match SetQuality with
                   | Nominal => Some (QhatUnc_HatAllAll Estimate)
                   | Degraded =>
                       Some (replicate (length reachids)
                               (replicate n fillvalue))
                   | Invalid => None
                   end;
                 o_t := overlap_ts |}
      end
  end.

(** ** [main], from step 1.2 on *)

Section main.

(** The estimation routine behind [process] is not in the sources; it
    is a parameter here, called with what [main] passes to it. *)
Variable process :
  Domain → option Observations → Experiment → Prior → RandomSeeds → Chain →
  tier → exn + (Estimates * Prior).

(** Lines 576-633, for the reach list that [get_reachids] returned.
    [np.any(reachlist)] is false for the empty list only: an entry is a
    non-empty dict.  [None] is the return without an output file. *)
Definition main (reachlist : list reach) : M (option output) :=
  match reachlist with
  | [] => mret None
  | _ =>
      res ← retrieve_obs reachlist;
      x ← (if decide (SetQuality res = Invalid) then
             let nt' := nt (DAll res) + nDelete res in
             let full := replicate (nR (DAll res)) (replicate nt' fillvalue) in
             mret (MkEstimates full full full, IntIndex 0, 0,
                   replicate nt' fillvalue)
           else
             let '(C, R, Exp, P) := set_up_experiment (DAll res) (Qbar res) in
             y ← lift (process (DAll res) (AllObs res) Exp P R C
                         (SetQuality res));
             mret (y.1, iDelete res, nDelete res,
                   (λ z, Some (inject_Z z)) <$> overlap_ts res));
      let '(Estimate, iDelete, nDelete, overlap_ts) := x in
      let reachids := (λ e, str (reach_id e)) <$> reachlist in
      out ← lift (write_output reachids Estimate iDelete nDelete
                    (SetQuality res) overlap_ts);
      mret (Some out)
  end.

End main.

(** * Vocabulary of the properties *)

(** ** Matrices and the validity filter *)

(** A matrix of [nr] rows and [nc] columns. *)
Definition shaped {A} (nr nc : nat) (M : list (list A)) : Prop :=
  length M = nr ∧ Forall (λ row, length row = nc) M.

Definition obs_shaped (nr nc : nat) (AllObs : Observations) : Prop :=
  shaped nr nc (obs_h AllObs) ∧ shaped nr nc (obs_w AllObs)
  ∧ shaped nr nc (obs_S AllObs).

(** Some reach has an undefined reading at column [j] of a channel. *)
Definition nan_at (j : nat) (AllObs : Observations) : Prop :=
  ∃ row, (row ∈ obs_h AllObs ∨ row ∈ obs_w AllObs ∨ row ∈ obs_S AllObs)
         ∧ row !! j = Some None.

(** No channel holds an undefined reading. *)
Definition no_nan (AllObs : Observations) : Prop :=
  ∀ row x, (row ∈ obs_h AllObs ∨ row ∈ obs_w AllObs ∨ row ∈ obs_S AllObs) →
           x ∈ row → isnan x = false.

(** The entries of [l] at the indices outside [D], by ascending index. *)
Definition retained {A} (D : list nat) (l : list A) : list A :=
  omap (λ p, l !! p) (complement_idx (length l) D).

(** ** The output assembler *)

(** The insertion targets [D[j] - (i + j)]; [i] is 0 in [write_output]. *)
Definition targets (i : nat) (D : list nat) : list Z :=
  imap (λ j d, Z.of_nat d - Z.of_nat (i + j))%Z D.

(** ** Time alignment *)

(** The mask of a reach: a position is selected when its instant is in
    the overlap and occurs at no earlier position. *)
Definition selection_mask (overlap_ts : list Z) (ts : list instant)
    : list bool :=
  imap (λ ii t, in_overlap t overlap_ts && negb (in_raw t (take ii ts))) ts.

(** The raw instants the dict holds for a reach, and its candidate set. *)
Definition raw_times (allts : gmap Z (list instant)) (r : reach)
    : list instant :=
  default [] (allts !! reach_id r).

Definition cand (allts : gmap Z (list instant)) (r : reach) : gset Z :=
  list_to_set (valid_times (raw_times allts r)).

(** Every mask of [overlap_fs] has the length of the instants of its
    reach. *)
Definition lens_ok (allts : gmap Z (list instant))
    (fs : gmap Z (list bool)) : Prop :=
  ∀ id m, fs !! id = Some m →
          ∃ ts, allts !! id = Some ts ∧ length m = length ts.

(** The overlap of a reach list: the first candidate set, intersected
    with each of the others. *)
Definition overlap_of (allts : gmap Z (list instant)) (rs : list reach)
    : gset Z :=
  match rs with
  | [] => ∅
  | r :: rest => foldl (λ s r', s ∩ cand allts r') (cand allts r) rest
  end.

(** The instants of the file of a reach. *)
Definition reach_times (r : reach) : list instant :=
  match swot r with
  | Some f => time <$> f
  | None => []
  end.

(** The valid (non-missing) instants of a reach, as a set. *)
Definition valid_set (r : reach) : gset Z :=
  list_to_set (valid_times (reach_times r)).

(** The deduplicated intersection of the per-reach sets. *)
Definition common_instants (rs : list reach) : gset Z :=
  match rs with
  | [] => ∅
  | r :: rest => foldl (λ s r', s ∩ valid_set r') (valid_set r) rest
  end.

(** Reach sets with distinct identifiers whose SWOT files all exist. *)
Definition well_formed (rs : list reach) : Prop :=
  NoDup (reach_id <$> rs) ∧ Forall (λ r, is_Some (swot r)) rs.

(** The reach sets whose instants the alignment counts once each: two
    reaches or more, or one reach with no repeated instant. *)
Definition counted_once (rs : list reach) : Prop :=
  2 ≤ length rs ∨ ∃ r, rs = [r] ∧ NoDup (valid_times (reach_times r)).

(** ** Runs of [retrieve_obs] *)

(** The events of a reach that step 1.2 reads in full. *)
Definition reach_events (r : reach) : list event :=
  let id := reach_id r in
  [OpenSwot id; ReadWse id; ReadWidth id; ReadSlope id; ReadQbar id]
  ++ (if isnan (mean_q r) then [Assign PriorGuard Invalid] else [])
  ++ [ReadSword id].

(** What step 1.2 may log: no assignment to [SetQuality] but of
    [Invalid], by the guards of 1.2.2 and 1.2.4. *)
Definition loop_event_ok (e : event) : Prop :=
  match e with
  | Assign c q => q = Invalid ∧ (c = Consistency ∨ c = PriorGuard)
  | _ => True
  end.

(** What a run may log after the initial tier. *)
Definition tail_event_ok (e : event) : Prop :=
  match e with
  | Assign c q => q = Invalid ∧ c ≠ Initial
  | _ => True
  end.

(** The mask of the reach selects as many instants as the overlap has. *)
Definition count_ok (al : alignment) (r : reach) : Prop :=
  ∃ m, a_overlap_fs al !! reach_id r = Some m ∧ count_true m = a_nt al.

(** The order of the tiers: from the most permissive to [Invalid]. *)
Definition tier_le (q1 q2 : tier) : Prop := (tier_code q1 ≤ tier_code q2)%Z.

(** ** Example data *)

Definition val (n : Z) : float := Some (inject_Z n).

(** A reach whose file holds the instants [ts] and no defined reading. *)
Definition reach_of_times (id : Z) (ts : list instant) : reach :=
  Reach id (Some ((λ t, SwotRow t None None None) <$> ts)) None.

(** A reach observed at the hours 0 to 4, with an undefined width at
    hour [bad] (none when [bad] is another hour). *)
Definition reach_hours (id : Z) (prior : float) (bad : Z) : reach :=
  Reach id
    (Some ((λ t, SwotRow (Some t) (val 1)
                   (if decide (t = bad) then None else val 2) (val 3))
           <$> [0; 1; 2; 3; 4]%Z))
    prior.

(** Two reaches, the first with a repeated instant, the second with a
    gap: the overlap is {5, 7}. *)
Definition rs_dup : list reach :=
  [reach_of_times 1 [Some 5; Some 5; Some 7]%Z;
   reach_of_times 2 [Some 7; None; Some 5; Some 9]%Z].

Definition rs_abc : list reach :=
  [reach_of_times 1 [Some 1; Some 2]%Z;
   reach_of_times 2 [Some 1; Some 2]%Z;
   reach_of_times 3 [Some 1]%Z].

(** Three reaches over five common hours; the second has an undefined
    prior and an undefined width at hour 2. *)
Definition rs_nan_prior : list reach :=
  [reach_hours 1 (val 9) (-1); reach_hours 2 None 2;
   reach_hours 3 (val 9) (-1)].

(** Three reaches with three common hours. *)
Definition rs_short : list reach :=
  [reach_of_times 1 [Some 0; Some 1; Some 2]%Z;
   reach_of_times 2 [Some 0; Some 1; Some 2; Some 3]%Z;
   reach_of_times 3 [Some 2; Some 1; Some 0]%Z].

(** The SWOT file of the first reach does not exist. *)
Definition rs_missing_first : list reach :=
  [Reach 1 None (val 9); reach_hours 2 (val 9) (-1)].

Definition obs_gap : Observations :=
  {| obs_h := [[val 1; val 2; None; val 4]; [val 1; val 2; val 3; val 4]];
     obs_w := [[val 1; val 2; val 3; val 4]; [None; val 2; val 3; val 4]];
     obs_S := [[val 1; val 2; val 3; val 4]; [val 1; val 2; val 3; val 4]] |}.

Definition obs_full : Observations :=
  {| obs_h := [[val 1; val 2]; [val 3; val 4]];
     obs_w := [[val 1; val 2]; [val 3; val 4]];
     obs_S := [[val 1; val 2]; [val 3; val 4]] |}.

(** ** Further vocabulary *)

(** The matrices after step 1.2: the row of each reach holds the
    readings of its file at the positions its mask selects. *)
Definition aggregated (al : alignment) (rs : list reach)
    (obs : Observations) : Prop :=
  ∀ i r, rs !! i = Some r →
    ∃ f mask,
      swot r = Some f
      ∧ a_overlap_fs al !! reach_id r = Some mask
      ∧ length f = length mask
      ∧ count_true mask = a_nt al
      ∧ obs_h obs !! i = Some (bool_index (wse <$> f) mask)
      ∧ obs_w obs !! i = Some (bool_index (width <$> f) mask)
      ∧ obs_S obs !! i = Some (bool_index (slope2 <$> f) mask).

(** Two reaches over the hours 0 to 3; the file of the second lists
    them from the last to the first. *)
Definition rs_reversed : list reach :=
  [reach_of_times 1 [Some 0; Some 1; Some 2; Some 3]%Z;
   reach_of_times 2 [Some 3; Some 2; Some 1; Some 0]%Z].


(** Three reaches over the hours 0 to 4; the second has an undefined
    width at hour 2. *)
Definition rs_gap : list reach :=
  [reach_hours 1 (val 9) (-1); reach_hours 2 (val 8) 2;
   reach_hours 3 (val 7) (-1)].

(** An estimator that returns the elevations as every series. *)
Definition process_h (D : Domain) (o : option Observations) (Exp : Experiment)
    (P : Prior) (R : RandomSeeds) (C : Chain) (q : tier)
    : exn + (Estimates * Prior) :=
  match o with
  | Some obs => inr (MkEstimates (obs_h obs) (obs_h obs) (obs_h obs), P)
  | None => inl AttributeError
  end.

(** The readings of a channel of a file at the instants the alignment
    selects for it, in the order of the file. *)
Definition selected (ov : list Z) (chan : swot_row → float)
    (f : list swot_row) : list float :=
  bool_index (chan <$> f) (selection_mask ov (time <$> f)).

(** Some channel of the file has an undefined reading at the [j]-th
    selected instant. *)
Definition undefined_at (ov : list Z) (j : nat) (f : list swot_row) : Prop :=
  selected ov wse f !! j = Some None
  ∨ selected ov width f !! j = Some None
  ∨ selected ov slope2 f !! j = Some None.

(** A slope raised to the floor; NaN stays NaN. *)
Definition floor_slope (x : float) : float :=
  match x with
  | Some q => if Qle_bool Smin q then Some q else Some Smin
  | None => None
  end.

(** A string without the separator of the set identifier. *)
Fixpoint no_dash (s : string) : Prop :=
  match s with
  | EmptyString => True
  | String c s' => c ≠ "-"%char ∧ no_dash s'
  end.

(** * Properties *)

(** ** Arrays: masks, [np.where], [np.delete] *)

Section updates.
Context {A : Type}.
Implicit Types (arr l : list A) (mask : list bool) (D : list nat).

Lemma foldl_insert_lookup (v : A) D (m : list A) p :
  foldl (λ acc d, <[d := v]> acc) m D !! p
  = (λ x, if decide (p ∈ D) then v else x) <$> m !! p.
Proof.
  revert m. induction D as [|d D IH]; intros m; simpl.
  - by destruct (m !! p).
  - rewrite IH. destruct (decide (d = p)) as [->|Hne].
    + destruct (m !! p) as [b|] eqn:Hm.
      * rewrite list_lookup_insert_eq by eauto using lookup_lt_Some.
        simpl. destruct (decide (p ∈ D)), (decide (p ∈ p :: D)); set_solver.
      * rewrite list_insert_ge by by apply lookup_ge_None.
        by rewrite Hm.
    + rewrite list_lookup_insert_ne by done.
      destruct (m !! p); simpl; [|done].
      destruct (decide (p ∈ D)), (decide (p ∈ d :: D)); set_solver.
Qed.

Lemma foldl_insert_length (v : A) D (m : list A) :
  length (foldl (λ acc d, <[d := v]> acc) m D) = length m.
Proof.
  revert m. induction D as [|d D IH]; intros m; simpl; [done|].
  by rewrite IH, length_insert.
Qed.

End updates.

Lemma keep_mask_spec N (D : list nat) :
  keep_mask N D = (λ p, bool_decide (p ∉ D)) <$> seq 0 N.
  Proof.
    apply list_eq. intros p. unfold keep_mask.
    rewrite foldl_insert_lookup, list_lookup_fmap.
    destruct (decide (p < N)) as [Hlt|Hge].
    - rewrite lookup_replicate_2, lookup_seq_lt by done. simpl.
      destruct (decide (p ∈ D)); case_bool_decide; done.
    - rewrite (proj1 (lookup_replicate_None _ _ _)), lookup_seq_ge by lia. done.
  Qed.

Section arrays.
Context {A : Type}.
Implicit Types (arr l : list A) (mask : list bool) (D : list nat).

(** [where_from] *)
Lemma elem_of_where_from i mask p :
  p ∈ where_from i mask ↔ i ≤ p ∧ mask !! (p - i) = Some true.
Proof.
  revert i p. induction mask as [|b mask IH]; intros i p; simpl.
  - set_solver.
  - assert (∀ q, q ∈ where_from (S i) mask ↔
                 i ≤ q ∧ q ≠ i ∧ (b :: mask) !! (q - i) = Some true) as Hrec.
    { intros q. rewrite IH. split.
      - intros [? Hq]. split; [lia|]. split; [lia|].
        replace (q - i) with (S (q - S i)) by lia. done.
      - intros (? & ? & Hq). split; [lia|].
        replace (q - i) with (S (q - S i)) in Hq by lia. done. }
    destruct b.
    + rewrite elem_of_cons, Hrec. split.
      * intros [->|(?&?&?)]; [|done]. split; [lia|]. by rewrite Nat.sub_diag.
      * intros [? Hp]. destruct (decide (p = i)); [by left|right; done].
    + rewrite Hrec. split; [naive_solver|].
      intros [? Hp]. split; [done|]. split; [|done].
      intros ->. by rewrite Nat.sub_diag in Hp.
Qed.

Lemma where_from_sorted i mask : StronglySorted lt (where_from i mask).
Proof.
  revert i. induction mask as [|b mask IH]; intros i; simpl; [constructor|].
  destruct b; [|done]. constructor; [done|].
  apply Forall_forall. intros q [? _]%elem_of_where_from. lia.
Qed.

Lemma where_from_length_le i mask : length (where_from i mask) ≤ length mask.
Proof.
  revert i. induction mask as [|[] mask IH]; intros i; simpl; [lia|..].
  - specialize (IH (S i)). lia.
  - specialize (IH (S i)). lia.
Qed.

Lemma where_from_all_false i mask :
  Forall (λ b, b = false) mask → where_from i mask = [].
Proof.
  intros H. revert i. induction H as [|b mask -> _ IH]; intros i; simpl; auto.
Qed.

(** [bool_index] *)
Lemma omap_cons {B} (f : B → option A) (y : B) (k : list B) :
  omap f (y :: k)
  = match f y with Some z => z :: omap f k | None => omap f k end.
Proof. done. Qed.

Lemma bool_index_seq (P : nat → Prop) `{!∀ p, Decision (P p)} i arr :
  bool_index arr ((λ p, bool_decide (P p)) <$> seq i (length arr))
  = omap (λ p, arr !! (p - i)) (filter P (seq i (length arr))).
Proof.
  revert i. induction arr as [|x arr IH]; intros i; simpl; [done|].
  assert (omap (λ p, (x :: arr) !! (p - i)) (filter P (seq (S i) (length arr)))
          = omap (λ p, arr !! (p - S i)) (filter P (seq (S i) (length arr))))
    as Hshift.
  { apply list_omap_ext, Forall_Forall2_diag, Forall_forall.
    intros p [_ [? _]%elem_of_seq]%list_elem_of_filter.
    by replace (p - i) with (S (p - S i)) by lia. }
  rewrite filter_cons. case_bool_decide; case_decide; try done.
  - rewrite omap_cons, Nat.sub_diag, Hshift. simpl. by rewrite <-IH.
  - by rewrite IH, Hshift.
Qed.

Lemma np_delete_spec arr D :
  np_delete arr D = omap (λ p, arr !! p) (complement_idx (length arr) D).
Proof.
  unfold np_delete, complement_idx. rewrite keep_mask_spec, bool_index_seq.
  apply list_omap_ext, Forall_Forall2_diag, Forall_forall.
  intros p _. by rewrite Nat.sub_0_r.
Qed.

Lemma bool_index_all_true arr n :
  length arr ≤ n → bool_index arr (replicate n true) = arr.
Proof.
  revert n. induction arr as [|x arr IH]; intros [|n] ?; simpl in *;
    try done; try lia.
  rewrite IH by lia. done.
Qed.

Lemma np_delete_nil arr : np_delete arr [] = arr.
Proof. unfold np_delete. simpl. by apply bool_index_all_true. Qed.

Lemma length_bool_index arr mask :
  length arr = length mask → length (bool_index arr mask) = count_true mask.
Proof.
  unfold count_true. revert mask.
  induction arr as [|x arr IH]; intros [|b mask] ?; simplify_eq/=; [done|].
  rewrite filter_cons. destruct b; simpl; auto.
Qed.
End arrays.

Lemma complement_length nt D :
  NoDup D → Forall (λ d, d < nt) D → length (complement_idx nt D) + length D = nt.
Proof.
  intros HD Hlt. unfold complement_idx.
  pose proof (filter_app_complement (λ p, p ∉ D) (seq 0 nt)) as Hp.
  apply Permutation_length in Hp. rewrite length_app, length_seq in Hp.
  assert (filter (λ x : nat, ¬ (x ∉ D)) (seq 0 nt) ≡ₚ D) as HpD.
  { apply NoDup_Permutation; [apply NoDup_filter, NoDup_seq|done|].
    intros p. rewrite list_elem_of_filter, elem_of_seq.
    rewrite Forall_forall in Hlt. split.
    - intros [Hn _]. by destruct (decide (p ∈ D)).
    - intros Hp'. specialize (Hlt _ Hp'). split; [tauto|lia]. }
  apply Permutation_length in HpD. lia.
Qed.

(** ** The validity filter *)

Section filter.
Context {A : Type}.
Implicit Types (M : list (list (option A))).

Lemma any_isnan_cols_length ncols M :
  Forall (λ row, length row = ncols) M →
  length (any_isnan_cols ncols M) = ncols.
Proof.
  induction 1 as [|row M Hrow _ IH]; simpl.
  - apply length_replicate.
  - rewrite length_zip_with, length_fmap. lia.
Qed.

Lemma any_isnan_cols_true ncols M j :
  Forall (λ row, length row = ncols) M →
  any_isnan_cols ncols M !! j = Some true
  ↔ j < ncols ∧ ∃ row, row ∈ M ∧ row !! j = Some None.
Proof.
  induction 1 as [|row M Hrow HM IH]; simpl.
  - split.
    + intros [? _]%lookup_replicate. done.
    + intros [_ (row & []%not_elem_of_nil & _)].
  - assert (length row ≤ ncols ≤ length row) as Hrow' by lia. clear Hrow.
    rewrite lookup_zip_with, list_lookup_fmap. split.
    + intros Hj. destruct (row !! j) as [x|] eqn:Hx; simplify_eq/=.
      destruct (any_isnan_cols ncols M !! j) as [b|] eqn:Hb; simplify_eq/=.
      assert (j < ncols) by (apply lookup_lt_Some in Hx; lia).
      split; [done|]. destruct x as [x|]; simpl in *.
      * subst b. destruct (proj1 IH eq_refl) as (_ & row' & ? & ?).
        exists row'. split; [by right|done].
      * exists row. split; [by left|done].
    + intros (Hlt & row' & Hin & Hnan).
      destruct (lookup_lt_is_Some_2 row j) as [x Hx]; [lia|].
      destruct (lookup_lt_is_Some_2 (any_isnan_cols ncols M) j) as [b Hb].
      { rewrite any_isnan_cols_length by done. lia. }
      rewrite Hx, Hb. simpl. f_equal.
      apply elem_of_cons in Hin as [->|Hin].
      * rewrite Hx in Hnan. by simplify_eq.
      * assert (b = true) as ->; [|by destruct (isnan x)].
        assert (any_isnan_cols ncols M !! j = Some true) as Hb'
          by (apply IH; eauto).
        congruence.
Qed.

Lemma any_isnan_cols_false ncols M :
  (∀ row x, row ∈ M → x ∈ row → isnan x = false) →
  Forall (λ b, b = false) (any_isnan_cols ncols M).
Proof.
  induction M as [|row M IH]; intros Hno; simpl.
  - apply Forall_forall. by intros b [-> _]%elem_of_replicate.
  - apply Forall_forall. intros b (i & Hi)%list_elem_of_lookup_1.
    rewrite lookup_zip_with, list_lookup_fmap in Hi.
    destruct (row !! i) as [x|] eqn:Hx; simplify_eq/=.
    destruct (any_isnan_cols ncols M !! i) as [b'|] eqn:Hb; simplify_eq/=.
    rewrite (Hno row x); [|by left|by eapply list_elem_of_lookup_2].
    assert (Forall (λ b, b = false) (any_isnan_cols ncols M)) as HF.
    { apply IH. intros row' x' ? ?. apply (Hno row' x'); [by right|done]. }
    rewrite Forall_forall in HF. simpl. apply HF.
    by eapply list_elem_of_lookup_2.
Qed.
End filter.

Lemma zip_with_orb_true (a b : list bool) j :
  length a = length b →
  zip_with orb a b !! j = Some true ↔ a !! j = Some true ∨ b !! j = Some true.
Proof.
  intros Hlen. rewrite lookup_zip_with. split.
  - intros Hj. destruct (a !! j) as [x|]; simplify_eq/=.
    destruct (b !! j) as [y|]; simplify_eq/=.
    destruct x, y; simplify_eq/=; auto.
  - intros [Ha|Hb].
    + destruct (lookup_lt_is_Some_2 b j) as [y Hy].
      { apply lookup_lt_Some in Ha. lia. }
      by rewrite Ha, Hy.
    + destruct (lookup_lt_is_Some_2 a j) as [x Hx].
      { apply lookup_lt_Some in Hb. lia. }
      rewrite Hb, Hx. by destruct x.
Qed.

Lemma bad_columns_length nr nt AllObs :
  obs_shaped nr nt AllObs → length (bad_columns nt AllObs) = nt.
Proof.
  intros ([_ ?] & [_ ?] & [_ ?]). unfold bad_columns.
  rewrite !length_zip_with, !any_isnan_cols_length by done. lia.
Qed.

Lemma bad_columns_true nr nt AllObs j :
  obs_shaped nr nt AllObs →
  bad_columns nt AllObs !! j = Some true ↔ j < nt ∧ nan_at j AllObs.
Proof.
  intros ([_ Hh] & [_ Hw] & [_ HS]). unfold bad_columns, nan_at.
  rewrite zip_with_orb_true
    by (rewrite length_zip_with, !any_isnan_cols_length by done; lia).
  rewrite zip_with_orb_true by (by rewrite !any_isnan_cols_length).
  rewrite !any_isnan_cols_true by done.
  naive_solver.
Qed.

Lemma bad_columns_false nt AllObs :
  no_nan AllObs → Forall (λ b, b = false) (bad_columns nt AllObs).
Proof.
  intros Hno. unfold bad_columns.
  assert (∀ a b, Forall (λ x, x = false) a → Forall (λ x, x = false) b →
                 Forall (λ x, x = false) (zip_with orb a b)) as Hz.
  { intros a b Ha. revert b. induction Ha as [|x a -> _ IH];
      intros [|y b] Hb; simpl; try constructor.
    - by inversion Hb.
    - apply IH. by inversion Hb. }
  apply Hz; [apply Hz|]; apply any_isnan_cols_false; intros; eapply Hno; eauto.
Qed.

Lemma np_delete_retained {A} (l : list A) D : np_delete l D = retained D l.
Proof. apply np_delete_spec. Qed.

Lemma retained_length {A} (l : list A) D :
  NoDup D → Forall (λ d, d < length l) D →
  length (retained D l) + length D = length l.
Proof.
  intros HD Hlt. rewrite <-(complement_length (length l) D) by done.
  f_equal. unfold retained.
  assert (∀ k : list nat, Forall (λ p, p < length l) k →
            length (omap (λ p, l !! p) k) = length k) as Hk.
  { induction 1 as [|p k Hp _ IH]; [done|].
    rewrite omap_cons. destruct (lookup_lt_is_Some_2 l p Hp) as [x ->].
    simpl. by rewrite IH. }
  apply Hk, Forall_forall. unfold complement_idx.
  intros p [_ [_ ?]%elem_of_seq]%list_elem_of_filter. lia.
Qed.

Lemma np_where_bad_columns nr nt AllObs j :
  obs_shaped nr nt AllObs →
  j ∈ np_where (bad_columns nt AllObs) ↔ j < nt ∧ nan_at j AllObs.
Proof.
  intros Hs. unfold np_where. rewrite elem_of_where_from, Nat.sub_0_r.
  rewrite (bad_columns_true nr) by done. intuition lia.
Qed.

Lemma validity_filter_no_nan nt AllObs talli :
  no_nan AllObs →
  validity_filter nt AllObs talli = Filtered [] 0 AllObs nt talli.
Proof.
  intros Hno. unfold validity_filter, np_where.
  rewrite where_from_all_false by by apply bad_columns_false.
  assert (∀ M : list (list float), np_delete_cols M [] = M) as HM.
  { intros M. unfold np_delete_cols. rewrite <-(list_fmap_id M) at 2.
    apply list_fmap_ext. intros _ row _. apply np_delete_nil. }
  simpl. rewrite !HM, np_delete_nil, Nat.sub_0_r. by destruct AllObs.
Qed.

(** Claim C6 (validity filter).  For aligned [nr] x [nt] elevation,
    width and slope matrices, a column is marked iff some reach has an
    undefined reading there in one of the three channels; the marked
    indices form the strictly ascending ledger [iDelete], counted by
    [nDelete]; every row of the three matrices and the instant vector
    [talli] keep exactly their entries outside the ledger, in their
    order; and [nt] drops by exactly [nDelete]. *)
Theorem validity_filter_correct nr nt AllObs talli :
  obs_shaped nr nt AllObs → length talli = nt →
  let flt := validity_filter nt AllObs talli in
  (∀ j, j ∈ f_iDelete flt ↔ j < nt ∧ nan_at j AllObs)
  ∧ StronglySorted lt (f_iDelete flt)
  ∧ f_nDelete flt = length (f_iDelete flt)
  ∧ obs_h (f_obs flt) = retained (f_iDelete flt) <$> obs_h AllObs
  ∧ obs_w (f_obs flt) = retained (f_iDelete flt) <$> obs_w AllObs
  ∧ obs_S (f_obs flt) = retained (f_iDelete flt) <$> obs_S AllObs
  ∧ f_talli flt = retained (f_iDelete flt) talli
  ∧ f_nt flt + f_nDelete flt = nt
  ∧ obs_shaped nr (f_nt flt) (f_obs flt)
  ∧ length (f_talli flt) = f_nt flt.
Proof.
  intros Hs Ht flt.
  assert (∀ j, j ∈ f_iDelete flt ↔ j < nt ∧ nan_at j AllObs) as Hmark
    by (intros j; by apply (np_where_bad_columns nr)).
  assert (StronglySorted lt (f_iDelete flt)) as Hsort
    by apply where_from_sorted.
  assert (NoDup (f_iDelete flt)) as Hnd.
  { clear -Hsort. induction Hsort as [|d D _ IH Hd]; constructor; [|done].
    intros Hin. rewrite Forall_forall in Hd. specialize (Hd _ Hin). lia. }
  assert (Forall (λ d, d < nt) (f_iDelete flt)) as Hlt.
  { apply Forall_forall. intros d Hd. by apply Hmark in Hd as [? _]. }
  assert (∀ (B : Type) (l : list B), length l = nt →
            length (retained (f_iDelete flt) l) + f_nDelete flt = nt) as Hlen.
  { intros B l Hl. pose proof (retained_length l _ Hnd) as Hr.
    rewrite Hl in Hr. specialize (Hr Hlt). simpl in *. lia. }
  assert (f_nt flt + f_nDelete flt = nt) as Hnt.
  { pose proof (where_from_length_le 0 (bad_columns nt AllObs)) as Hle.
    rewrite (bad_columns_length nr) in Hle by done.
    simpl. unfold np_where. lia. }
  assert (∀ M : list (list float), shaped nr nt M →
            np_delete_cols M (f_iDelete flt) = retained (f_iDelete flt) <$> M
            ∧ shaped nr (f_nt flt) (np_delete_cols M (f_iDelete flt))) as HM.
  { intros M [HnM HF]. unfold np_delete_cols. split.
    - apply list_fmap_ext. intros _ row _. apply np_delete_retained.
    - split; [by rewrite length_fmap|].
      rewrite Forall_fmap. eapply Forall_impl; [exact HF|].
      intros row Hrow. unfold compose. rewrite np_delete_retained.
      specialize (Hlen _ row Hrow). lia. }
  destruct Hs as (Hh & Hw & HS).
  destruct (HM _ Hh) as [? ?], (HM _ Hw) as [? ?], (HM _ HS) as [? ?].
  split_and!; try done.
  - apply np_delete_retained.
  - specialize (Hlen _ talli Ht).
    change (f_talli flt) with (np_delete talli (f_iDelete flt)).
    rewrite np_delete_retained. lia.
Qed.

Lemma obs_gap_shaped : obs_shaped 2 4 obs_gap.
Proof. repeat split; repeat constructor. Qed.

Lemma validity_filter_correct_witness :
  f_iDelete (validity_filter 4 obs_gap [0; 1; 2; 3]%Q) = [0; 2]
  ∧ f_nt (validity_filter 4 obs_gap [0; 1; 2; 3]%Q)
    + f_nDelete (validity_filter 4 obs_gap [0; 1; 2; 3]%Q) = 4
  ∧ f_talli (validity_filter 4 obs_gap [0; 1; 2; 3]%Q)
    = retained [0; 2] [0; 1; 2; 3]%Q.
Proof.
  destruct (validity_filter_correct 2 4 obs_gap [0; 1; 2; 3]%Q)
    as (_ & _ & _ & _ & _ & _ & Ht & Hnt & _).
  - exact obs_gap_shaped.
  - reflexivity.
  - split; [reflexivity|]. split; [exact Hnt|exact Ht].
Defined.

Lemma validity_filter_output_no_nan nr nt AllObs talli :
  obs_shaped nr nt AllObs →
  no_nan (f_obs (validity_filter nt AllObs talli)).
Proof.
  intros Hs row' x Hrow' Hx.
  destruct x as [x|]; [done|]. exfalso.
  set (D := np_where (bad_columns nt AllObs)) in *.
  assert (∃ row, (row ∈ obs_h AllObs ∨ row ∈ obs_w AllObs ∨ row ∈ obs_S AllObs)
                 ∧ row' = retained D row) as (row & Hrow & ->).
  { simpl in Hrow'. unfold np_delete_cols in Hrow'.
    rewrite !list_elem_of_fmap in Hrow'.
    destruct Hrow' as [(row&->&?)|[(row&->&?)|(row&->&?)]];
      exists row; rewrite np_delete_retained; auto. }
  unfold retained in Hx. apply list_elem_of_omap in Hx as (p & Hp & Hnan).
  unfold complement_idx in Hp.
  apply list_elem_of_filter in Hp as [Hp [_ Hlt]%elem_of_seq].
  apply Hp. apply (np_where_bad_columns nr); [done|].
  assert (length row = nt) as <-.
  { destruct Hs as ([_ Hh] & [_ Hw] & [_ HS]).
    rewrite Forall_forall in Hh, Hw, HS. naive_solver. }
  split; [lia|]. by exists row.
Qed.

(** Claim C8 (idempotence of the validity filter).  On a dataset whose
    elevation, width and slope matrices hold no undefined reading, the
    filter marks no column: the ledger is empty, and the matrices, the
    instant vector and [nt] are unchanged.  The output of the filter is
    such a dataset, so that a second application removes nothing. *)
Theorem validity_filter_idempotent nr nt AllObs talli :
  (no_nan AllObs →
     let flt := validity_filter nt AllObs talli in
     f_iDelete flt = [] ∧ f_nDelete flt = 0
     ∧ f_obs flt = AllObs ∧ f_talli flt = talli ∧ f_nt flt = nt)
  ∧ (obs_shaped nr nt AllObs →
     let flt := validity_filter nt AllObs talli in
     let again := validity_filter (f_nt flt) (f_obs flt) (f_talli flt) in
     no_nan (f_obs flt)
     ∧ f_iDelete again = [] ∧ f_nDelete again = 0
     ∧ f_obs again = f_obs flt ∧ f_talli again = f_talli flt
     ∧ f_nt again = f_nt flt).
Proof.
  split.
  - intros Hno flt. unfold flt. by rewrite validity_filter_no_nan.
  - intros Hs flt again.
    assert (no_nan (f_obs flt)) as Hno
      by apply (validity_filter_output_no_nan nr), Hs.
    split; [exact Hno|]. unfold again.
    by rewrite (validity_filter_no_nan _ _ _ Hno).
Qed.

Lemma obs_full_no_nan : no_nan obs_full.
Proof.
  intros row x Hrow Hx. simpl in Hrow.
  rewrite !elem_of_cons, !elem_of_nil in Hrow.
  destruct Hrow as [[->|[->|[]]]|[[->|[->|[]]]|[->|[->|[]]]]];
    rewrite !elem_of_cons, elem_of_nil in Hx;
    destruct Hx as [->|[->|[]]]; reflexivity.
Qed.

Lemma obs_full_shaped : obs_shaped 2 2 obs_full.
Proof. repeat split; repeat constructor. Qed.

Lemma validity_filter_idempotent_witness :
  (f_iDelete (validity_filter 2 obs_full [0; 1]%Q) = []
   ∧ f_obs (validity_filter 2 obs_full [0; 1]%Q) = obs_full
   ∧ f_nt (validity_filter 2 obs_full [0; 1]%Q) = 2)
  ∧ (let flt := validity_filter 4 obs_gap [0; 1; 2; 3]%Q in
     f_iDelete flt = [0; 2]
     ∧ f_iDelete (validity_filter (f_nt flt) (f_obs flt) (f_talli flt)) = []
     ∧ f_nt (validity_filter (f_nt flt) (f_obs flt) (f_talli flt)) = 2).
Proof.
  split.
  - destruct (validity_filter_idempotent 2 2 obs_full [0; 1]%Q) as [H _].
    destruct (H obs_full_no_nan) as (H1 & _ & H2 & _ & H3).
    split; [exact H1|]. split; [exact H2|exact H3].
  - destruct (validity_filter_idempotent 2 4 obs_gap [0; 1; 2; 3]%Q)
      as [_ H].
    destruct (H obs_gap_shaped) as (_ & H1 & _ & _ & _ & H2).
    split; [reflexivity|]. split; [exact H1|exact H2].
Defined.

(** ** The output assembler *)

Section assembler.
Context {A : Type}.
Implicit Types (F : list A) (D : list nat).

Lemma foldl_scatter_notin (ps : list nat) (xs m : list A) p :
  p ∉ ps →
  foldl (λ acc px, <[px.1 := px.2]> acc) m (zip ps xs) !! p = m !! p.
Proof.
  revert xs m. induction ps as [|q ps IH]; intros [|x xs] m Hp; simpl; try done.
  rewrite IH by set_solver. apply list_lookup_insert_ne. set_solver.
Qed.

Lemma foldl_scatter_length (ps : list nat) (xs m : list A) :
  length (foldl (λ acc px, <[px.1 := px.2]> acc) m (zip ps xs)) = length m.
Proof.
  revert xs m. induction ps as [|q ps IH]; intros [|x xs] m; simpl; try done.
  by rewrite IH, length_insert.
Qed.

Lemma foldl_scatter_in (ps : list nat) (xs m : list A) r p x :
  NoDup ps → ps !! r = Some p → xs !! r = Some x → p < length m →
  foldl (λ acc px, <[px.1 := px.2]> acc) m (zip ps xs) !! p = Some x.
Proof.
  revert xs m r. induction ps as [|q ps IH]; intros [|y xs] m r;
    intros Hnd Hp Hx Hlt; simplify_eq/=.
  apply NoDup_cons in Hnd as [Hq Hnd]. destruct r as [|r]; simplify_eq/=.
  - rewrite foldl_scatter_notin by done.
    by apply list_lookup_insert_eq.
  - eapply IH; eauto. by rewrite length_insert.
Qed.

Lemma lookup_succ {B} (x : B) l i : (x :: l) !! S i = l !! i.
Proof. done. Qed.

Lemma insert_build_spec (f : nat → bool) (fill : A) n i F :
  length (filter (λ p, f p = true) (seq i n)) ≤ length F →
  length (insert_build (f <$> seq i n) fill F) = n
  ∧ (∀ p, i ≤ p < i + n → f p = false →
          insert_build (f <$> seq i n) fill F !! (p - i) = Some fill)
  ∧ (∀ r p, filter (λ p, f p = true) (seq i n) !! r = Some p →
            insert_build (f <$> seq i n) fill F !! (p - i) = F !! r).
Proof.
  revert i F. induction n as [|n IH]; intros i F.
  - intros _. simpl. split; [done|]. split; [intros; lia|]. by intros [].
  - change (seq i (S n)) with (i :: seq (S i) n).
    rewrite fmap_cons, filter_cons. destruct (f i) eqn:Hfi.
    + rewrite decide_True by done. destruct F as [|a F]; [simpl; lia|].
      intros HF. destruct (IH (S i) F) as (Hlen & Hfill & Hkeep).
      { simpl in HF. lia. }
      cbn [insert_build].
      split; [simpl; by rewrite Hlen|]. split.
      * intros p Hp Hfp. assert (p ≠ i) by congruence.
        replace (p - i) with (S (p - S i)) by lia.
        rewrite lookup_succ. apply Hfill; [lia|done].
      * intros [|r] p Hr.
        { simpl in Hr. simplify_eq. by rewrite Nat.sub_diag. }
        rewrite lookup_succ in Hr.
        assert (S i ≤ p).
        { apply list_elem_of_lookup_2, list_elem_of_filter in Hr as [_ Hr].
          apply elem_of_seq in Hr. lia. }
        replace (p - i) with (S (p - S i)) by lia.
        rewrite !lookup_succ. by apply Hkeep.
    + rewrite decide_False by congruence. intros HF.
      destruct (IH (S i) F) as (Hlen & Hfill & Hkeep); [done|].
      cbn [insert_build].
      split; [simpl; by rewrite Hlen|]. split.
      * intros p Hp Hfp. destruct (decide (p = i)) as [->|?].
        { by rewrite Nat.sub_diag. }
        replace (p - i) with (S (p - S i)) by lia.
        rewrite lookup_succ. apply Hfill; [lia|done].
      * intros r p Hr.
        assert (S i ≤ p).
        { apply list_elem_of_lookup_2, list_elem_of_filter in Hr as [_ Hr].
          apply elem_of_seq in Hr. lia. }
        replace (p - i) with (S (p - S i)) by lia.
        rewrite lookup_succ. by apply Hkeep.
Qed.

Lemma scatter_length zero nt D fill F :
  length (scatter zero nt D fill F) = nt.
Proof.
  unfold scatter.
  by rewrite foldl_insert_length, foldl_scatter_length, length_replicate.
Qed.

Lemma insert_build_scatter zero nt D fill F :
  NoDup D → Forall (λ d, d < nt) D → nt = length F + length D →
  insert_build (keep_mask nt D) fill F = scatter zero nt D fill F.
Proof.
  intros Hnd Hlt Hnt. rewrite keep_mask_spec.
  pose proof (complement_length nt D Hnd Hlt) as HC.
  set (f := λ p : nat, bool_decide (p ∉ D)).
  assert (filter (λ p, f p = true) (seq 0 nt) = complement_idx nt D) as Hf.
  { unfold complement_idx. apply list_filter_iff. intros p. unfold f.
    by rewrite bool_decide_eq_true. }
  destruct (insert_build_spec f fill nt 0 F) as (Hlen & Hfill & Hkeep).
  { rewrite Hf. lia. }
  rewrite Hf in Hkeep.
  apply list_eq. intros p. destruct (decide (p < nt)) as [Hp|Hp].
  - unfold scatter. rewrite foldl_insert_lookup.
    destruct (decide (p ∈ D)) as [HpD|HpD].
    + specialize (Hfill p). rewrite Nat.sub_0_r in Hfill.
      rewrite Hfill; [|lia|unfold f; by rewrite bool_decide_eq_false; tauto].
      destruct (lookup_lt_is_Some_2
        (foldl (λ acc px, <[px.1:=px.2]> acc) (replicate nt zero)
           (zip (complement_idx nt D) F)) p) as [y ->]; [|done].
      by rewrite foldl_scatter_length, length_replicate.
    + assert (p ∈ complement_idx nt D) as [r Hr]%list_elem_of_lookup_1.
      { apply list_elem_of_filter. split; [done|]. apply elem_of_seq. lia. }
      specialize (Hkeep r p Hr). rewrite Nat.sub_0_r in Hkeep.
      rewrite Hkeep.
      destruct (lookup_lt_is_Some_2 F r) as [x Hx].
      { apply lookup_lt_Some in Hr. lia. }
      rewrite Hx.
      erewrite foldl_scatter_in; eauto.
      * apply NoDup_filter, NoDup_seq.
      * by rewrite length_replicate.
  - rewrite !(proj2 (lookup_ge_None _ _)); [done|..].
    + rewrite scatter_length. lia.
    + rewrite Hlen. lia.
Qed.
End assembler.

Lemma zip_sub_arange i D :
  zip_with Z.sub (Z.of_nat <$> D) (Z.of_nat <$> seq i (length D)) = targets i D.
Proof.
  unfold targets. revert i. induction D as [|d D IH]; intros i; [done|].
  simpl. rewrite Nat.add_0_r. f_equal. rewrite IH.
  apply imap_ext. intros j x _. simpl. do 2 f_equal. lia.
Qed.

Lemma iInsert_of_where D :
  iInsert_of (WhereIndex D) (length D) = inr (targets 0 D).
Proof. unfold iInsert_of. rewrite decide_True by done. by rewrite zip_sub_arange. Qed.

Lemma sorted_lookup_ge x D j d :
  StronglySorted lt (x :: D) → (x :: D) !! j = Some d → x + j ≤ d.
Proof.
  revert x j. induction D as [|y D IH]; intros x j Hs Hj.
  - destruct j as [|j]; simplify_eq/=; lia.
  - destruct j as [|j]; simplify_eq/=; [lia|].
    apply StronglySorted_inv in Hs as [Hs Hx].
    apply Forall_cons in Hx as [Hxy _].
    specialize (IH y j Hs Hj). lia.
Qed.

Lemma targets_sorted i D :
  StronglySorted lt D → Sorted Z.le (targets i D).
Proof.
  unfold targets. revert i. induction D as [|d D IH]; intros i Hs; [constructor|].
  rewrite imap_cons. pose proof Hs as Hs'.
  apply StronglySorted_inv in Hs as [Hs Hd]. constructor.
  - erewrite imap_ext; [apply (IH (S i) Hs)|].
    intros j x _. simpl. do 2 f_equal. lia.
  - destruct D as [|d' D]; [constructor|]. rewrite imap_cons. constructor.
    apply Forall_cons in Hd as [? _]. simpl. lia.
Qed.

Lemma targets_nonneg D :
  StronglySorted lt D → Forall (λ z, 0 ≤ z)%Z (targets 0 D).
Proof.
  intros Hs. apply Forall_forall. intros z (j & Hj)%list_elem_of_lookup_1.
  unfold targets in Hj. rewrite list_lookup_imap in Hj.
  destruct (D !! j) as [d|] eqn:Hd; simplify_eq/=.
  destruct D as [|x D]; [done|].
  pose proof (sorted_lookup_ge _ _ _ _ Hs Hd). lia.
Qed.

Lemma targets_shift D :
  imap (λ j z, z + Z.of_nat j)%Z (targets 0 D) = Z.of_nat <$> D.
Proof.
  apply list_eq. intros j. unfold targets.
  rewrite !list_lookup_imap, list_lookup_fmap.
  destruct (D !! j); simpl; [f_equal; lia|done].
Qed.

Lemma np_insert_targets {A} (F : list A) D fill :
  StronglySorted lt D → Forall (λ d, d < length F + length D) D →
  np_insert F (targets 0 D) fill
  = inr (insert_build (keep_mask (length F + length D) D) fill F).
Proof.
  intros Hs Hlt. unfold np_insert.
  assert ((λ i, if decide (i < 0)%Z then (i + Z.of_nat (length F))%Z else i)
            <$> targets 0 D = targets 0 D) as ->.
  { rewrite <-(list_fmap_id (targets 0 D)) at 2.
    apply list_fmap_ext. intros j z Hz.
    pose proof (targets_nonneg D Hs) as Hnn. rewrite Forall_forall in Hnn.
    apply list_elem_of_lookup_2, Hnn in Hz. by rewrite decide_False by lia. }
  assert (merge_sort Z.le (targets 0 D) = targets 0 D) as ->.
  { apply (Sorted_unique Z.le).
    - apply Sorted_merge_sort. intros x y. lia.
    - by apply targets_sorted.
    - apply merge_sort_Permutation. }
  rewrite targets_shift.
  assert (length (targets 0 D) = length D) as ->
    by (unfold targets; by rewrite length_imap).
  rewrite decide_True.
  - do 3 f_equal. rewrite <-list_fmap_compose.
    rewrite <-(list_fmap_id D) at 2. apply list_fmap_ext.
    intros j d _. simpl. lia.
  - rewrite Forall_fmap. eapply Forall_impl; [exact Hlt|].
    intros d Hd. simpl in *. lia.
Qed.

Lemma insert_build_all_true {A} (v : A) (F : list A) :
  insert_build (replicate (length F) true) v F = F.
Proof. induction F as [|x F IH]; simpl; [done|]. by rewrite IH. Qed.

(** Without indices [np.insert] returns the array, and step 1 of
    [write_output] the estimates. *)
Lemma np_insert_nil {A} (F : list A) (fill : A) : np_insert F [] fill = inr F.
Proof.
  unfold np_insert, keep_mask. simpl.
  by rewrite Nat.add_0_r, insert_build_all_true.
Qed.

Lemma np_insert_cols_nil {A} (M : list (list A)) (fill : A) :
  np_insert_cols M [] fill = inr M.
Proof.
  induction M as [|row M IH]; [done|].
  cbn [np_insert_cols]. by rewrite np_insert_nil, IH.
Qed.

Lemma add_placeholders_no_ledger (E : Estimates) (q : tier) :
  add_placeholders E (WhereIndex []) 0 q = inr E
  ∧ add_placeholders E (IntIndex 0) 0 q = inr E.
Proof.
  unfold add_placeholders. cbn [iInsert_of]. simpl.
  destruct E, q; by rewrite ?np_insert_cols_nil.
Qed.

(** The matrices of [write_output]: every row is re-expanded. *)
Lemma np_insert_cols_round_trip {A} (zero fill : A) (M : list (list A)) D nt :
  StronglySorted lt D → Forall (λ d, d < nt) D →
  Forall (λ row, nt = length row + length D) M →
  np_insert_cols M (targets 0 D) fill = inr (scatter zero nt D fill <$> M).
Proof.
  intros Hs Hlt HM. induction HM as [|row M Hrow _ IH]; [done|].
  assert (NoDup D) as Hnd.
  { clear -Hs. induction Hs as [|d D _ IH Hd]; constructor; [|done].
    intros Hin. rewrite Forall_forall in Hd. specialize (Hd _ Hin). lia. }
  simpl. rewrite IH, np_insert_targets by (done || by rewrite <-Hrow).
  rewrite <-Hrow. by rewrite (insert_build_scatter zero).
Qed.

(** Step 1 of [write_output] on the estimates of a nominal run and of
    a prior-only run. *)
Lemma add_placeholders_nominal (E : Estimates) D nt :
  StronglySorted lt D → Forall (λ d, d < nt) D →
  Forall (λ row, nt = length row + length D) (AllQ E) →
  Forall (λ row, nt = length row + length D) (QhatUnc_HatAllAll E) →
  add_placeholders E (WhereIndex D) (length D) Nominal
  = inr (MkEstimates (scatter (val 0) nt D fillvalue <$> AllQ E)
           (scatter (val 0) nt D fillvalue <$> QhatUnc_HatAllAll E)
           (QhatAllPrior E)).
Proof.
  intros Hs Hlt HQ HU. unfold add_placeholders.
  rewrite iInsert_of_where.
  by rewrite !(np_insert_cols_round_trip (val 0) fillvalue _ D nt).
Qed.

Lemma add_placeholders_degraded (E : Estimates) D nt :
  StronglySorted lt D → Forall (λ d, d < nt) D →
  Forall (λ row, nt = length row + length D) (QhatAllPrior E) →
  add_placeholders E (WhereIndex D) (length D) Degraded
  = inr (MkEstimates (AllQ E) (QhatUnc_HatAllAll E)
           (scatter (val 0) nt D fillvalue <$> QhatAllPrior E)).
Proof.
  intros Hs Hlt HP. unfold add_placeholders.
  rewrite iInsert_of_where.
  by rewrite (np_insert_cols_round_trip (val 0) fillvalue _ D nt).
Qed.

(** Claim C1 (round trip of the output assembler).  For a strictly
    ascending deletion set [D] below [nt], step 1 of [write_output]
    hands the targets [D[j] - j] to [np.insert]; on estimates whose
    rows have [nt - |D|] entries it yields, for the series of the tier,
    the rows that hold the sentinel at the places in [D] and the values
    of the filtered row, in order, at the other places of a full-length
    array; such a row has [nt] entries; nothing changes when [D] is
    empty; and for [nt = 6], [D = [1, 3]] and the row [[a, b, c, d]] the
    result is [[a, fill, b, fill, c, d]]. *)
Theorem assemble_round_trip (E : Estimates) D nt :
  StronglySorted lt D → Forall (λ d, d < nt) D →
  iInsert_of (WhereIndex D) (length D) = inr (targets 0 D)
  ∧ (Forall (λ row, nt = length row + length D) (AllQ E) →
     Forall (λ row, nt = length row + length D) (QhatUnc_HatAllAll E) →
     add_placeholders E (WhereIndex D) (length D) Nominal
     = inr (MkEstimates (scatter (val 0) nt D fillvalue <$> AllQ E)
              (scatter (val 0) nt D fillvalue <$> QhatUnc_HatAllAll E)
              (QhatAllPrior E)))
  ∧ (Forall (λ row, nt = length row + length D) (QhatAllPrior E) →
     add_placeholders E (WhereIndex D) (length D) Degraded
     = inr (MkEstimates (AllQ E) (QhatUnc_HatAllAll E)
              (scatter (val 0) nt D fillvalue <$> QhatAllPrior E)))
  ∧ (∀ F : list float, length (scatter (val 0) nt D fillvalue F) = nt)
  ∧ (D = [] → ∀ q, add_placeholders E (WhereIndex D) (length D) q = inr E)
  ∧ (∀ a b c d : float,
       add_placeholders
         (MkEstimates [[a; b; c; d]] [[a; b; c; d]] [[a; b; c; d]])
         (WhereIndex [1; 3]) 2 Nominal
       = inr (MkEstimates [[a; fillvalue; b; fillvalue; c; d]]
                [[a; fillvalue; b; fillvalue; c; d]] [[a; b; c; d]])).
Proof.
  intros Hs Hlt. split_and!.
  - apply iInsert_of_where.
  - intros HQ HU. by apply add_placeholders_nominal.
  - intros HP. by apply add_placeholders_degraded.
  - intros F. apply scatter_length.
  - intros -> q. apply add_placeholders_no_ledger.
  - intros a b c d. reflexivity.
Qed.

Lemma assemble_round_trip_witness :
  add_placeholders
    (MkEstimates [[val 10; val 20; val 30; val 40]]
       [[val 1; val 2; val 3; val 4]] [])
    (WhereIndex [1; 3]) 2 Nominal
  = inr (MkEstimates
           [scatter (val 0) 6 [1; 3] fillvalue [val 10; val 20; val 30; val 40]]
           [scatter (val 0) 6 [1; 3] fillvalue [val 1; val 2; val 3; val 4]] [])
  ∧ scatter (val 0) 6 [1; 3] fillvalue [val 10; val 20; val 30; val 40]
    = [val 10; fillvalue; val 20; fillvalue; val 30; val 40].
Proof.
  destruct (assemble_round_trip
              (MkEstimates [[val 10; val 20; val 30; val 40]]
                 [[val 1; val 2; val 3; val 4]] []) [1; 3] 6)
    as (_ & H & _).
  - repeat constructor; lia.
  - repeat constructor; lia.
  - split; [|reflexivity]. apply H; repeat constructor.
Defined.

(** ** Time alignment *)

Section loops.
Context {A St : Type}.

Lemma for_enumerate_ext (f g : St → nat → A → St) i l s :
  (∀ s i x, f s i x = g s i x) →
  for_enumerate f i l s = for_enumerate g i l s.
Proof.
  intros Hfg. revert i s. induction l as [|x l IH]; intros i s; simpl; [done|].
  by rewrite Hfg, IH.
Qed.
End loops.

Lemma for_enumerate_length {A B} (f : list B → nat → A → list B) i l m :
  (∀ m i x, length (f m i x) = length m) →
  length (for_enumerate f i l m) = length m.
Proof.
  intros Hf. revert i m. induction l as [|x l IH]; intros i m; simpl; [done|].
  by rewrite IH, Hf.
Qed.

Lemma for_enumerate_insert {A B} (g : nat → A → B) l pre rest :
  length rest = length l →
  for_enumerate (λ m ii t, <[ii := g ii t]> m) (length pre) l (pre ++ rest)
  = pre ++ imap (λ k, g (length pre + k)) l.
Proof.
  revert pre rest. induction l as [|t l IH]; intros pre [|x rest] Hlen;
    simplify_eq/=; [done|].
  rewrite <-(Nat.add_0_r (length pre)) at 2. rewrite insert_app_r. simpl.
  rewrite (cons_middle (g (length pre) t) pre rest), (assoc_L (++)).
  replace (S (length pre)) with (length (pre ++ [g (length pre) t]))
    by (rewrite length_app; simpl; lia).
  rewrite IH by done. rewrite <-(assoc_L (++)). simpl.
  rewrite Nat.add_0_r. do 2 f_equal.
  apply imap_ext. intros k y _. simpl. rewrite length_app. simpl.
  f_equal. lia.
Qed.

Lemma fix_mask_spec overlap_ts tarray m :
  length m = length tarray →
  fix_mask overlap_ts tarray m = selection_mask overlap_ts tarray.
Proof.
  intros Hlen. unfold fix_mask, selection_mask.
  erewrite for_enumerate_ext.
  - apply (for_enumerate_insert
      (λ ii t, in_overlap t overlap_ts && negb (in_raw t (take ii tarray)))
      tarray [] m Hlen).
  - intros s i t. simpl. destruct (in_raw t (take i tarray)).
    + by rewrite list_insert_insert_eq, andb_false_r.
    + by rewrite andb_true_r.
Qed.

Lemma selection_mask_length ov ts : length (selection_mask ov ts) = length ts.
Proof. unfold selection_mask. by rewrite length_imap. Qed.

Lemma selection_mask_true ov ts ii :
  selection_mask ov ts !! ii = Some true
  ↔ ∃ z, ts !! ii = Some (Some z) ∧ z ∈ ov
         ∧ ∀ jj, jj < ii → ts !! jj ≠ Some (Some z).
Proof.
  unfold selection_mask. rewrite list_lookup_imap. split.
  - intros Hm. destruct (ts !! ii) as [[z|]|] eqn:Ht; simplify_eq/=.
    apply andb_true_iff in Hm as [Hov Hraw].
    apply bool_decide_eq_true in Hov. apply negb_true_iff in Hraw.
    apply bool_decide_eq_false in Hraw.
    exists z. split_and!; [done..|].
    intros jj Hjj Hj. apply Hraw, elem_of_take. eauto.
  - intros (z & Ht & Hov & Hfirst). rewrite Ht. simpl. f_equal.
    apply andb_true_iff. split; [by apply bool_decide_eq_true|].
    apply negb_true_iff, bool_decide_eq_false.
    intros (jj & Hj & Hlt)%elem_of_take. by eapply Hfirst.
Qed.

Lemma selection_mask_perm ov ov' ts :
  ov ≡ₚ ov' → selection_mask ov ts = selection_mask ov' ts.
Proof.
  intros Hp. unfold selection_mask. apply imap_ext. intros i [z|] _; simpl; [|done].
  f_equal. apply bool_decide_ext. by rewrite Hp.
Qed.

(** The number of selected positions: the distinct defined instants of
    the reach that are in the overlap. *)
Lemma selection_count_from (ov : list Z) (seen ts : list instant) :
  count_true
    (imap (λ ii t, in_overlap t ov && negb (in_raw t (seen ++ take ii ts))) ts)
  = size ((list_to_set (valid_times ts) ∩ list_to_set ov : gset Z)
          ∖ list_to_set (valid_times seen)).
Proof.
  unfold count_true. revert seen. induction ts as [|t ts IH]; intros seen.
  - simpl. replace (_ ∖ _) with (∅ : gset Z) by set_solver. by rewrite size_empty.
  - rewrite imap_cons, filter_cons. simpl take. rewrite app_nil_r.
    assert (imap ((λ ii t0, in_overlap t0 ov
                     && negb (in_raw t0 (seen ++ take ii (t :: ts)))) ∘ S) ts
            = imap (λ ii t0, in_overlap t0 ov
                     && negb (in_raw t0 ((seen ++ [t]) ++ take ii ts))) ts) as ->.
    { apply imap_ext. intros i x _. simpl. by rewrite <-(assoc_L (++)). }
    assert (valid_times (seen ++ [t]) = valid_times seen ++ valid_times [t])
      as Happ by apply omap_app.
    pose proof (IH (seen ++ [t])) as IH'. rewrite Happ in IH'. clear Happ.
    destruct t as [z|]; simpl.
    + unfold valid_times at 1. simpl.
      change (omap id ts) with (valid_times ts).
      change (valid_times [Some z]) with [z] in IH'.
      destruct (decide (z ∈ ov)) as [Hov|Hov];
      [destruct (decide (Some z ∈ seen)) as [Hs|Hs]|].
      * rewrite bool_decide_true, (bool_decide_true (Some z ∈ seen)) by done.
        simpl. rewrite IH'. f_equal.
        assert (z ∈ valid_times seen)
          by (apply list_elem_of_omap; by exists (Some z)).
        set_solver.
      * rewrite bool_decide_true, (bool_decide_false (Some z ∈ seen)) by done.
        simpl. rewrite IH'.
        assert (z ∉ valid_times seen).
        { intros ([z'|] & ? & ?)%list_elem_of_omap; simplify_eq/=. done. }
        rewrite <-Nat.add_1_l.
        rewrite <-(size_singleton (C := gset Z) z), <-size_union by set_solver.
        f_equal. apply set_eq. intros y. destruct (decide (y = z)); set_solver.
      * rewrite bool_decide_false by done. simpl.
        rewrite IH'. f_equal. set_solver.
    + rewrite IH'. f_equal.
      change (valid_times [None]) with (@nil Z). unfold valid_times. simpl.
      by rewrite app_nil_r.
Qed.

Lemma selection_count ov ts :
  count_true (selection_mask ov ts)
  = size (list_to_set (valid_times ts) ∩ list_to_set ov : gset Z).
Proof.
  pose proof (selection_count_from ov [] ts) as H. simpl in H.
  unfold selection_mask. rewrite H. f_equal. set_solver.
Qed.

Section alignment.
Variable allts : gmap Z (list instant).

Lemma lens_ok_insert fs id m ts :
  lens_ok allts fs → allts !! id = Some ts → length m = length ts →
  lens_ok allts (<[id := m]> fs).
Proof.
  intros Hok Hts Hlen id' m'. rewrite lookup_insert.
  case_decide; [|by apply Hok]. intros; simplify_eq. eauto.
Qed.

Lemma overlap_body_KeyError st i r e :
  overlap_body allts st i r = inl e → e = KeyError.
Proof.
  destruct st as [ov fs]. unfold overlap_body.
  destruct (allts !! reach_id r); [|congruence]. by case_decide.
Qed.

Lemma overlap_loop_KeyError rs i st r :
  r ∈ rs → allts !! reach_id r = None →
  for_enumerate_exn (overlap_body allts) i rs st = inl KeyError.
Proof.
  intros Hr Hnone. revert i st.
  induction rs as [|r0 rs IH]; intros i st; [by apply elem_of_nil in Hr|].
  simpl. destruct (overlap_body allts st i r0) as [e|st'] eqn:Hb.
  - by apply overlap_body_KeyError in Hb as ->.
  - apply elem_of_cons in Hr as [->|Hr]; [|by apply IH].
    destruct st as [ov fs]. unfold overlap_body in Hb. by rewrite Hnone in Hb.
Qed.

Lemma overlap_loop_tail rest i ov fs :
  i ≠ 0 → Forall (λ r, is_Some (allts !! reach_id r)) rest →
  lens_ok allts fs →
  ∃ ov' fs',
    for_enumerate_exn (overlap_body allts) i rest (ov, fs) = inr (ov', fs')
    ∧ list_to_set ov' = foldl (λ s r, s ∩ cand allts r) (list_to_set ov) rest
    ∧ (rest ≠ [] → NoDup ov')
    ∧ (rest = [] → ov' = ov)
    ∧ lens_ok allts fs'
    ∧ (∀ id, is_Some (fs !! id) ∨ id ∈ reach_id <$> rest →
             is_Some (fs' !! id)).
Proof.
  intros Hi Hall. revert i ov fs Hi.
  induction Hall as [|r rest [ts Hts] _ IH]; intros i ov fs Hi Hok.
  - exists ov, fs. simpl. split_and!; try done. intros id [?|?]; [done|].
    set_solver.
  - simpl. unfold overlap_body at 1. rewrite Hts, decide_False by done.
    set (ov1 := set_intersection ov (valid_times ts)).
    set (m := for_enumerate _ 0 ts _).
    assert (length m = length ts) as Hm.
    { unfold m. rewrite for_enumerate_length, ?length_replicate; [done|].
      intros m' j t. case_match; [apply length_insert|done]. }
    destruct (IH (S i) ov1 (<[reach_id r := m]> fs)) as
      (ov' & fs' & Hrun & Hset & Hnd & Hnil & Hok' & Hdom);
      [done|by eapply lens_ok_insert|].
    exists ov', fs'. split_and!; try done.
    + rewrite Hset. f_equal. unfold ov1, set_intersection.
      rewrite list_to_set_elements_L. unfold cand, raw_times.
      by rewrite Hts.
    + intros _. destruct rest as [|r' rest].
      * rewrite Hnil by done. apply NoDup_elements.
      * by apply Hnd.
    + intros id Hid. apply Hdom. rewrite ?fmap_cons, elem_of_cons in Hid.
      destruct (decide (id = reach_id r)) as [->|Hne].
      * left. rewrite lookup_insert_eq. eauto.
      * rewrite lookup_insert_ne by done. naive_solver.
Qed.

Lemma overlap_loop rs :
  Forall (λ r, is_Some (allts !! reach_id r)) rs →
  ∃ ov fs,
    for_enumerate_exn (overlap_body allts) 0 rs ([], ∅) = inr (ov, fs)
    ∧ list_to_set ov = overlap_of allts rs
    ∧ (∀ r, rs = [r] → ov = valid_times (raw_times allts r))
    ∧ (2 ≤ length rs → NoDup ov)
    ∧ lens_ok allts fs
    ∧ (∀ r, r ∈ rs → is_Some (fs !! reach_id r)).
Proof.
  intros Hall. destruct Hall as [|r rest [ts Hts] Hall].
  - exists [], ∅. simpl. split_and!; try done.
    + intros; lia.
    + intros r []%elem_of_nil.
  - simpl. unfold overlap_body at 1. rewrite Hts. simpl.
    destruct (overlap_loop_tail rest 1 (valid_times ts)
                (<[reach_id r := replicate (length ts) true]> ∅))
      as (ov & fs & Hrun & Hset & Hnd & Hnil & Hok & Hdom); [done..| |].
    { eapply lens_ok_insert; [done|done|by rewrite length_replicate]. }
    exists ov, fs. split_and!; try done.
    + rewrite Hset. unfold cand, raw_times. by rewrite Hts.
    + intros r' [= -> ->]. unfold raw_times. rewrite Hts. by apply Hnil.
    + intros Hlen. apply Hnd. destruct rest; simpl in *; [lia|done].
    + intros r' Hr'. apply Hdom. apply elem_of_cons in Hr' as [->|Hr'].
      * left. rewrite lookup_insert_eq. eauto.
      * right. by apply list_elem_of_fmap_2.
Qed.

Lemma fix_loop ov rs i fs :
  Forall (λ r, is_Some (allts !! reach_id r)) rs →
  lens_ok allts fs →
  (∀ r, r ∈ rs → is_Some (fs !! reach_id r)) →
  ∃ fs',
    for_enumerate_exn (fix_body allts ov) i rs fs = inr fs'
    ∧ (∀ r, r ∈ rs →
         fs' !! reach_id r = Some (selection_mask ov (raw_times allts r)))
    ∧ (∀ id, id ∉ reach_id <$> rs → fs' !! id = fs !! id).
Proof.
  intros Hall. revert i fs.
  induction Hall as [|r rs [ts Hts] _ IH]; intros i fs Hok Hdom.
  - exists fs. simpl. split_and!; try done. intros r []%elem_of_nil.
  - destruct (Hdom r) as [m Hm]; [by left|].
    destruct (Hok _ _ Hm) as (ts' & Hts' & Hlen). simplify_eq.
    simpl. unfold fix_body at 1. rewrite Hts, Hm.
    rewrite fix_mask_spec by done.
    set (fs1 := <[reach_id r := selection_mask ov ts]> fs).
    destruct (IH (S i) fs1) as (fs' & Hrun & Hmask & Hother).
    { eapply lens_ok_insert; [done..|apply selection_mask_length]. }
    { intros r' Hr'. unfold fs1. rewrite lookup_insert. case_decide; [eauto|].
      apply Hdom. by right. }
    exists fs'. split_and!; [done|..].
    + intros r' [->|Hr']%elem_of_cons; [|by apply Hmask].
      destruct (decide (reach_id r ∈ reach_id <$> rs)) as [Hin|Hnin].
      * apply list_elem_of_fmap in Hin as (r' & Hid & Hr').
        rewrite Hid. rewrite (Hmask r' Hr'). unfold raw_times.
        by rewrite <-Hid.
      * rewrite Hother by done. unfold fs1. rewrite lookup_insert_eq.
        unfold raw_times. by rewrite Hts.
    + intros id Hid. rewrite ?fmap_cons, not_elem_of_cons in Hid.
      destruct Hid as [Hne Hid]. rewrite Hother by done.
      unfold fs1. by rewrite lookup_insert_ne.
Qed.
End alignment.

Lemma py_sort_perm l : py_sort l ≡ₚ l.
Proof. apply merge_sort_Permutation. Qed.

Lemma py_sort_sorted l : Sorted Z.le (py_sort l).
Proof. apply Sorted_merge_sort. intros x y. lia. Qed.

Lemma py_sort_length l : length (py_sort l) = length l.
Proof. by rewrite py_sort_perm. Qed.

(** What a successful alignment returns. *)
Lemma time_alignment_spec rs al :
  time_alignment rs = inr al →
  let allts := extract_times rs in
  Forall (λ r, is_Some (allts !! reach_id r)) rs
  ∧ a_nt al = length (a_overlap_ts al)
  ∧ Sorted Z.le (a_overlap_ts al)
  ∧ (∀ r, r ∈ rs →
       a_overlap_fs al !! reach_id r
       = Some (selection_mask (a_overlap_ts al) (raw_times allts r)))
  ∧ list_to_set (a_overlap_ts al) = overlap_of allts rs
  ∧ (∀ r, rs = [r] → a_overlap_ts al ≡ₚ valid_times (raw_times allts r))
  ∧ (2 ≤ length rs → NoDup (a_overlap_ts al)).
Proof.
  intros Hal allts.
  assert (Forall (λ r, is_Some (allts !! reach_id r)) rs) as Hall.
  { apply Forall_forall. intros r Hr.
    destruct (allts !! reach_id r) eqn:Hl; [eauto|].
    unfold time_alignment in Hal. fold allts in Hal.
    by rewrite (overlap_loop_KeyError allts rs 0 _ r Hr Hl) in Hal. }
  destruct (overlap_loop allts rs Hall)
    as (ov & fs & Hrun & Hset & Hone & Hnd & Hok & Hdom).
  destruct (fix_loop allts ov rs 0 fs Hall Hok Hdom)
    as (fs' & Hfix & Hmask & _).
  unfold time_alignment in Hal. fold allts in Hal.
  rewrite Hrun, Hfix in Hal. simplify_eq/=.
  split_and!; try done.
  - apply py_sort_sorted.
  - intros r Hr. rewrite (Hmask r Hr). f_equal.
    apply selection_mask_perm. by rewrite py_sort_perm.
  - rewrite <-Hset. apply set_eq. intros z.
    by rewrite !elem_of_list_to_set, py_sort_perm.
  - intros r Hr. rewrite py_sort_perm. by rewrite (Hone r Hr).
  - intros Hlen. rewrite py_sort_perm. by apply Hnd.
Qed.

Lemma time_alignment_total rs :
  Forall (λ r, is_Some (extract_times rs !! reach_id r)) rs →
  ∃ al, time_alignment rs = inr al.
Proof.
  intros Hall.
  destruct (overlap_loop _ rs Hall)
    as (ov & fs & Hrun & Hset & Hone & Hnd & Hok & Hdom).
  destruct (fix_loop _ ov rs 0 fs Hall Hok Hdom) as (fs' & Hfix & _).
  unfold time_alignment. rewrite Hrun, Hfix. eauto.
Qed.

Lemma time_alignment_KeyError rs r :
  r ∈ rs → extract_times rs !! reach_id r = None →
  time_alignment rs = inl KeyError.
Proof.
  intros Hr Hl. unfold time_alignment.
  by rewrite (overlap_loop_KeyError _ rs 0 _ r Hr Hl).
Qed.

Lemma extract_times_other acc rs id :
  (∀ r, r ∈ rs → reach_id r ≠ id ∨ swot r = None) →
  foldl record_times acc rs !! id = acc !! id.
Proof.
  revert acc. induction rs as [|r rs IH]; intros acc Hrs; simpl; [done|].
  rewrite IH by (intros; apply Hrs; by right). unfold record_times.
  destruct (Hrs r) as [Hne| ->]; [by left| |done].
  destruct (swot r); [|done]. by rewrite lookup_insert_ne.
Qed.

Lemma extract_times_lookup rs r f :
  NoDup (reach_id <$> rs) → r ∈ rs → swot r = Some f →
  extract_times rs !! reach_id r = Some (time <$> f).
Proof.
  unfold extract_times. generalize (∅ : gmap Z (list instant)).
  induction rs as [|r0 rs IH]; intros acc Hnd Hr Hf;
    [by apply elem_of_nil in Hr|].
  rewrite fmap_cons in Hnd. apply NoDup_cons in Hnd as [Hr0 Hnd].
  simpl. apply elem_of_cons in Hr as [->|Hr].
  - rewrite extract_times_other.
    { unfold record_times. by rewrite Hf, lookup_insert_eq. }
    intros r' Hr'. left. intros Heq. apply Hr0. rewrite <-Heq.
    by apply list_elem_of_fmap_2.
  - by apply IH.
Qed.

Lemma extract_times_missing rs r :
  NoDup (reach_id <$> rs) → r ∈ rs → swot r = None →
  extract_times rs !! reach_id r = None.
Proof.
  intros Hnd Hr Hf. unfold extract_times.
  rewrite extract_times_other; [done|].
  intros r' Hr'. destruct (decide (reach_id r' = reach_id r)) as [Heq|]; [|by left].
  right. assert (r' = r) as ->; [|done].
  apply list_elem_of_lookup_1 in Hr as [i Hi], Hr' as [j Hj].
  assert (i = j) as ->; [|congruence].
  eapply NoDup_lookup; [exact Hnd|..]; rewrite list_lookup_fmap.
  - by rewrite Hi.
  - rewrite Hj. simpl. by rewrite Heq.
Qed.

Lemma well_formed_raw_times rs r :
  well_formed rs → r ∈ rs → raw_times (extract_times rs) r = reach_times r.
Proof.
  intros [Hnd Hall] Hr. rewrite Forall_forall in Hall.
  destruct (Hall r Hr) as [f Hf]. unfold raw_times, reach_times.
  by rewrite (extract_times_lookup rs r f), Hf.
Qed.

Lemma well_formed_lookups rs :
  well_formed rs →
  Forall (λ r, is_Some (extract_times rs !! reach_id r)) rs.
Proof.
  intros [Hnd Hall]. rewrite Forall_forall in *. intros r Hr.
  destruct (Hall r Hr) as [f Hf].
  rewrite (extract_times_lookup rs r f) by done. eauto.
Qed.

Lemma elem_of_foldl_inter {B} (g : B → gset Z) (s : gset Z) l z :
  z ∈ foldl (λ s r, s ∩ g r) s l ↔ z ∈ s ∧ ∀ r, r ∈ l → z ∈ g r.
Proof.
  revert s. induction l as [|r l IH]; intros s; simpl.
  - split; [|by intros []]. intros ?. split; [done|]. intros r []%elem_of_nil.
  - rewrite IH. set_solver.
Qed.

Lemma elem_of_common_instants rs z :
  z ∈ common_instants rs ↔ rs ≠ [] ∧ ∀ r, r ∈ rs → z ∈ valid_set r.
Proof.
  destruct rs as [|r rs]; simpl; [set_solver|].
  rewrite elem_of_foldl_inter. set_solver.
Qed.

Lemma overlap_of_common_instants rs :
  well_formed rs → overlap_of (extract_times rs) rs = common_instants rs.
Proof.
  intros Hwf. apply set_eq. intros z. rewrite elem_of_common_instants.
  destruct rs as [|r rs]; simpl; [set_solver|].
  rewrite elem_of_foldl_inter. unfold cand, valid_set.
  rewrite well_formed_raw_times by (done || by left). split.
  - intros [? Hrest]. split; [done|].
    intros r' [->|Hr']%elem_of_cons; [done|].
    rewrite <-(well_formed_raw_times (r :: rs)) by (done || by right). auto.
  - intros [_ Hall]. split; [apply Hall; by left|]. intros r' Hr'.
    rewrite (well_formed_raw_times (r :: rs)) by (done || by right).
    apply Hall. by right.
Qed.

Lemma size_list_to_set_le (l : list Z) :
  size (list_to_set l : gset Z) ≤ length l.
Proof.
  induction l as [|x l IH].
  - by rewrite list_to_set_nil, size_empty.
  - rewrite list_to_set_cons. simpl. destruct (decide (x ∈ l)).
    + replace ({[x]} ∪ list_to_set l) with (list_to_set l : gset Z)
        by set_solver.
      lia.
    + rewrite size_union, size_singleton by set_solver. lia.
Qed.

(** The guard of step 1.2.2 cannot fire for two reaches or more. *)
Lemma guard_counts_agree rs al r :
  time_alignment rs = inr al → 2 ≤ length rs → r ∈ rs →
  ∃ m, a_overlap_fs al !! reach_id r = Some m ∧ count_true m = a_nt al.
Proof.
  intros Hal Hlen Hr.
  destruct (time_alignment_spec rs al Hal)
    as (Hall & Hnt & _ & Hmask & Hset & _ & Hnd).
  eexists. split; [by apply Hmask|].
  rewrite selection_count, Hnt, <-(size_list_to_set (C := gset Z)) by auto.
  f_equal. apply set_eq. intros z. rewrite elem_of_intersection.
  split; [naive_solver|]. intros Hz. split; [|done].
  rewrite Hset in Hz. destruct rs as [|r0 rs]; [by apply elem_of_nil in Hr|].
  simpl in Hz. apply elem_of_foldl_inter in Hz as [Hz0 Hz].
  apply elem_of_cons in Hr as [->|Hr]; [done|by apply Hz].
Qed.

Lemma well_formed_alignment rs :
  well_formed rs → ∃ al, time_alignment rs = inr al.
Proof. intros Hwf. by apply time_alignment_total, well_formed_lookups. Qed.

Lemma common_instants_size_le rs al :
  well_formed rs → rs ≠ [] → time_alignment rs = inr al →
  size (common_instants rs) ≤ a_nt al.
Proof.
  intros Hwf Hne Hal.
  destruct (time_alignment_spec rs al Hal)
    as (_ & Hnt & _ & _ & Hset & _ & _).
  rewrite Hnt, <-overlap_of_common_instants, <-Hset by done.
  apply size_list_to_set_le.
Qed.

Lemma well_formed_remove l1 r l2 :
  well_formed (l1 ++ r :: l2) → well_formed (l1 ++ l2).
Proof.
  intros [Hnd Hall]. split.
  - rewrite fmap_app in *. rewrite fmap_cons in Hnd.
    apply NoDup_app in Hnd as (H1 & H12 & H2).
    apply NoDup_cons in H2 as [_ H2].
    apply NoDup_app. split_and!; [done| |done].
    intros x Hx Hx2. apply (H12 x Hx). by right.
  - apply Forall_app in Hall as [H1 H2]. apply Forall_cons in H2 as [_ H2].
    by apply Forall_app.
Qed.

(** Claim C2, amended (count of the time alignment).  For a reach set
    with distinct identifiers whose files exist, of two reaches or more
    (or of one reach without repeated instant), [nt] is the size of the
    deduplicated intersection of the per-reach sets of valid instants,
    and the sorted overlap lists that intersection without repetition;
    taking a reach away from the set can only grow or preserve the
    intersection and [nt]: it is adding a reach that can only shrink
    them. *)
Theorem alignment_count rs :
  well_formed rs → counted_once rs →
  ∃ al, time_alignment rs = inr al
    ∧ a_nt al = size (common_instants rs)
    ∧ a_nt al = length (a_overlap_ts al)
    ∧ Sorted Z.le (a_overlap_ts al)
    ∧ NoDup (a_overlap_ts al)
    ∧ (∀ z, z ∈ a_overlap_ts al ↔ z ∈ common_instants rs)
    ∧ (∀ l1 r l2, rs = l1 ++ r :: l2 → l1 ++ l2 ≠ [] →
         common_instants rs ⊆ common_instants (l1 ++ l2)
         ∧ ∃ al', time_alignment (l1 ++ l2) = inr al' ∧ a_nt al ≤ a_nt al').
Proof.
  intros Hwf Hlen. destruct (well_formed_alignment rs Hwf) as [al Hal].
  exists al. destruct (time_alignment_spec rs al Hal)
    as (_ & Hnt & Hsort & _ & Hset & Hone & Hnd).
  rewrite overlap_of_common_instants in Hset by done.
  assert (NoDup (a_overlap_ts al)) as Hnd'.
  { destruct Hlen as [Hlen|(r & -> & Hr)]; [by apply Hnd|].
    rewrite (Hone r eq_refl), well_formed_raw_times by (done || by left).
    done. }
  assert (a_nt al = size (common_instants rs)) as Hsize.
  { rewrite Hnt, <-Hset. symmetry. by apply size_list_to_set. }
  split_and!; auto.
  - intros z. by rewrite <-Hset, elem_of_list_to_set.
  - intros l1 r l2 -> Hne.
    assert (common_instants (l1 ++ r :: l2) ⊆ common_instants (l1 ++ l2))
      as Hsub.
    { intros z. rewrite !elem_of_common_instants. intros [_ Hz].
      split; [done|]. intros r' Hr'. apply Hz.
      rewrite elem_of_app in *. rewrite elem_of_cons. tauto. }
    split; [done|].
    pose proof (well_formed_remove _ _ _ Hwf) as Hwf'.
    destruct (well_formed_alignment _ Hwf') as [al' Hal'].
    exists al'. split; [done|]. rewrite Hsize.
    etrans; [by apply subseteq_size|]. by apply common_instants_size_le.
Qed.

Lemma rs_dup_well_formed : well_formed rs_dup.
Proof.
  split.
  - apply (bool_decide_unpack _). vm_compute. done.
  - repeat constructor; simpl; eauto.
Qed.

Lemma alignment_count_witness :
  ∃ al, time_alignment rs_dup = inr al ∧ a_nt al = 2
        ∧ NoDup (a_overlap_ts al).
Proof.
  destruct (alignment_count rs_dup rs_dup_well_formed)
    as (al & Hal & Hsz & _ & _ & Hnd & _).
  { left. simpl. lia. }
  exists al. split; [exact Hal|]. split; [|exact Hnd].
  rewrite Hsz. vm_compute. reflexivity.
Defined.

(** Claim C2 as stated fails: taking the third reach away from
    [rs_abc] makes the intersection and [nt] grow, from 1 to 2. *)
Lemma removing_reach_can_grow :
  ∃ al al',
    time_alignment rs_abc = inr al
    ∧ time_alignment (take 2 rs_abc) = inr al'
    ∧ a_nt al = 1 ∧ a_nt al' = 2
    ∧ ¬ (common_instants (take 2 rs_abc) ⊆ common_instants rs_abc)
    ∧ ¬ (a_nt al' ≤ a_nt al).
Proof.
  eexists _, _. split_and!; [vm_compute; reflexivity..| |simpl; lia].
  intros Hsub. specialize (Hsub 2%Z). revert Hsub. vm_compute.
  intros Hsub. specialize (Hsub eq_refl). discriminate.
Qed.

(** A single reach with a repeated instant: the repetitions are counted. *)
Lemma single_reach_counts_duplicates :
  ∃ al, time_alignment [reach_of_times 1 [Some 5; Some 5; Some 7]%Z] = inr al
        ∧ a_overlap_ts al = [5; 5; 7]%Z ∧ a_nt al = 3
        ∧ size (common_instants
                  [reach_of_times 1 [Some 5; Some 5; Some 7]%Z]) = 2.
Proof. eexists. split_and!; vm_compute; reflexivity. Qed.

(** Claim C3 (selection mask).  After the alignment, the mask of a
    reach has the length of the raw instants held for it, and it selects
    a position iff the instant there is defined, belongs to the overlap
    and occurs at no earlier position of that raw sequence. *)
Theorem selection_mask_correct rs al r ts :
  time_alignment rs = inr al → r ∈ rs →
  extract_times rs !! reach_id r = Some ts →
  ∃ mask,
    a_overlap_fs al !! reach_id r = Some mask
    ∧ length mask = length ts
    ∧ ∀ ii, mask !! ii = Some true
            ↔ ∃ z, ts !! ii = Some (Some z) ∧ z ∈ a_overlap_ts al
                   ∧ ∀ jj, jj < ii → ts !! jj ≠ Some (Some z).
Proof.
  intros Hal Hr Hts.
  destruct (time_alignment_spec rs al Hal) as (_ & _ & _ & Hmask & _).
  specialize (Hmask r Hr). unfold raw_times in Hmask. rewrite Hts in Hmask.
  simpl in Hmask. eexists. split_and!; [done|..].
  - apply selection_mask_length.
  - apply selection_mask_true.
Qed.

Lemma selection_mask_correct_witness :
  ∃ al mask,
    time_alignment rs_dup = inr al
    ∧ a_overlap_fs al !! 1%Z = Some mask
    ∧ length mask = 3
    ∧ (mask !! 1 = Some true
       ↔ ∃ z, [Some 5; Some 5; Some 7]%Z !! 1 = Some (Some z)
              ∧ z ∈ a_overlap_ts al
              ∧ ∀ jj, jj < 1 → [Some 5; Some 5; Some 7]%Z !! jj ≠ Some (Some z)).
Proof.
  destruct (time_alignment rs_dup) as [e|al] eqn:Hal;
    [vm_compute in Hal; discriminate|].
  destruct (selection_mask_correct rs_dup al
              (reach_of_times 1 [Some 5; Some 5; Some 7]%Z)
              [Some 5; Some 5; Some 7]%Z Hal)
    as (mask & Hm & Hlen & Hsel).
  - apply list_elem_of_lookup_2 with 0. reflexivity.
  - vm_compute. reflexivity.
  - exists al, mask. split; [reflexivity|]. split; [exact Hm|].
    split; [exact Hlen|apply Hsel].
Defined.

(** The masks of the example of the specification: raw instants
    [5, 5, 7] against the overlap {5, 7}. *)
Lemma selection_mask_example :
  ∃ al, time_alignment rs_dup = inr al
        ∧ a_overlap_ts al = [5; 7]%Z
        ∧ a_overlap_fs al !! 1%Z = Some [true; false; true]
        ∧ a_overlap_fs al !! 2%Z = Some [true; false; true; false].
Proof. eexists. split_and!; vm_compute; reflexivity. Qed.

(** The same for a reach of a set with distinct identifiers, over the
    instants of its own file. *)
Corollary selection_mask_of_file rs al r f :
  time_alignment rs = inr al → NoDup (reach_id <$> rs) → r ∈ rs →
  swot r = Some f →
  a_overlap_fs al !! reach_id r
  = Some (selection_mask (a_overlap_ts al) (time <$> f)).
Proof.
  intros Hal Hnd Hr Hf.
  destruct (time_alignment_spec rs al Hal) as (_ & _ & _ & Hmask & _).
  rewrite (Hmask r Hr). unfold raw_times.
  by rewrite (extract_times_lookup rs r f).
Qed.

(** ** Runs of [retrieve_obs] *)

(** The ways through the body of the loop of step 1.2. *)
Ltac read_reach_cases r al st :=
  unfold read_reach, set_quality, lift, tell, getitem_bool;
  destruct (swot r) as [f|];
  (destruct (a_overlap_fs al !! reach_id r) as [mask|]; simpl;
   [destruct (decide (count_true mask ≠ a_nt al)); simpl|]);
  rewrite ?length_fmap;
  try (destruct (decide (length f = length mask)); simpl;
       [destruct (ls_obs st) as [obs|]; simpl;
        [destruct (mean_q r) as [q|]; simpl|]|]).

Lemma read_reach_events_ok nr al st i r :
  Forall loop_event_ok (events (read_reach nr al st i r)).
Proof.
  unfold events. read_reach_cases r al st;
    repeat first
      [ apply Forall_nil_2
      | apply Forall_cons; split;
        [simpl; first [exact I | split; [done | by (left + right)]]|] ].
Qed.

Lemma read_reach_continue nr al st i r log st' :
  read_reach nr al st i r = (log, inr (inr st')) →
  log = reach_events r
  ∧ ls_quality st' = (if isnan (mean_q r) then Invalid else ls_quality st)
  ∧ is_Some (ls_obs st')
  ∧ count_ok al r.
Proof.
  unfold reach_events, count_ok. read_reach_cases r al st;
    intros; simplify_eq/=; split_and!; eauto.
  all: exists mask; split; [done|];
    by destruct (decide (count_true mask = a_nt al)).
Qed.

Lemma read_reach_return nr al st i r log res :
  read_reach nr al st i r = (log, inr (inl res)) →
  Forall (λ e, is_channel_read e = false) log
  ∧ tiers log = [Invalid]
  ∧ (∀ q, Assign PriorGuard q ∉ log)
  ∧ SetQuality res = Invalid ∧ iDelete res = IntIndex 0 ∧ nDelete res = 0
  ∧ ¬ count_ok al r.
Proof.
  unfold count_ok. read_reach_cases r al st;
    intros; simplify_eq/=; split_and!;
    eauto using Forall_nil_2, Forall_cons_2.
  all: try (intros ? Hin; rewrite !elem_of_cons, elem_of_nil in Hin;
            naive_solver).
  all: by intros (m & ? & ?); simplify_eq.
Qed.

Lemma read_loop_cons nr al i r l st :
  read_loop nr al i (r :: l) st
  = match read_reach nr al st i r with
    | (log, inl e) => (log, inl e)
    | (log, inr (inl res)) => (log, inr (inl res))
    | (log, inr (inr st')) =>
        (log ++ (read_loop nr al (S i) l st').1,
         (read_loop nr al (S i) l st').2)
    end.
Proof.
  simpl. destruct (read_reach nr al st i r) as [log [e|[res|st']]]; simpl;
    try done.
  - unfold mbind, M_bind, mret, M_ret. by rewrite app_nil_r.
  - unfold mbind, M_bind. by destruct (read_loop nr al (S i) l st').
Qed.

Lemma read_loop_events_ok nr al i l st :
  Forall loop_event_ok (events (read_loop nr al i l st)).
Proof.
  revert i st. induction l as [|r l IH]; intros i st; [constructor|].
  rewrite read_loop_cons.
  pose proof (read_reach_events_ok nr al st i r) as Hr.
  destruct (read_reach nr al st i r) as [log [e|[res|st']]]; try done.
  unfold events in *. simpl in *. apply Forall_app. split; [done|apply IH].
Qed.

(** The loop ran to its end: every reach was read in full. *)
Lemma read_loop_continue nr al i l st log st' :
  read_loop nr al i l st = (log, inr (inr st')) →
  log = l ≫= reach_events
  ∧ ls_quality st'
    = (if existsb (λ r, isnan (mean_q r)) l then Invalid else ls_quality st)
  ∧ (l = [] → st' = st)
  ∧ (l ≠ [] → is_Some (ls_obs st'))
  ∧ Forall (count_ok al) l.
Proof.
  revert i st log. induction l as [|r l IH]; intros i st log.
  - simpl. intros [= <- <-]. by split_and!.
  - rewrite read_loop_cons.
    destruct (read_reach nr al st i r) as [log1 [e|[res|st1]]] eqn:Hr;
      try done.
    destruct (read_loop nr al (S i) l st1) as [log2 out2] eqn:Hl. simpl.
    intros [= <- ->].
    apply read_reach_continue in Hr as (-> & Hq1 & Hobs1 & Hok).
    apply IH in Hl as (-> & Hq & Hnil & Hobs & Hoks).
    split_and!; [done| |done| |by constructor].
    + simpl. rewrite Hq, Hq1. by destruct (isnan (mean_q r)), (existsb _ l).
    + intros _. destruct l as [|r' l]; [|by apply Hobs].
      by rewrite Hnil.
Qed.

(** The loop returned early: the guard of 1.2.2 fired at some reach,
    the reaches before it were read in full. *)
Lemma read_loop_return nr al i l st log res :
  read_loop nr al i l st = (log, inr (inl res)) →
  SetQuality res = Invalid ∧ iDelete res = IntIndex 0 ∧ nDelete res = 0
  ∧ ∃ l1 r l2 log',
      l = l1 ++ r :: l2
      ∧ log = (l1 ≫= reach_events) ++ log'
      ∧ Forall (λ e, is_channel_read e = false) log'
      ∧ (∀ q, Assign PriorGuard q ∉ log')
      ∧ tiers log' = [Invalid]
      ∧ ¬ count_ok al r.
Proof.
  revert i st log. induction l as [|r l IH]; intros i st log; [done|].
  rewrite read_loop_cons.
  destruct (read_reach nr al st i r) as [log1 [e|[res1|st1]]] eqn:Hr;
    try done.
  - intros [= <- <-].
    apply read_reach_return in Hr as (Hnr & Ht & Hnp & ? & ? & ? & Hc).
    split_and!; try done. by exists [], r, l, log1.
  - destruct (read_loop nr al (S i) l st1) as [log2 out2] eqn:Hl. simpl.
    intros [= <- ->].
    apply read_reach_continue in Hr as (-> & _).
    apply IH in Hl
      as (? & ? & ? & l1 & r' & l2 & log' & -> & -> & ? & ? & ? & ?).
    split_and!; try done. exists (r :: l1), r', l2, log'.
    split_and!; try done. by rewrite bind_cons, <-(assoc_L (++)).
Qed.

(** The ways through [retrieve_obs]. *)
Ltac retrieve_cases rs :=
  unfold retrieve_obs, retrieve_obs_with, set_quality, lift, tell;
  destruct (time_alignment rs) as [e|al] eqn:Hal; simpl;
  [|destruct (swot_file_exists rs) as [ex|] eqn:Hex; simpl;
    [match goal with
     | |- context [decide (a_nt al < ?b)] =>
         destruct (decide (a_nt al < b)) as [Hnt|Hnt]; simpl
     end;
     [|match goal with
       | |- context [read_loop ?nr al 0 rs ?st0] =>
           destruct (read_loop nr al 0 rs st0)
             as [ll [e|[res'|st]]] eqn:Hloop; simpl;
           [| |destruct (ls_obs st) as [obs|] eqn:Hobs; simpl;
               [match goal with
                | |- context [post_filter_quality ?a ?b ?n] =>
                    destruct (post_filter_quality a b n) as [q'|] eqn:Hpost;
                    simpl
                end|]]
       end]
    |]].

Local Arguments validity_filter : simpl never.

Lemma loop_event_ok_tail e : loop_event_ok e → tail_event_ok e.
Proof. destruct e; simpl; naive_solver. Qed.

Lemma time_events_spec rs e :
  e ∈ time_events rs → ∃ id, e = OpenSwot id ∨ e = ReadTime id.
Proof.
  unfold time_events. intros (r & He & _)%list_elem_of_bind.
  destruct (swot r); [|by apply elem_of_nil in He].
  rewrite !elem_of_cons, elem_of_nil in He. naive_solver.
Qed.

Lemma time_events_tiers rs : tiers (time_events rs) = [].
Proof.
  destruct (tiers (time_events rs)) as [|q l] eqn:Ht; [done|].
  assert (q ∈ tiers (time_events rs)) as Hq by (rewrite Ht; by left).
  apply list_elem_of_omap in Hq as (e & He & Hq).
  apply time_events_spec in He as [id [-> | ->]]; done.
Qed.

Lemma time_events_no_channel rs :
  Forall (λ e, is_channel_read e = false) (time_events rs).
Proof.
  apply Forall_forall. intros e [id [-> | ->]]%time_events_spec; done.
Qed.

Lemma post_filter_quality_4 n q :
  post_filter_quality ntmin ntmin_prior n = Some q → q = Invalid ∧ n < 4.
Proof.
  unfold post_filter_quality, ntmin, ntmin_prior.
  repeat case_decide; naive_solver.
Qed.

Lemma post_filter_quality_None a b n :
  post_filter_quality a b n = None → a ≤ n.
Proof. unfold post_filter_quality. repeat case_decide; try done. lia. Qed.

Ltac loop_ok :=
  match goal with
  | Hloop : read_loop ?nr ?al ?i ?rs ?st = (?ll, _) |- _ =>
      pose proof (read_loop_events_ok nr al i rs st) as Hok;
      rewrite Hloop in Hok; unfold events in Hok; simpl in Hok
  end.

(** The events of any run: the reads of the instants, then the initial
    tier, then nothing that assigns another tier than [Invalid]. *)
Lemma retrieve_obs_events rs :
  ∃ l, events (retrieve_obs rs) = time_events rs ++ l
       ∧ (l = [] ∨ ∃ l', l = Assign Initial (initial_quality nRmin (length rs)) :: l'
                          ∧ Forall tail_event_ok l').
Proof.
  unfold events. retrieve_cases rs; try loop_ok.
  all: try (exists []; by auto).
  all: eexists; (split; [done|]); right; eexists; (split; [done|]).
  all: rewrite ?app_nil_r.
  all: try apply Forall_app_2.
  all: try (eapply Forall_impl; [exact Hok|apply loop_event_ok_tail]).
  - by repeat constructor.
  - apply post_filter_quality_4 in Hpost as [-> _]. by repeat constructor.
Qed.

Lemma tiers_app l1 l2 : tiers (l1 ++ l2) = tiers l1 ++ tiers l2.
Proof. apply omap_app. Qed.

Lemma tiers_tail_ok l : Forall tail_event_ok l → Forall (λ q, q = Invalid) (tiers l).
Proof.
  induction 1 as [|e l He _ IH]; [constructor|].
  destruct e; simpl in *; try done. constructor; [tauto|done].
Qed.

Lemma tiers_reach_events r :
  tiers (reach_events r) = if isnan (mean_q r) then [Invalid] else [].
Proof. unfold reach_events. by destruct (isnan (mean_q r)). Qed.

Lemma last_tiers_reach_events q l :
  last (q :: tiers (l ≫= reach_events))
  = Some (if existsb (λ r, isnan (mean_q r)) l then Invalid else q).
Proof.
  revert q. induction l as [|r l IH]; intros q; [done|].
  rewrite bind_cons, tiers_app, tiers_reach_events. simpl existsb.
  destruct (isnan (mean_q r)); simpl orb.
  - change (q :: [Invalid] ++ ?t) with (q :: Invalid :: t).
    rewrite last_cons_cons, IH. by destruct (existsb _ l).
  - apply IH.
Qed.



Lemma all_invalid_sorted t :
  Forall (λ q, q = Invalid) t → StronglySorted tier_le t.
Proof.
  induction 1 as [|q t -> Ht IH]; constructor; [done|].
  eapply Forall_impl; [exact Ht|]. by intros q ->.
Qed.

(** Claim C4 (the tier never improves).  In every run of [retrieve_obs],
    whatever its outcome, the values assigned to [SetQuality] - at the
    initial classification, the pre-filter checkpoint, the consistency
    guard, the prior guard and the post-filter checkpoint - never
    decrease in the order Nominal, Degraded, Invalid; and the tier
    returned is the last one assigned. *)
Theorem quality_tier_monotone rs :
  StronglySorted tier_le (tiers (events (retrieve_obs rs)))
  ∧ ∀ res, outcome (retrieve_obs rs) = inr res →
           last (tiers (events (retrieve_obs rs))) = Some (SetQuality res).
Proof.
  split.
  - destruct (retrieve_obs_events rs) as (l & -> & Hl).
    rewrite tiers_app, time_events_tiers. simpl.
    destruct Hl as [->|(l' & -> & Hl')]; [constructor|].
    apply tiers_tail_ok in Hl'. simpl. constructor.
    + by apply all_invalid_sorted.
    + eapply Forall_impl; [exact Hl'|]. intros q ->. unfold tier_le.
      by destruct (initial_quality _ _).
  - unfold events, outcome. retrieve_cases rs; intros res [= <-].
    all: rewrite ?app_nil_r, tiers_app, time_events_tiers; simpl.
    + done.
    + apply read_loop_return in Hloop
        as (-> & _ & _ & l1 & r & l2 & log' & _ & -> & _ & _ & Ht & _).
      rewrite tiers_app, Ht, app_comm_cons. apply last_snoc.
    + rewrite tiers_app. simpl. rewrite app_comm_cons. apply last_snoc.
    + apply read_loop_continue in Hloop as (-> & -> & _).
      apply last_tiers_reach_events.
Qed.

Lemma quality_tier_monotone_witness :
  StronglySorted tier_le (tiers (events (retrieve_obs rs_nan_prior)))
  ∧ tiers (events (retrieve_obs rs_nan_prior)) = [Nominal; Invalid].
Proof.
  split; [apply (quality_tier_monotone rs_nan_prior)|].
  vm_compute. reflexivity.
Defined.

(** Claim C9 (no Degraded at the post-filter checkpoint).  With
    [ntmin = ntmin_prior = 4] the post-filter checkpoint never yields
    Degraded: a filtered count below [ntmin] yields Invalid, and no run
    of [retrieve_obs] assigns Degraded there; the branch exists all the
    same, and thresholds 5 and 4 would take it at a count of 4. *)
Theorem post_filter_never_degraded :
  (∀ n, post_filter_quality ntmin ntmin_prior n ≠ Some Degraded)
  ∧ (∀ n, n < ntmin → post_filter_quality ntmin ntmin_prior n = Some Invalid)
  ∧ (∀ rs, Assign PostFilter Degraded ∉ events (retrieve_obs rs))
  ∧ post_filter_quality 5 4 4 = Some Degraded.
Proof.
  split_and!; [| | |done].
  - intros n Hn. by apply post_filter_quality_4 in Hn as [? _].
  - intros n Hn. unfold post_filter_quality, ntmin, ntmin_prior in *.
    by rewrite !decide_True by done.
  - intros rs Hin. destruct (retrieve_obs_events rs) as (l & Hl & Hshape).
    rewrite Hl in Hin. apply elem_of_app in Hin as [Hin|Hin].
    + apply time_events_spec in Hin as [id [?|?]]; done.
    + destruct Hshape as [->|(l' & -> & Hl')]; [by apply elem_of_nil in Hin|].
      apply elem_of_cons in Hin as [?|Hin]; [done|].
      rewrite Forall_forall in Hl'. by destruct (Hl' _ Hin).
Qed.

Lemma post_filter_never_degraded_witness :
  post_filter_quality ntmin ntmin_prior 3 = Some Invalid
  ∧ Assign PostFilter Degraded ∉ events (retrieve_obs rs_nan_prior).
Proof.
  destruct post_filter_never_degraded as (_ & H2 & H3 & _).
  split; [apply H2; unfold ntmin; lia|apply H3].
Defined.

(** With thresholds that differ the branch is taken, and it overwrites
    the [Invalid] of the prior guard. *)
Lemma post_filter_would_overwrite :
  tiers (events (retrieve_obs_with 5 4 3 rs_nan_prior))
  = [Nominal; Invalid; Degraded].
Proof. vm_compute. reflexivity. Qed.

Lemma swot_file_exists_cons r rs : is_Some (swot_file_exists (r :: rs)).
Proof.
  unfold swot_file_exists.
  destruct (last (r :: rs)) eqn:Hl; [by eexists|].
  by apply last_None in Hl.
Qed.

(** Claim C7 (pre-filter short circuit).  When the aligned count of a
    reach set is below [ntmin_prior = 4], [retrieve_obs] returns at once:
    the tier is Invalid, the ledger is the integer 0 with count 0, and
    the run has read no elevation, width, slope, prior or reference
    data. *)
Theorem pre_filter_short_circuit rs al :
  rs ≠ [] → time_alignment rs = inr al → a_nt al < ntmin_prior →
  ∃ log res,
    retrieve_obs rs = (log, inr res)
    ∧ SetQuality res = Invalid
    ∧ iDelete res = IntIndex 0 ∧ nDelete res = 0
    ∧ nt (DAll res) = a_nt al
    ∧ log = time_events rs
            ++ [Assign Initial (initial_quality nRmin (length rs));
                Assign PreFilter Invalid]
    ∧ Forall (λ e, is_channel_read e = false) log.
Proof.
  intros Hne Hal Hnt. destruct rs as [|r rs]; [done|].
  destruct (swot_file_exists_cons r rs) as [ex Hex].
  unfold retrieve_obs, retrieve_obs_with, set_quality, lift, tell.
  rewrite Hal, Hex. simpl. rewrite decide_True by done. simpl.
  eexists _, _. split_and!; try done.
  apply Forall_app. split; [|by repeat constructor].
  apply (time_events_no_channel (r :: rs)).
Qed.

Lemma pre_filter_short_circuit_witness :
  ∃ log res,
    retrieve_obs rs_short = (log, inr res)
    ∧ SetQuality res = Invalid
    ∧ iDelete res = IntIndex 0 ∧ nDelete res = 0
    ∧ nt (DAll res) = 3
    ∧ Forall (λ e, is_channel_read e = false) log.
Proof.
  destruct (time_alignment rs_short) as [e|al] eqn:Hal;
    [vm_compute in Hal; discriminate|].
  assert (a_nt al = 3) as Hnt by (vm_compute in Hal; by simplify_eq).
  destruct (pre_filter_short_circuit rs_short al)
    as (log & res & Hrun & Hq & Hi & Hn & Hnt' & _ & Hreads).
  - discriminate.
  - exact Hal.
  - rewrite Hnt. unfold ntmin_prior. lia.
  - exists log, res. rewrite Hnt in Hnt'. by split_and!.
Defined.

Lemma elem_of_log rs q0 X e :
  (∀ id, e ≠ OpenSwot id) → (∀ id, e ≠ ReadTime id) → e ≠ Assign Initial q0 →
  e ∈ time_events rs ++ Assign Initial q0 :: X ↔ e ∈ X.
Proof.
  intros H1 H2 H3. rewrite elem_of_app, elem_of_cons. split; [|auto].
  intros [Hin|[?|?]]; try done.
  apply time_events_spec in Hin as [id [?|?]]; naive_solver.
Qed.

Lemma initial_quality_valid c n : initial_quality c n ≠ Invalid.
Proof. unfold initial_quality. by case_decide. Qed.




(** Claim C5 (missing input).  The claim wants a reach whose SWOT file
    is absent to contribute no instant without any exception.  The code
    leaves such a reach out of the dict [allts] and then looks it up:
    [retrieve_obs] raises [KeyError], for a set made of that reach alone
    and for a set where it comes first. *)
Theorem missing_input_raises :
  retrieve_obs [Reach 1 None (val 9)] = ([], inl KeyError)
  ∧ retrieve_obs rs_missing_first
    = ([OpenSwot 2; ReadTime 2], inl KeyError).
Proof. split; vm_compute; reflexivity. Qed.

(** The same for any set with distinct identifiers. *)
Lemma missing_file_KeyError rs r :
  NoDup (reach_id <$> rs) → r ∈ rs → swot r = None →
  retrieve_obs rs = (time_events rs, inl KeyError).
Proof.
  intros Hnd Hr Hf.
  unfold retrieve_obs, retrieve_obs_with, lift, tell.
  rewrite (time_alignment_KeyError rs r Hr) by by apply extract_times_missing.
  simpl. by rewrite app_nil_r.
Qed.

(** * Further properties *)

(** ** The state of the loop of step 1.2 *)

Lemma read_reach_state nr al st i r log st' :
  read_reach nr al st i r = (log, inr (inr st')) →
  ∃ f mask obs,
    swot r = Some f
    ∧ a_overlap_fs al !! reach_id r = Some mask
    ∧ length f = length mask
    ∧ count_true mask = a_nt al
    ∧ ls_obs st = Some obs
    ∧ ls_obs st'
      = Some {| obs_h := <[i := bool_index (wse <$> f) mask]> (obs_h obs);
                obs_w := <[i := bool_index (width <$> f) mask]> (obs_w obs);
                obs_S := <[i := bool_index (slope2 <$> f) mask]> (obs_S obs) |}
    ∧ ls_Qbar st' = <[i := mean_q r]> (ls_Qbar st).
Proof.
  read_reach_cases r al st; intros; simplify_eq/=.
  all: exists f, mask, obs; split_and!; try done.
  all: by destruct (decide (count_true mask = a_nt al)).
Qed.

(** The state after the loop of step 1.2 over [l] from index [i]: the
    rows [i], [i+1], ... were written, the others were left alone. *)
Lemma read_loop_state nr al i l st log st' obs :
  read_loop nr al i l st = (log, inr (inr st')) →
  ls_obs st = Some obs →
  ∃ obs',
    ls_obs st' = Some obs'
    ∧ length (obs_h obs') = length (obs_h obs)
    ∧ length (obs_w obs') = length (obs_w obs)
    ∧ length (obs_S obs') = length (obs_S obs)
    ∧ length (ls_Qbar st') = length (ls_Qbar st)
    ∧ (∀ j, j < i →
         obs_h obs' !! j = obs_h obs !! j ∧ obs_w obs' !! j = obs_w obs !! j
         ∧ obs_S obs' !! j = obs_S obs !! j
         ∧ ls_Qbar st' !! j = ls_Qbar st !! j)
    ∧ (∀ k r, l !! k = Some r →
         ∃ f mask,
           swot r = Some f
           ∧ a_overlap_fs al !! reach_id r = Some mask
           ∧ length f = length mask
           ∧ count_true mask = a_nt al
           ∧ (i + k < length (obs_h obs) →
                obs_h obs' !! (i + k) = Some (bool_index (wse <$> f) mask))
           ∧ (i + k < length (obs_w obs) →
                obs_w obs' !! (i + k) = Some (bool_index (width <$> f) mask))
           ∧ (i + k < length (obs_S obs) →
                obs_S obs' !! (i + k) = Some (bool_index (slope2 <$> f) mask))
           ∧ (i + k < length (ls_Qbar st) →
                ls_Qbar st' !! (i + k) = Some (mean_q r))).
Proof.
  revert i st log obs. induction l as [|r l IH]; intros i st log obs.
  - simpl. intros [= <- <-] Hobs. exists obs. split_and!; try done.
  - rewrite read_loop_cons.
    destruct (read_reach nr al st i r) as [log1 [e|[res|st1]]] eqn:Hr;
      try done.
    destruct (read_loop nr al (S i) l st1) as [log2 out2] eqn:Hl. simpl.
    intros [= <- ->] Hobs.
    apply read_reach_state in Hr
      as (f & mask & obs0 & Hf & Hm & Hlen & Hcnt & Hobs0 & Hobs1 & HQ1).
    rewrite Hobs in Hobs0. injection Hobs0 as <-.
    destruct (IH _ _ _ _ Hl Hobs1)
      as (obs' & Hobs' & Hh & Hw & HS & HQ & Hbefore & Hrows).
    simpl in Hh, Hw, HS. rewrite length_insert in Hh, Hw, HS.
    rewrite HQ1, length_insert in HQ.
    exists obs'. split_and!; try done.
    + intros j Hj. destruct (Hbefore j) as (-> & -> & -> & ->); [lia|].
      simpl. rewrite HQ1, !list_lookup_insert_ne by lia. done.
    + intros [|k] r' Hk; simpl in Hk.
      * injection Hk as <-. exists f, mask.
        destruct (Hbefore i) as (Hbh & Hbw & HbS & HbQ); [lia|].
        rewrite Nat.add_0_r, Hbh, Hbw, HbS, HbQ, HQ1. simpl.
        split_and!; try done; intros ?; by rewrite list_lookup_insert_eq.
      * destruct (Hrows k r' Hk)
          as (f' & mask' & ? & ? & ? & ? & Hrh & Hrw & HrS & HrQ).
        exists f', mask'. simpl in Hrh, Hrw, HrS.
        rewrite length_insert in Hrh, Hrw, HrS.
        rewrite HQ1, length_insert in HrQ.
        replace (i + S k) with (S i + k) by lia.
        split_and!; done.
Qed.

Lemma read_loop_needs_obs nr al i l st log st' :
  read_loop nr al i l st = (log, inr (inr st')) → l ≠ [] →
  is_Some (ls_obs st).
Proof.
  destruct l as [|r l]; [done|]. intros Hl _. rewrite read_loop_cons in Hl.
  destruct (read_reach nr al st i r) as [log1 [e|[res|st1]]] eqn:Hr;
    try done.
  apply read_reach_state in Hr as (? & ? & ? & ? & ? & ? & ? & ? & ?). eauto.
Qed.

Lemma aggregated_shaped al rs obs :
  aggregated al rs obs →
  length (obs_h obs) = length rs → length (obs_w obs) = length rs →
  length (obs_S obs) = length rs →
  obs_shaped (length rs) (a_nt al) obs.
Proof.
  intros Hagg Hh Hw HS.
  assert (∀ (chan : swot_row → float) f mask,
            length f = length mask → count_true mask = a_nt al →
            length (bool_index (chan <$> f) mask) = a_nt al) as Hrow.
  { intros chan f mask Hlen <-. apply length_bool_index.
    by rewrite length_fmap. }
  repeat split; try done; apply Forall_lookup; intros i row Hi.
  - destruct (lookup_lt_is_Some_2 rs i) as [r Hr];
      [rewrite <-Hh; eauto using lookup_lt_Some|].
    destruct (Hagg i r Hr) as (f & mask & _ & _ & ? & ? & Hrh & _).
    rewrite Hrh in Hi. injection Hi as <-. by apply Hrow.
  - destruct (lookup_lt_is_Some_2 rs i) as [r Hr];
      [rewrite <-Hw; eauto using lookup_lt_Some|].
    destruct (Hagg i r Hr) as (f & mask & _ & _ & ? & ? & _ & Hrw & _).
    rewrite Hrw in Hi. injection Hi as <-. by apply Hrow.
  - destruct (lookup_lt_is_Some_2 rs i) as [r Hr];
      [rewrite <-HS; eauto using lookup_lt_Some|].
    destruct (Hagg i r Hr) as (f & mask & _ & _ & ? & ? & _ & _ & HrS).
    rewrite HrS in Hi. injection Hi as <-. by apply Hrow.
Qed.

(** The loop of step 1.2 over the whole list, from fresh matrices. *)
Lemma read_loop_whole rs al q0 (ex : bool) log st :
  read_loop (length rs) al 0 rs
    (LoopState q0
       (if ex then Some (new_Observations (length rs) (a_nt al)) else None)
       (replicate (length rs) (Some 0%Q))) = (log, inr (inr st)) →
  rs ≠ [] →
  ∃ obs,
    ex = true
    ∧ ls_obs st = Some obs
    ∧ aggregated al rs obs
    ∧ obs_shaped (length rs) (a_nt al) obs
    ∧ ls_Qbar st = mean_q <$> rs
    ∧ ls_quality st
      = (if existsb (λ r, isnan (mean_q r)) rs then Invalid else q0).
Proof.
  intros Hloop Hne.
  destruct (read_loop_needs_obs _ _ _ _ _ _ _ Hloop Hne) as [obs0 Hobs0].
  simpl in Hobs0. destruct ex; [|done]. injection Hobs0 as <-.
  destruct (read_loop_state _ _ _ _ _ _ _ _ Hloop eq_refl)
    as (obs & Hobs & Hh & Hw & HS & HQ & _ & Hrows).
  destruct (read_loop_continue _ _ _ _ _ _ _ Hloop) as (_ & Hq & _).
  unfold new_Observations in Hh, Hw, HS, Hrows.
  cbn [obs_h obs_w obs_S ls_Qbar ls_quality] in Hh, Hw, HS, HQ, Hrows, Hq.
  rewrite length_replicate in Hh, Hw, HS. rewrite length_replicate in HQ.
  assert (aggregated al rs obs) as Hagg.
  { intros i r Hi. pose proof (lookup_lt_Some _ _ _ Hi) as Hlt.
    destruct (Hrows i r Hi) as (f & mask & ? & ? & ? & ? & Hrh & Hrw & HrS & _).
    rewrite length_replicate in Hrh, Hrw, HrS.
    exists f, mask. split_and!; auto. }
  exists obs. split_and!; try done.
  - by apply aggregated_shaped.
  - apply list_eq. intros i. rewrite list_lookup_fmap.
    destruct (rs !! i) as [r|] eqn:Hi; simpl.
    + pose proof (lookup_lt_Some _ _ _ Hi) as Hlt.
      destruct (Hrows i r Hi) as (f & mask & _ & _ & _ & _ & _ & _ & _ & HrQ).
      rewrite length_replicate in HrQ. auto.
    + apply lookup_ge_None. apply lookup_ge_None in Hi. lia.
Qed.

(** A run that returns another tier than [Invalid] went through the
    whole of [retrieve_obs]. *)
Lemma retrieve_obs_valid_run rs log res :
  retrieve_obs rs = (log, inr res) → SetQuality res ≠ Invalid →
  ∃ al obs,
    time_alignment rs = inr al
    ∧ rs ≠ []
    ∧ aggregated al rs obs
    ∧ obs_shaped (length rs) (a_nt al) obs
    ∧ existsb (λ r, isnan (mean_q r)) rs = false
    ∧ ntmin ≤ f_nt (validity_filter (a_nt al) obs (talli_of (a_overlap_ts al)))
    ∧ res
      = (let flt := validity_filter (a_nt al) obs (talli_of (a_overlap_ts al)) in
         {| Qbar := mean_q <$> rs;
            iDelete := WhereIndex (f_iDelete flt);
            nDelete := f_nDelete flt;
            SetQuality := initial_quality nRmin (length rs);
            DAll := MkDomain (length rs) (f_nt flt) (Some (f_talli flt))
                             (Some (dt_of (f_talli flt)));
            AllObs := Some (f_obs flt);
            overlap_ts := a_overlap_ts al |}).
Proof.
  assert (rs = [] ∨ rs ≠ []) as [->|Hne] by (destruct rs; auto); [done|].
  revert Hne. retrieve_cases rs; intros Hne; try done.
  - by intros [= <- <-].
  - intros [= <- <-] Hq.
    by apply read_loop_return in Hloop as (? & _).
  - intros [= <- <-] Hq. simpl in Hq.
    by apply post_filter_quality_4 in Hpost as [-> _].
  - intros [= <- <-] Hq. simpl in Hq.
    apply read_loop_whole in Hloop
      as (obs' & -> & Hobs' & Hagg & Hsh & HQ & Hqual); [|done].
    rewrite Hobs in Hobs'. injection Hobs' as <-.
    rewrite Hqual in Hq |- *. rewrite HQ.
    destruct (existsb _ rs) eqn:Hnan; [done|].
    exists al, obs. split_and!; try done.
    by apply post_filter_quality_None in Hpost.
Qed.

(** ** The consistency guard *)

Lemma read_reach_consistency nr al st i r t :
  Assign Consistency t ∈ events (read_reach nr al st i r) → ¬ count_ok al r.
Proof.
  unfold events, count_ok. read_reach_cases r al st;
    rewrite ?elem_of_cons, ?elem_of_nil; try naive_solver.
Qed.

Lemma read_loop_consistency nr al i l st q :
  Assign Consistency q ∈ events (read_loop nr al i l st) →
  ∃ r, r ∈ l ∧ ¬ count_ok al r.
Proof.
  revert i st. induction l as [|r l IH]; intros i st.
  - simpl. by intros ?%elem_of_nil.
  - rewrite read_loop_cons.
    pose proof (read_reach_consistency nr al st i r q) as Hr.
    destruct (read_reach nr al st i r) as [log [e|[res|st']]];
      unfold events in *; simpl in *.
    + intros Hin. exists r. split; [by left|auto].
    + intros Hin. exists r. split; [by left|auto].
    + intros [Hin|Hin]%elem_of_app.
      * exists r. split; [by left|auto].
      * destruct (IH _ _ Hin) as (r' & ? & ?). exists r'. split; [by right|done].
Qed.

(** X1.  For a set of two reaches or more the consistency guard of step
    1.2.2 never fires: no run of [retrieve_obs], whatever its outcome,
    assigns [SetQuality] there. *)
Theorem consistency_guard_unreachable rs q :
  2 ≤ length rs → Assign Consistency q ∉ events (retrieve_obs rs).
Proof.
  intros Hlen. unfold events. retrieve_cases rs;
    rewrite ?app_nil_r, ?elem_of_log by done.
  all: try (by intros [id [?|?]]%time_events_spec).
  all: try (rewrite elem_of_app, !elem_of_cons, elem_of_nil).
  all: try (rewrite !elem_of_cons, elem_of_nil).
  all: try (intros Hin;
            assert (Assign Consistency q ∈ ll) as Hll by naive_solver;
            clear Hin).
  all: try naive_solver.
  all: match type of Hloop with
       | read_loop ?nr _ _ _ ?st0 = _ =>
           pose proof (read_loop_consistency nr al 0 rs st0 q) as Hc
       end;
    rewrite Hloop in Hc; destruct (Hc Hll) as (r & Hr & Hno);
    apply Hno; by apply (guard_counts_agree rs).
Qed.

Lemma consistency_guard_unreachable_witness :
  (Assign Consistency Invalid ∉ events (retrieve_obs rs_gap))
  ∧ (ReadSword 3 ∈ events (retrieve_obs rs_gap)).
Proof.
  split.
  - apply consistency_guard_unreachable. simpl. lia.
  - apply (bool_decide_unpack _). vm_compute. reflexivity.
Defined.

(** ** The exceptions of [retrieve_obs] *)

Lemma not_Forall_file rs :
  ¬ Forall (λ r, is_Some (swot r)) rs → ∃ r, r ∈ rs ∧ swot r = None.
Proof.
  induction rs as [|r rs IH]; intros Hno; [by destruct Hno|].
  destruct (swot r) as [f|] eqn:Hf.
  - destruct IH as (r' & ? & ?).
    + intros Hall. apply Hno. constructor; [by rewrite Hf|done].
    + exists r'. split; [by right|done].
  - exists r. split; [by left|done].
Qed.

(** X2.  The missing files.  For a reach list with distinct
    identifiers, the alignment of lines 113-163 raises exactly when the
    SWOT file of some reach does not exist, and then a [KeyError];
    [retrieve_obs] then raises it after the instants of the other files
    were read and before anything else.  On the empty list
    [retrieve_obs] raises at the unbound [swot_file_exists].  When two
    entries share an identifier, the instants of the one file stand for
    both and a missing file goes unnoticed by the alignment. *)
Theorem missing_file_raises_iff rs :
  NoDup (reach_id <$> rs) →
  (rs = [] → retrieve_obs rs = ([], inl UnboundLocalError))
  ∧ (∀ r, r ∈ rs → swot r = None →
       retrieve_obs rs = (time_events rs, inl KeyError))
  ∧ ((∃ e, time_alignment rs = inl e) ↔ ∃ r, r ∈ rs ∧ swot r = None)
  ∧ (∀ e, time_alignment rs = inl e → e = KeyError)
  ∧ (∃ al, time_alignment
             [reach_of_times 1 [Some 5; Some 7]%Z; Reach 1 None None]
           = inr al).
Proof.
  intros Hnd.
  assert (∀ r, r ∈ rs → swot r = None → time_alignment rs = inl KeyError)
    as Hal.
  { intros r Hr Hnone. apply (time_alignment_KeyError rs r Hr).
    by apply extract_times_missing. }
  split_and!.
  - by intros ->.
  - intros r Hr Hnone.
    unfold retrieve_obs, retrieve_obs_with, lift, tell.
    rewrite (Hal r Hr Hnone). simpl. by rewrite app_nil_r.
  - split.
    + intros [e He].
      destruct (decide (Forall (λ r, is_Some (swot r)) rs)) as [Hall|Hno];
        [|by apply not_Forall_file].
      destruct (well_formed_alignment rs) as [al Hal']; [done|].
      by rewrite Hal' in He.
    + intros (r & Hr & Hnone). exists KeyError. by apply (Hal r).
  - intros e He.
    destruct (decide (Forall (λ r, is_Some (swot r)) rs)) as [Hall|Hno].
    + destruct (well_formed_alignment rs) as [al Hal']; [done|].
      by rewrite Hal' in He.
    + apply not_Forall_file in Hno as (r & Hr & Hnone).
      rewrite (Hal r Hr Hnone) in He. by injection He as <-.
  - vm_compute. by eexists.
Qed.

Lemma missing_file_raises_iff_witness :
  retrieve_obs rs_missing_first
  = (time_events rs_missing_first, inl KeyError)
  ∧ ((∃ e, time_alignment rs_missing_first = inl e)
     ↔ ∃ r, r ∈ rs_missing_first ∧ swot r = None).
Proof.
  destruct (missing_file_raises_iff rs_missing_first) as (_ & H & Hiff & _).
  - apply (bool_decide_unpack _). vm_compute. reflexivity.
  - split; [|exact Hiff].
    apply (H (Reach 1 None (val 9))); [|reflexivity].
    apply list_elem_of_lookup_2 with 0. reflexivity.
Defined.

(** ** What the estimator receives *)

Lemma StronglySorted_lt_NoDup (D : list nat) : StronglySorted lt D → NoDup D.
Proof.
  induction 1 as [|d D _ IH Hd]; constructor; [|done].
  intros Hin. rewrite Forall_forall in Hd. specialize (Hd _ Hin). lia.
Qed.

(** The ledger and the shapes after the validity filter. *)
Lemma validity_filter_shape nr nt AllObs talli :
  obs_shaped nr nt AllObs → length talli = nt →
  let flt := validity_filter nt AllObs talli in
  StronglySorted lt (f_iDelete flt)
  ∧ Forall (λ d, d < nt) (f_iDelete flt)
  ∧ f_nDelete flt = length (f_iDelete flt)
  ∧ f_nt flt + f_nDelete flt = nt
  ∧ obs_shaped nr (f_nt flt) (f_obs flt)
  ∧ length (f_talli flt) = f_nt flt.
Proof.
  intros Hs Ht flt.
  assert (StronglySorted lt (f_iDelete flt)) as Hsort
    by apply where_from_sorted.
  pose proof (StronglySorted_lt_NoDup _ Hsort) as Hnd.
  assert (Forall (λ d, d < nt) (f_iDelete flt)) as Hlt.
  { apply Forall_forall. intros d Hd.
    by apply (np_where_bad_columns nr) in Hd as [? _]. }
  assert (∀ (B : Type) (l : list B), length l = nt →
            length (retained (f_iDelete flt) l) + f_nDelete flt = nt) as Hlen.
  { intros B l Hl. pose proof (retained_length l _ Hnd) as Hr.
    rewrite Hl in Hr. specialize (Hr Hlt). simpl in *. lia. }
  assert (f_nt flt + f_nDelete flt = nt) as Hnt.
  { pose proof (where_from_length_le 0 (bad_columns nt AllObs)) as Hle.
    rewrite (bad_columns_length nr) in Hle by done.
    simpl. unfold np_where. lia. }
  assert (∀ M : list (list float), shaped nr nt M →
            shaped nr (f_nt flt) (np_delete_cols M (f_iDelete flt))) as HM.
  { intros M [HnM HF]. unfold np_delete_cols.
    split; [by rewrite length_fmap|].
    rewrite Forall_fmap. eapply Forall_impl; [exact HF|].
    intros row Hrow. unfold compose. rewrite np_delete_retained.
    specialize (Hlen _ row Hrow). lia. }
  destruct Hs as (Hh & Hw & HS).
  split_and!; try done.
  - split_and!; by apply HM.
  - specialize (Hlen _ talli Ht).
    change (f_talli flt) with (np_delete talli (f_iDelete flt)).
    rewrite np_delete_retained. lia.
Qed.

Lemma length_talli_of ov : length (talli_of ov) = length ov.
Proof. destruct ov; [done|]. unfold talli_of. by rewrite length_fmap. Qed.

Lemma length_dt_of talli : length (dt_of talli) = length talli - 1.
Proof.
  unfold dt_of. rewrite length_zip_with.
  destruct talli as [|a l]; [done|].
  cbn [tail length]. lia.
Qed.

Lemma existsb_isnan_false rs :
  existsb (λ r, isnan (mean_q r)) rs = false →
  Forall (λ q : float, isnan q = false) (mean_q <$> rs).
Proof.
  induction rs as [|r rs IH]; simpl; [constructor|].
  intros [? ?]%orb_false_elim. constructor; auto.
Qed.

(** X3.  What a run of [retrieve_obs] hands to the estimator when it
    returns another tier than Invalid: at least [ntmin] = 4 time steps;
    elevation, width and slope matrices of one row per reach and [nt]
    columns without any undefined reading; a defined prior for every
    reach, in the order of the list; [nt] elapsed times and [nt - 1]
    time deltas; the tier decided by the number of reaches alone; and a
    strictly ascending ledger of [nDelete] indices into the returned
    (unfiltered) instants, with [nt + nDelete] the number of these. *)
Theorem retrieve_obs_valid_contract rs log res :
  retrieve_obs rs = (log, inr res) → SetQuality res ≠ Invalid →
  ∃ obs t dt D,
    AllObs res = Some obs
    ∧ D_t (DAll res) = Some t
    ∧ D_dt (DAll res) = Some dt
    ∧ iDelete res = WhereIndex D
    ∧ nDelete res = length D
    ∧ nR (DAll res) = length rs
    ∧ ntmin ≤ nt (DAll res)
    ∧ obs_shaped (length rs) (nt (DAll res)) obs
    ∧ no_nan obs
    ∧ length t = nt (DAll res)
    ∧ length dt = nt (DAll res) - 1
    ∧ Qbar res = mean_q <$> rs
    ∧ Forall (λ q : float, isnan q = false) (Qbar res)
    ∧ SetQuality res = (if decide (length rs < 3) then Degraded else Nominal)
    ∧ StronglySorted lt D
    ∧ Forall (λ d, d < length (overlap_ts res)) D
    ∧ nt (DAll res) + length D = length (overlap_ts res)
    ∧ Sorted Z.le (overlap_ts res).
Proof.
  intros Hrun Hq.
  destruct (retrieve_obs_valid_run rs log res Hrun Hq)
    as (al & obs & Hal & Hne & Hagg & Hsh & Hnan & Hmin & ->).
  destruct (time_alignment_spec rs al Hal) as (_ & Hnt & Hsorted & _).
  destruct (validity_filter_shape (length rs) (a_nt al) obs
              (talli_of (a_overlap_ts al)) Hsh)
    as (Hsort & Hlt & HnD & Hsum & Hsh' & Htalli).
  { by rewrite length_talli_of. }
  eexists _, _, _, _. cbn [AllObs D_t D_dt DAll iDelete nDelete nR nt Qbar
                            SetQuality overlap_ts].
  split_and!; try done.
  - by apply (validity_filter_output_no_nan (length rs)).
  - by rewrite length_dt_of, Htalli.
  - by apply existsb_isnan_false.
  - by rewrite <-Hnt.
  - rewrite <-Hnt, <-HnD. done.
Qed.

Lemma retrieve_obs_valid_contract_witness :
  ∃ log res,
    retrieve_obs [reach_hours 1 (val 9) 2; reach_hours 2 (val 9) (-1)]
    = (log, inr res)
    ∧ SetQuality res = Degraded
    ∧ nt (DAll res) = 4
    ∧ iDelete res = WhereIndex [2]
    ∧ ∃ obs, AllObs res = Some obs ∧ obs_shaped 2 4 obs ∧ no_nan obs.
Proof.
  destruct (retrieve_obs [reach_hours 1 (val 9) 2; reach_hours 2 (val 9) (-1)])
    as [log [e|res]] eqn:Hrun; [vm_compute in Hrun; discriminate|].
  assert (SetQuality res = Degraded) as Hq
    by (vm_compute in Hrun; by simplify_eq).
  assert (nt (DAll res) = 4) as Hn by (vm_compute in Hrun; by simplify_eq).
  assert (iDelete res = WhereIndex [2]) as Hi
    by (vm_compute in Hrun; by simplify_eq).
  destruct (retrieve_obs_valid_contract _ log res Hrun)
    as (obs & t & dt & D & Hobs & _ & _ & _ & _ & _ & _ & Hsh & Hno & _).
  - by rewrite Hq.
  - exists log, res. split_and!; try done.
    exists obs. rewrite Hn in Hsh. by split_and!.
Defined.

(** ** Columns and instants *)

(** The instants at the positions of a mask, for a file in
    chronological order: those of the overlap that were not seen. *)
Lemma bool_index_selection_from (ov ovt : list Z) (seen ts : list instant) :
  StronglySorted Z.le (valid_times ts) →
  StronglySorted Z.lt ovt →
  (∀ z, z ∈ ovt ↔ z ∈ ov ∧ Some z ∉ seen) →
  (∀ z, z ∈ ovt → z ∈ valid_times ts) →
  bool_index ts
    (imap (λ ii t, in_overlap t ov && negb (in_raw t (seen ++ take ii ts))) ts)
  = Some <$> ovt.
Proof.
  revert seen ovt. induction ts as [|t ts IH]; intros seen ovt Hts Hovt Hchar Hin.
  - simpl. destruct ovt as [|z ovt]; [done|].
    assert (z ∈ valid_times []) as H0 by (apply Hin; by left).
    by apply elem_of_nil in H0.
  - rewrite imap_cons. simpl take. rewrite app_nil_r.
    assert (imap ((λ ii t0, in_overlap t0 ov
                     && negb (in_raw t0 (seen ++ take ii (t :: ts)))) ∘ S) ts
            = imap (λ ii t0, in_overlap t0 ov
                     && negb (in_raw t0 ((seen ++ [t]) ++ take ii ts))) ts) as ->.
    { apply imap_ext. intros i x _. simpl. by rewrite <-(assoc_L (++)). }
    destruct t as [z|]; simpl.
    + unfold valid_times in Hts, Hin. simpl in Hts, Hin.
      change (omap id ts) with (valid_times ts) in Hts, Hin.
      apply StronglySorted_inv in Hts as [Hts Hz].
      rewrite Forall_forall in Hz.
      destruct (decide (z ∈ ov)) as [Hov|Hov];
      [destruct (decide (Some z ∈ seen)) as [Hs|Hs]|].
      * rewrite bool_decide_true, (bool_decide_true (Some z ∈ seen)) by done.
        simpl. apply IH; [done|done| |].
        -- intros y. rewrite Hchar, elem_of_app, list_elem_of_singleton.
           split; [|naive_solver]. intros [? ?]. split; [done|].
           intros [?|?]; [done|]. by simplify_eq.
        -- intros y Hy. pose proof Hy as Hy'. apply Hin in Hy'.
           apply elem_of_cons in Hy' as [->|?]; [|done].
           apply Hchar in Hy as [_ ?]. done.
      * rewrite bool_decide_true, (bool_decide_false (Some z ∈ seen)) by done.
        simpl.
        assert (z ∈ ovt) as Hzin by by apply Hchar.
        destruct ovt as [|o ovt]; [by apply elem_of_nil in Hzin|].
        apply StronglySorted_inv in Hovt as [Hovt Ho].
        rewrite Forall_forall in Ho.
        assert (o = z) as ->.
        { assert (z ≤ o)%Z.
          { assert (o ∈ z :: valid_times ts) as Ho' by (apply Hin; by left).
            apply elem_of_cons in Ho' as [->|?]; [lia|auto]. }
          apply elem_of_cons in Hzin as [->|Hzin]; [done|].
          specialize (Ho _ Hzin). lia. }
        rewrite fmap_cons. f_equal.
        apply IH; [done|done| |].
        -- intros y. rewrite elem_of_app, list_elem_of_singleton. split.
           ++ intros Hy. pose proof (Ho _ Hy).
              destruct (Hchar y) as [[? ?] _]; [by right|].
              split; [done|]. intros [?|?]; [done|]. simplify_eq. lia.
           ++ intros [Hy Hns].
              destruct (Hchar y) as [_ Hc].
              assert (y ∈ z :: ovt) as Hy' by naive_solver.
              apply elem_of_cons in Hy' as [->|?]; [|done].
              exfalso. apply Hns. by right.
        -- intros y Hy. pose proof (Ho _ Hy).
           assert (y ∈ z :: valid_times ts) as Hy' by (apply Hin; by right).
           apply elem_of_cons in Hy' as [->|?]; [lia|done].
      * rewrite bool_decide_false by done. simpl. apply IH; [done|done| |].
        -- intros y. rewrite Hchar, elem_of_app, list_elem_of_singleton.
           split; [|naive_solver]. intros [? ?]. split; [done|].
           intros [?|?]; [done|]. by simplify_eq.
        -- intros y Hy. pose proof Hy as Hy'. apply Hin in Hy'.
           apply elem_of_cons in Hy' as [->|?]; [|done].
           apply Hchar in Hy as [? _]. done.
    + unfold valid_times in Hts, Hin. simpl in Hts, Hin.
      apply IH; [done|done| |done].
      intros y. rewrite Hchar, elem_of_app, list_elem_of_singleton.
      naive_solver.
Qed.

Lemma Sorted_le_NoDup_lt (l : list Z) :
  Sorted Z.le l → NoDup l → StronglySorted Z.lt l.
Proof.
  intros Hs%Sorted_StronglySorted Hnd; [|apply _].
  induction Hs as [|z l _ IH Hz]; [constructor|].
  apply NoDup_cons in Hnd as [Hnin Hnd]. constructor; [auto|].
  rewrite Forall_forall in Hz |- *. intros y Hy. specialize (Hz _ Hy).
  assert (y ≠ z) by (by intros ->). lia.
Qed.

Lemma bool_index_selection (ov : list Z) (ts : list instant) :
  Sorted Z.le (valid_times ts) → Sorted Z.le ov → NoDup ov →
  (∀ z, z ∈ ov → z ∈ valid_times ts) →
  bool_index ts (selection_mask ov ts) = Some <$> ov.
Proof.
  intros Hts Hov Hnd Hin.
  apply (bool_index_selection_from ov ov [] ts); try done.
  - apply Sorted_StronglySorted; [apply _|done].
  - by apply Sorted_le_NoDup_lt.
  - intros z. split; [|tauto]. intros ?. split; [done|]. by intros ?%elem_of_nil.
Qed.

Lemma overlap_subset_valid rs al r f :
  time_alignment rs = inr al → NoDup (reach_id <$> rs) → r ∈ rs →
  swot r = Some f →
  ∀ z, z ∈ a_overlap_ts al → z ∈ valid_times (time <$> f).
Proof.
  intros Hal Hnd Hr Hf z Hz.
  destruct (time_alignment_spec rs al Hal) as (_ & _ & _ & _ & Hset & _).
  assert (z ∈ overlap_of (extract_times rs) rs) as Hz'
    by (rewrite <-Hset; by apply elem_of_list_to_set).
  assert (z ∈ cand (extract_times rs) r) as Hc.
  { unfold overlap_of in Hz'. destruct rs as [|r0 rest]; [by apply elem_of_nil in Hr|].
    apply elem_of_foldl_inter in Hz' as [H0 Hrest].
    apply elem_of_cons in Hr as [->|Hr]; auto. }
  unfold cand, raw_times in Hc.
  rewrite (extract_times_lookup rs r f) in Hc by done.
  by apply elem_of_list_to_set in Hc.
Qed.

(** X4.  Columns and instants.  Step 1.2 stores for a reach the readings
    at the positions its mask selects, in the order of the file.  When
    the defined instants of the file are in chronological order, these
    positions carry exactly the sorted overlap instants, so that column
    [j] of the reach is the reading at [overlap_ts[j]].  The code does
    not sort the readings: the second file of [rs_reversed] lists the
    hours backwards, and its columns are in that order. *)
Theorem chronological_columns rs al r f :
  time_alignment rs = inr al → NoDup (reach_id <$> rs) → 2 ≤ length rs →
  r ∈ rs → swot r = Some f →
  (Sorted Z.le (valid_times (time <$> f)) →
   ∃ mask, a_overlap_fs al !! reach_id r = Some mask
           ∧ bool_index (time <$> f) mask = Some <$> a_overlap_ts al)
  ∧ ∃ al' mask',
      time_alignment rs_reversed = inr al'
      ∧ a_overlap_ts al' = [0; 1; 2; 3]%Z
      ∧ a_overlap_fs al' !! 2%Z = Some mask'
      ∧ bool_index [Some 3; Some 2; Some 1; Some 0]%Z mask'
        = [Some 3; Some 2; Some 1; Some 0]%Z.
Proof.
  intros Hal Hnd Hlen Hr Hf. split.
  - intros Hsorted.
    destruct (time_alignment_spec rs al Hal)
      as (_ & _ & Hov & _ & _ & _ & Hnodup).
    exists (selection_mask (a_overlap_ts al) (time <$> f)).
    split; [by apply (selection_mask_of_file rs)|].
    apply bool_index_selection; auto.
    by apply (overlap_subset_valid rs al r).
  - vm_compute. eexists _, _. split_and!; reflexivity.
Qed.

Lemma chronological_columns_witness :
  ∃ al mask,
    time_alignment rs_dup = inr al
    ∧ a_overlap_fs al !! 1%Z = Some mask
    ∧ bool_index [Some 5; Some 5; Some 7]%Z mask = Some <$> a_overlap_ts al.
Proof.
  destruct (time_alignment rs_dup) as [e|al] eqn:Hal;
    [vm_compute in Hal; discriminate|].
  destruct (chronological_columns rs_dup al
              (reach_of_times 1 [Some 5; Some 5; Some 7]%Z)
              ((λ t, SwotRow t None None None) <$> [Some 5; Some 5; Some 7]%Z))
    as [H _].
  - exact Hal.
  - apply (bool_decide_unpack _). vm_compute. reflexivity.
  - simpl. lia.
  - apply list_elem_of_lookup_2 with 0. reflexivity.
  - reflexivity.
  - assert (Sorted Z.le (valid_times [Some 5; Some 5; Some 7]%Z)) as Hs
      by (repeat constructor; vm_compute; discriminate).
    destruct (H Hs) as (mask & Hm & Hsel).
    exists al, mask. split_and!; [done|exact Hm|exact Hsel].
Defined.

(** ** A single reach *)

Lemma size_list_to_set_NoDup (l : list Z) :
  size (list_to_set l : gset Z) = length l ↔ NoDup l.
Proof.
  split; [|apply size_list_to_set].
  induction l as [|z l IH]; [constructor|]. simpl. intros Hsz.
  pose proof (size_list_to_set_le l) as Hle.
  destruct (decide (z ∈ l)) as [Hin|Hnin].
  - replace ({[z]} ∪ list_to_set l : gset Z) with (list_to_set l : gset Z)
      in Hsz by set_solver.
    lia.
  - rewrite size_union, size_singleton in Hsz by set_solver.
    constructor; [done|]. apply IH. lia.
Qed.

(** The guard of step 1.2.2 fires. *)
Lemma read_reach_guard nr al st i r mask :
  a_overlap_fs al !! reach_id r = Some mask → count_true mask ≠ a_nt al →
  read_reach nr al st i r
  = ((if swot r is Some _ then [OpenSwot (reach_id r)] else [])
     ++ [Assign Consistency Invalid],
     inr (inl {| Qbar := ls_Qbar st; iDelete := IntIndex 0; nDelete := 0;
                 SetQuality := Invalid;
                 DAll := MkDomain nr (a_nt al) None None;
                 AllObs := ls_obs st;
                 overlap_ts := np_delete (a_overlap_ts al) [0] |})).
Proof.
  revert mask. intros mask0. read_reach_cases r al st;
    intros; simplify_eq/=; done.
Qed.

Lemma np_delete_first {A} (l : list A) : np_delete l [0] = tail l.
Proof.
  unfold np_delete, keep_mask. destruct l as [|x l]; [done|]. simpl.
  apply bool_index_all_true. done.
Qed.

(** The alignment of a single reach whose file exists. *)
Lemma single_reach_alignment r f :
  swot r = Some f →
  ∃ al, time_alignment [r] = inr al
        ∧ a_overlap_ts al = py_sort (valid_times (time <$> f))
        ∧ a_nt al = length (valid_times (time <$> f))
        ∧ ∃ mask, a_overlap_fs al !! reach_id r = Some mask
                  ∧ (count_true mask = a_nt al
                     ↔ NoDup (valid_times (time <$> f))).
Proof.
  intros Hf.
  assert (NoDup (reach_id <$> [r])) as Hnd by (apply NoDup_singleton).
  assert (r ∈ [r]) as Hr by by left.
  pose proof (extract_times_lookup [r] r f Hnd Hr Hf) as Hlk.
  destruct (time_alignment_total [r]) as [al Hal].
  { constructor; [by rewrite Hlk|constructor]. }
  destruct (time_alignment_spec [r] al Hal)
    as (_ & Hnt & Hsorted & Hmask & _ & Hperm & _).
  specialize (Hperm r eq_refl). specialize (Hmask r Hr).
  unfold raw_times in Hperm, Hmask. rewrite Hlk in Hperm, Hmask.
  simpl in Hperm, Hmask.
  exists al. split_and!; [done| | |].
  - apply (Sorted_unique Z.le); [done|apply py_sort_sorted|].
    by rewrite py_sort_perm.
  - by rewrite Hnt, Hperm.
  - eexists. split; [exact Hmask|].
    rewrite selection_count, Hnt, <-size_list_to_set_NoDup.
    assert ((list_to_set (valid_times (time <$> f)) : gset Z)
              ∩ list_to_set (a_overlap_ts al)
            = list_to_set (valid_times (time <$> f))) as ->;
      [|by rewrite Hperm].
    apply set_eq. intros z. rewrite elem_of_intersection, !elem_of_list_to_set.
    rewrite Hperm. tauto.
Qed.

(** X5.  A set of a single reach: its instants are not deduplicated
    (lines 133-135), while its mask selects each instant once, so the
    guard of step 1.2.2 fires exactly when the file has four defined
    instants or more and one of them repeated.  The run then returns
    Invalid before any channel is read, with the count of all defined
    instants as [nt] and the sorted instants without the first one as
    time axis. *)
Theorem single_reach_guard r f :
  swot r = Some f →
  let v := valid_times (time <$> f) in
  (Assign Consistency Invalid ∈ events (retrieve_obs [r])
   ↔ ntmin_prior ≤ length v ∧ ¬ NoDup v)
  ∧ (ntmin_prior ≤ length v → ¬ NoDup v →
     ∃ res,
       retrieve_obs [r]
       = ([OpenSwot (reach_id r); ReadTime (reach_id r);
           Assign Initial Degraded; OpenSwot (reach_id r);
           Assign Consistency Invalid], inr res)
       ∧ SetQuality res = Invalid
       ∧ iDelete res = IntIndex 0 ∧ nDelete res = 0
       ∧ nt (DAll res) = length v
       ∧ overlap_ts res = tail (py_sort v)).
Proof.
  intros Hf v.
  destruct (single_reach_alignment r f Hf)
    as (al & Hal & Hov & Hnt & mask & Hmask & Hcount).
  fold v in Hov, Hnt, Hcount.
  assert (swot_file_exists [r] = Some true) as Hex.
  { unfold swot_file_exists. simpl. by rewrite Hf. }
  assert (time_events [r] = [OpenSwot (reach_id r); ReadTime (reach_id r)])
    as Hte by (unfold time_events; simpl; by rewrite Hf).
  assert (ntmin_prior ≤ length v → ¬ NoDup v →
     ∃ res,
       retrieve_obs [r]
       = ([OpenSwot (reach_id r); ReadTime (reach_id r);
           Assign Initial Degraded; OpenSwot (reach_id r);
           Assign Consistency Invalid], inr res)
       ∧ SetQuality res = Invalid
       ∧ iDelete res = IntIndex 0 ∧ nDelete res = 0
       ∧ nt (DAll res) = length v
       ∧ overlap_ts res = tail (py_sort v)) as Hfire.
  { intros Hlen Hdup.
    assert (count_true mask ≠ a_nt al) as Hne by tauto.
    unfold retrieve_obs, retrieve_obs_with, set_quality, lift, tell.
    rewrite Hal, Hex, Hte. cbn -[read_loop].
    rewrite decide_False by lia. rewrite read_loop_cons.
    rewrite (read_reach_guard _ _ _ _ _ mask Hmask Hne), Hf. cbn.
    eexists. split_and!; try done.
    cbn. by rewrite np_delete_first, Hov. }
  split; [|exact Hfire]. split.
  - intros Hin.
    destruct (decide (a_nt al < ntmin_prior)) as [Hlt|Hge].
    + exfalso. revert Hin.
      unfold events, retrieve_obs, retrieve_obs_with, set_quality, lift, tell.
      rewrite Hal, Hex, Hte. cbn -[read_loop].
      rewrite decide_True by done. cbn.
      rewrite !elem_of_cons, elem_of_nil. naive_solver.
    + split; [lia|]. intros Hnd. apply Hcount in Hnd.
      revert Hin.
      unfold events, retrieve_obs, retrieve_obs_with, set_quality, lift, tell.
      rewrite Hal, Hex, Hte. cbn -[read_loop].
      rewrite decide_False by done.
      match goal with
      | |- context [read_loop ?nr al 0 [r] ?st0] =>
          pose proof (read_loop_consistency nr al 0 [r] st0 Invalid) as Hc;
          destruct (read_loop nr al 0 [r] st0) as [ll [e|[res|st]]] eqn:Hloop
      end.
      all: cbn -[read_loop].
      all: try (destruct (ls_obs st) as [obs|]; cbn -[read_loop];
                [destruct (post_filter_quality _ _ _); cbn -[read_loop]|]).
      all: rewrite ?app_nil_r, ?elem_of_cons, ?elem_of_app, ?elem_of_cons,
             ?elem_of_nil.
      all: intros Hin;
        assert (Assign Consistency Invalid ∈ ll) as Hll by naive_solver;
        destruct (Hc Hll) as (r' & Hr' & Hno);
        apply list_elem_of_singleton in Hr' as ->;
        apply Hno; by exists mask.
  - intros [Hlen Hdup]. destruct (Hfire Hlen Hdup) as (res & -> & _).
    unfold events. simpl. set_solver.
Qed.

Lemma single_reach_guard_witness :
  ∃ res,
    retrieve_obs [reach_of_times 1 [Some 5; Some 5; Some 7; Some 8]%Z]
    = ([OpenSwot 1; ReadTime 1; Assign Initial Degraded; OpenSwot 1;
        Assign Consistency Invalid], inr res)
    ∧ nt (DAll res) = 4
    ∧ overlap_ts res = [5; 7; 8]%Z.
Proof.
  destruct (single_reach_guard
              (reach_of_times 1 [Some 5; Some 5; Some 7; Some 8]%Z)
              ((λ t, SwotRow t None None None)
                 <$> [Some 5; Some 5; Some 7; Some 8]%Z) eq_refl)
    as [_ H].
  destruct H as (res & Hrun & _ & _ & _ & Hnt & Hov).
  - vm_compute. lia.
  - intros Hnd. vm_compute in Hnd. apply NoDup_cons in Hnd as [Hnin _].
    apply Hnin. by left.
  - exists res. split_and!; [exact Hrun|exact Hnt|exact Hov].
Defined.

(** ** The filter and the placeholders *)

Section inverse.
Context {A : Type}.
Implicit Types (F row : list A) (D : list nat).

Lemma bool_index_insert_build (mask : list bool) (v : A) F :
  count_true mask = length F →
  bool_index (insert_build mask v F) mask = F.
Proof.
  unfold count_true. revert F.
  induction mask as [|[] mask IH]; intros F.
  - by destruct F.
  - rewrite filter_cons_True by done. destruct F as [|a F]; [done|].
    cbn [length insert_build bool_index]. intros [= Hlen]. by rewrite IH.
  - rewrite filter_cons_False by done. cbn [insert_build bool_index].
    apply IH.
Qed.

Lemma insert_build_bool_index (mask : list bool) (v : A) row :
  length mask = length row →
  insert_build mask v (bool_index row mask)
  = zip_with (λ (b : bool) x, if b then x else v) mask row.
Proof.
  revert row. induction mask as [|[] mask IH]; intros [|x row]; simpl;
    try done; intros [= Hlen]; by rewrite IH.
Qed.

Lemma count_true_keep_mask n D :
  NoDup D → Forall (λ d, d < n) D → count_true (keep_mask n D) + length D = n.
Proof.
  intros Hnd Hlt.
  assert (length (keep_mask n D) = n) as Hlen
    by (unfold keep_mask; by rewrite foldl_insert_length, length_replicate).
  rewrite <-(length_bool_index (replicate n ()))
    by by rewrite length_replicate.
  pose proof (retained_length (replicate n ()) D Hnd) as Hr.
  rewrite length_replicate in Hr. specialize (Hr Hlt).
  rewrite <-np_delete_retained in Hr. unfold np_delete in Hr.
  by rewrite length_replicate in Hr.
Qed.

End inverse.

Section scatter_rows.
Context {A : Type}.


Lemma np_delete_scatter (zero fill : A) nt D F :
  NoDup D → Forall (λ d, d < nt) D → nt = length F + length D →
  np_delete (scatter zero nt D fill F) D = F.
Proof.
  intros Hnd Hlt ->. rewrite <-insert_build_scatter by done.
  pose proof (count_true_keep_mask (length F + length D) D Hnd Hlt) as Hc.
  unfold np_delete.
  rewrite (insert_build_scatter zero), scatter_length by done.
  rewrite <-(insert_build_scatter zero) by done.
  apply bool_index_insert_build. lia.
Qed.

End scatter_rows.

Lemma scatter_np_delete {A} (zero fill : A) (row : list A) D :
  NoDup D → Forall (λ d, d < length row) D →
  scatter zero (length row) D fill (np_delete row D)
  = foldl (λ acc d, <[d := fill]> acc) row D.
Proof.
  intros Hnd Hlt.
  assert (length (np_delete row D) + length D = length row) as Hlen
    by (rewrite np_delete_retained; by apply retained_length).
  rewrite <-insert_build_scatter by (done || lia).
  unfold np_delete.
  assert (length (keep_mask (length row) D) = length row) as Hm
    by (unfold keep_mask; by rewrite foldl_insert_length, length_replicate).
  rewrite insert_build_bool_index by done.
  apply list_eq. intros p.
  rewrite foldl_insert_lookup, lookup_zip_with, keep_mask_spec.
  rewrite list_lookup_fmap.
  destruct (row !! p) as [x|] eqn:Hp; simpl.
  - rewrite lookup_seq_lt by eauto using lookup_lt_Some. simpl.
    destruct (decide (p ∈ D)); case_bool_decide; done.
  - by destruct (seq 0 (length row) !! p).
Qed.

(** The columns [D] of every row deleted, as the validity filter does,
    then re-expanded. *)
Lemma scatter_np_delete_cols (M : list (list float)) D nt :
  NoDup D → Forall (λ d, d < nt) D → Forall (λ row, length row = nt) M →
  Forall (λ row, nt = length row + length D) (np_delete_cols M D)
  ∧ scatter (val 0) nt D fillvalue <$> np_delete_cols M D
    = (λ row, foldl (λ acc d, <[d := fillvalue]> acc) row D) <$> M.
Proof.
  intros Hnd Hlt HM. unfold np_delete_cols. split.
  - apply Forall_fmap. eapply Forall_impl; [exact HM|].
    intros row Hrow. simpl in *. subst nt.
    rewrite np_delete_retained.
    pose proof (retained_length row D Hnd Hlt). lia.
  - rewrite <-list_fmap_compose. apply Forall_fmap_ext_1.
    eapply Forall_impl; [exact HM|]. intros row Hrow. simpl in *. subst nt.
    by apply scatter_np_delete.
Qed.

(** The re-expanded rows without the columns [D]. *)
Lemma np_delete_cols_scatter (M : list (list float)) D nt :
  NoDup D → Forall (λ d, d < nt) D →
  Forall (λ row, nt = length row + length D) M →
  np_delete_cols (scatter (val 0) nt D fillvalue <$> M) D = M.
Proof.
  intros Hnd Hlt HM. unfold np_delete_cols.
  rewrite <-list_fmap_compose. rewrite <-(list_fmap_id M) at 2.
  apply Forall_fmap_ext_1. eapply Forall_impl; [exact HM|].
  intros row Hrow. simpl in *. by apply np_delete_scatter.
Qed.

(** X6.  The deletion of the validity filter and the placeholders of
    [write_output] are inverse to each other along a strictly ascending
    ledger [D].  Deleting the columns [D] of the series of a tier and
    handing the result to step 1 of [write_output] gives the series
    back with the sentinel at the columns [D]; and deleting the columns
    [D] of what step 1 returns gives back the series it was given. *)
Theorem filter_placeholders_inverse (E : Estimates) (D : list nat) nt :
  StronglySorted lt D → Forall (λ d, d < nt) D →
  let mark := λ row : list float,
                foldl (λ acc d, <[d := fillvalue]> acc) row D in
  (Forall (λ row, length row = nt) (AllQ E) →
   Forall (λ row, length row = nt) (QhatUnc_HatAllAll E) →
   add_placeholders
     (MkEstimates (np_delete_cols (AllQ E) D)
        (np_delete_cols (QhatUnc_HatAllAll E) D) (QhatAllPrior E))
     (WhereIndex D) (length D) Nominal
   = inr (MkEstimates (mark <$> AllQ E) (mark <$> QhatUnc_HatAllAll E)
            (QhatAllPrior E)))
  ∧ (Forall (λ row, length row = nt) (QhatAllPrior E) →
     add_placeholders
       (MkEstimates (AllQ E) (QhatUnc_HatAllAll E)
          (np_delete_cols (QhatAllPrior E) D))
       (WhereIndex D) (length D) Degraded
     = inr (MkEstimates (AllQ E) (QhatUnc_HatAllAll E)
              (mark <$> QhatAllPrior E)))
  ∧ (Forall (λ row, nt = length row + length D) (AllQ E) →
     Forall (λ row, nt = length row + length D) (QhatUnc_HatAllAll E) →
     ∃ E', add_placeholders E (WhereIndex D) (length D) Nominal = inr E'
           ∧ Forall (λ row, length row = nt) (AllQ E')
           ∧ np_delete_cols (AllQ E') D = AllQ E
           ∧ np_delete_cols (QhatUnc_HatAllAll E') D = QhatUnc_HatAllAll E
           ∧ QhatAllPrior E' = QhatAllPrior E)
  ∧ (Forall (λ row, nt = length row + length D) (QhatAllPrior E) →
     ∃ E', add_placeholders E (WhereIndex D) (length D) Degraded = inr E'
           ∧ Forall (λ row, length row = nt) (QhatAllPrior E')
           ∧ np_delete_cols (QhatAllPrior E') D = QhatAllPrior E
           ∧ AllQ E' = AllQ E
           ∧ QhatUnc_HatAllAll E' = QhatUnc_HatAllAll E).
Proof.
  intros Hsort Hlt mark.
  pose proof (StronglySorted_lt_NoDup D Hsort) as Hnd.
  assert (∀ M : list (list float),
            Forall (λ row, length row = nt)
              (scatter (val 0) nt D fillvalue <$> M)) as Hlen.
  { intros M. apply Forall_fmap, Forall_forall. intros F _.
    apply scatter_length. }
  split_and!.
  - intros HQ HU.
    destruct (scatter_np_delete_cols _ D nt Hnd Hlt HQ) as [HQ1 HQ2].
    destruct (scatter_np_delete_cols _ D nt Hnd Hlt HU) as [HU1 HU2].
    rewrite (add_placeholders_nominal _ D nt) by done.
    cbn [AllQ QhatUnc_HatAllAll QhatAllPrior]. by rewrite HQ2, HU2.
  - intros HP.
    destruct (scatter_np_delete_cols _ D nt Hnd Hlt HP) as [HP1 HP2].
    rewrite (add_placeholders_degraded _ D nt) by done.
    cbn [AllQ QhatUnc_HatAllAll QhatAllPrior]. by rewrite HP2.
  - intros HQ HU. eexists. split; [by apply add_placeholders_nominal|].
    cbn [AllQ QhatUnc_HatAllAll QhatAllPrior].
    split_and!; [apply Hlen|by apply np_delete_cols_scatter
                |by apply np_delete_cols_scatter|done].
  - intros HP. eexists. split; [by apply add_placeholders_degraded|].
    cbn [AllQ QhatUnc_HatAllAll QhatAllPrior].
    split_and!; [apply Hlen|by apply np_delete_cols_scatter|done|done].
Qed.

Lemma filter_placeholders_inverse_witness :
  add_placeholders
    (MkEstimates (np_delete_cols [[val 1; val 2; val 3; val 4; val 5]] [1; 3])
       (np_delete_cols [[val 6; val 7; val 8; val 9; val 0]] [1; 3]) [])
    (WhereIndex [1; 3]) 2 Nominal
  = inr (MkEstimates [[val 1; fillvalue; val 3; fillvalue; val 5]]
           [[val 6; fillvalue; val 8; fillvalue; val 0]] [])
  ∧ ∃ E', add_placeholders
            (MkEstimates [[val 1; val 3; val 5]] [[val 6; val 8; val 0]] [])
            (WhereIndex [1; 3]) 2 Nominal = inr E'
          ∧ np_delete_cols (AllQ E') [1; 3] = [[val 1; val 3; val 5]].
Proof.
  split.
  - destruct (filter_placeholders_inverse
                (MkEstimates [[val 1; val 2; val 3; val 4; val 5]]
                   [[val 6; val 7; val 8; val 9; val 0]] []) [1; 3] 5)
      as (H & _).
    + repeat constructor; lia.
    + repeat constructor; lia.
    + apply H; repeat constructor.
  - destruct (filter_placeholders_inverse
                (MkEstimates [[val 1; val 3; val 5]] [[val 6; val 8; val 0]] [])
                [1; 3] 5)
      as (_ & _ & H & _).
    + repeat constructor; lia.
    + repeat constructor; lia.
    + destruct H as (E' & HE & _ & Hdel & _); [repeat constructor..|].
      exists E'. split; [exact HE|exact Hdel].
Defined.

(** ** Elapsed times and time deltas *)

Lemma elapsed_days_eq t0 t :
  (elapsed_days t0 t == inject_Z (t - t0) / 24)%Q.
Proof.
  unfold elapsed_days. set (d := (t - t0)%Z).
  pose proof (Z.div_mod d 24) as Hd.
  unfold Qeq, Qdiv, Qmult, Qplus, Qinv, inject_Z. simpl. lia.
Qed.

Lemma omap_lookup_total {A B} (g : A → option B) (C : list A) j :
  Forall (λ p, is_Some (g p)) C → omap g C !! j = C !! j ≫= g.
Proof.
  intros H. revert j. induction H as [|p C [x Hx] _ IH]; intros j; [done|].
  rewrite omap_cons, Hx. destruct j as [|j]; simpl; [done|apply IH].
Qed.

Lemma retained_lookup {A} (l : list A) D j :
  retained D l !! j = complement_idx (length l) D !! j ≫= λ p, l !! p.
Proof.
  unfold retained. apply omap_lookup_total, Forall_forall.
  intros p [_ [_ ?]%elem_of_seq]%list_elem_of_filter.
  apply lookup_lt_is_Some_2. lia.
Qed.

Lemma retained_fmap {A B} (g : A → B) (l : list A) D :
  retained D (g <$> l) = g <$> retained D l.
Proof.
  apply list_eq. intros j.
  rewrite list_lookup_fmap, !retained_lookup, length_fmap.
  destruct (complement_idx (length l) D !! j) as [p|]; simpl; [|done].
  by rewrite list_lookup_fmap.
Qed.

Lemma filter_seq_sorted (P : nat → Prop) `{!∀ p, Decision (P p)} i n :
  StronglySorted lt (filter P (seq i n)).
Proof.
  revert i. induction n as [|n IH]; intros i; [constructor|].
  simpl. rewrite filter_cons. destruct (decide (P i)); [|apply IH].
  constructor; [apply IH|]. apply Forall_forall.
  intros q [_ [? _]%elem_of_seq]%list_elem_of_filter. lia.
Qed.

Lemma StronglySorted_lookup_lt {A} (R : relation A) (l : list A) j j' a b :
  StronglySorted R l → l !! j = Some a → l !! j' = Some b → j < j' → R a b.
Proof.
  intros Hs. revert j j'. induction Hs as [|x l _ IH Hx]; intros j j'; [done|].
  destruct j' as [|j']; [lia|]. destruct j as [|j]; simpl.
  - intros [= ->] Hb _. rewrite Forall_forall in Hx. apply Hx.
    by eapply list_elem_of_lookup_2.
  - intros Ha Hb ?. apply (IH j j'); [done|done|lia].
Qed.

(** Consecutive retained entries of a strictly ascending list. *)
Lemma retained_ascending (ov : list Z) D j a b :
  StronglySorted Z.lt ov →
  retained D ov !! j = Some a → retained D ov !! S j = Some b → (a < b)%Z.
Proof.
  intros Hs. rewrite !retained_lookup. intros Ha Hb.
  destruct (complement_idx (length ov) D !! j) as [p|] eqn:Hp; [|done].
  destruct (complement_idx (length ov) D !! S j) as [p'|] eqn:Hp'; [|done].
  simpl in Ha, Hb.
  assert (p < p').
  { apply (StronglySorted_lookup_lt lt (complement_idx (length ov) D) j (S j));
      [apply filter_seq_sorted|done|done|lia]. }
  by apply (StronglySorted_lookup_lt Z.lt ov p p').
Qed.

Lemma dt_of_lookup talli j a b :
  talli !! j = Some a → talli !! S j = Some b →
  dt_of talli !! j = Some ((b - a) * 86400)%Q.
Proof.
  intros Ha Hb. unfold dt_of. by rewrite lookup_zip_with, lookup_tail, Ha, Hb.
Qed.

Lemma elapsed_days_lt t0 a b :
  (a < b)%Z → (elapsed_days t0 a < elapsed_days t0 b)%Q.
Proof.
  intros Hab. rewrite !elapsed_days_eq.
  unfold Qlt, Qdiv, Qmult, Qinv, inject_Z. simpl. lia.
Qed.

Lemma elapsed_days_zero t0 a : (elapsed_days t0 a == 0)%Q ↔ a = t0.
Proof.
  rewrite elapsed_days_eq.
  unfold Qeq, Qdiv, Qmult, Qinv, inject_Z. simpl. lia.
Qed.

Lemma elapsed_days_nonneg t0 a : (t0 ≤ a)%Z → (0 <= elapsed_days t0 a)%Q.
Proof.
  intros Hle. rewrite elapsed_days_eq.
  unfold Qle, Qdiv, Qmult, Qinv, inject_Z. simpl. lia.
Qed.

Lemma retained_elem_of {A} (l : list A) D j a :
  retained D l !! j = Some a → a ∈ l.
Proof.
  rewrite retained_lookup.
  destruct (complement_idx (length l) D !! j) as [p|]; [|done]. simpl.
  apply list_elem_of_lookup_2.
Qed.

(** X7.  The times of a run that returns another tier than Invalid.
    The elapsed times are kept here without the rounding of the
    program, so that only their order and sign are stated.  [DAll.t]
    counts from the first aligned instant - the first of the unfiltered
    list, also when its own column was removed: an entry is never
    negative, and it is zero for that instant only.  For a set of two
    reaches or more the retained instants and [DAll.t] ascend strictly,
    and every entry of [DAll.dt] is positive. *)
Theorem time_deltas_positive rs log res :
  retrieve_obs rs = (log, inr res) → SetQuality res ≠ Invalid →
  ∃ D t dt t0,
    iDelete res = WhereIndex D
    ∧ D_t (DAll res) = Some t
    ∧ D_dt (DAll res) = Some dt
    ∧ head (overlap_ts res) = Some t0
    ∧ (∀ j a, retained D (overlap_ts res) !! j = Some a →
         ∃ x, t !! j = Some x ∧ (0 <= x)%Q ∧ ((x == 0)%Q ↔ a = t0))
    ∧ (2 ≤ length rs →
       ∀ j a b,
         retained D (overlap_ts res) !! j = Some a →
         retained D (overlap_ts res) !! S j = Some b →
         (a < b)%Z
         ∧ ∃ x y d, t !! j = Some x ∧ t !! S j = Some y ∧ (x < y)%Q
                    ∧ dt !! j = Some d ∧ (0 < d)%Q).
Proof.
  intros Hrun Hq.
  destruct (retrieve_obs_valid_run rs log res Hrun Hq)
    as (al & obs & Hal & Hne & Hagg & Hsh & Hnan & Hmin & ->).
  destruct (time_alignment_spec rs al Hal)
    as (_ & Hnt & Hsorted & _ & _ & _ & Hnodup).
  cbn [AllObs D_t D_dt DAll iDelete nDelete nR nt Qbar SetQuality overlap_ts].
  set (D := f_iDelete (validity_filter (a_nt al) obs (talli_of (a_overlap_ts al)))).
  destruct (validity_filter_shape (length rs) (a_nt al) obs
              (talli_of (a_overlap_ts al)) Hsh)
    as (_ & _ & _ & Hsum & _); [by rewrite length_talli_of|].
  unfold ntmin in Hmin.
  destruct (a_overlap_ts al) as [|t0 ov'] eqn:Hov; [simpl in Hnt; lia|].
  assert (f_talli (validity_filter (a_nt al) obs (talli_of (t0 :: ov')))
          = elapsed_days t0 <$> retained D (t0 :: ov')) as Htalli.
  { change (f_talli (validity_filter (a_nt al) obs (talli_of (t0 :: ov'))))
      with (np_delete (talli_of (t0 :: ov'))
              (f_iDelete (validity_filter (a_nt al) obs (talli_of (t0 :: ov'))))).
    rewrite np_delete_retained. unfold talli_of. by rewrite retained_fmap. }
  exists D, (elapsed_days t0 <$> retained D (t0 :: ov')),
    (dt_of (elapsed_days t0 <$> retained D (t0 :: ov'))), t0.
  rewrite Htalli. split_and!; try done.
  - intros j a Ha. exists (elapsed_days t0 a).
    rewrite list_lookup_fmap, Ha. split; [done|].
    split; [|apply elapsed_days_zero].
    apply elapsed_days_nonneg.
    apply retained_elem_of in Ha.
    apply Sorted_StronglySorted in Hsorted; [|apply _].
    apply StronglySorted_inv in Hsorted as [_ Hmin0].
    rewrite Forall_forall in Hmin0.
    apply elem_of_cons in Ha as [->|Ha]; [lia|by apply Hmin0].
  - intros Hlen j a b Ha Hb.
    assert (a < b)%Z as Hab.
    { apply (retained_ascending (t0 :: ov') D j); [|done|done].
      apply Sorted_le_NoDup_lt; [done|auto]. }
    split; [exact Hab|].
    pose proof (elapsed_days_lt t0 a b Hab) as Hlt.
    exists (elapsed_days t0 a), (elapsed_days t0 b),
      ((elapsed_days t0 b - elapsed_days t0 a) * 86400)%Q.
    rewrite !list_lookup_fmap, Ha, Hb. split_and!; try done.
    + apply dt_of_lookup; rewrite list_lookup_fmap; [by rewrite Ha|by rewrite Hb].
    + apply Qmult_lt_0_compat; [|reflexivity].
      apply (proj1 (Qlt_minus_iff _ _)). exact Hlt.
Qed.

Lemma time_deltas_positive_witness :
  ∃ res t dt,
    outcome (retrieve_obs rs_gap) = inr res
    ∧ D_t (DAll res) = Some t
    ∧ D_dt (DAll res) = Some dt
    ∧ ∃ x y d, t !! 1 = Some x ∧ t !! 2 = Some y ∧ (x < y)%Q
               ∧ dt !! 1 = Some d ∧ (0 < d)%Q.
Proof.
  destruct (retrieve_obs rs_gap) as [log [e|res]] eqn:Hrun;
    [vm_compute in Hrun; discriminate|].
  assert (SetQuality res = Nominal) as Hq
    by (vm_compute in Hrun; by simplify_eq).
  assert (iDelete res = WhereIndex [2]) as Hi
    by (vm_compute in Hrun; by simplify_eq).
  assert (overlap_ts res = [0; 1; 2; 3; 4]%Z) as Hov
    by (vm_compute in Hrun; by simplify_eq).
  destruct (time_deltas_positive rs_gap log res Hrun)
    as (D & t & dt & t0 & HD & Ht & Hdt & _ & _ & Hgap).
  - by rewrite Hq.
  - rewrite Hi in HD. injection HD as <-. rewrite Hov in Hgap.
    assert (2 ≤ length rs_gap) as Hlen by (simpl; lia).
    destruct (Hgap Hlen 1 1%Z 3%Z eq_refl eq_refl) as (_ & Hxyd).
    exists res, t, dt. split_and!; [done|exact Ht|exact Hdt|exact Hxyd].
Defined.

(** ** [set_up_experiment] *)

(** X8.  Whenever [retrieve_obs] returns another tier than Invalid -
    the only case in which [main] calls [set_up_experiment] - the
    window [Exp.tUse] is [1, k] with [k = min(31, nt) - 1], so that
    [3 ≤ k ≤ 30] and [k] is at most the last index [nt - 1]; and the
    lateral inflows are the zero matrix of one row per reach and [nt]
    columns, the shape of the observations. *)
Theorem set_up_experiment_window rs log res C R Exp P :
  retrieve_obs rs = (log, inr res) → SetQuality res ≠ Invalid →
  set_up_experiment (DAll res) (Qbar res) = (C, R, Exp, P) →
  ∃ k, tUse Exp = (1, k)%Z
       ∧ k = (Z.min 31 (Z.of_nat (nt (DAll res))) - 1)%Z
       ∧ (3 ≤ k ≤ 30)%Z
       ∧ (k ≤ Z.of_nat (nt (DAll res)) - 1)%Z
       ∧ AllLats_q P = replicate (length rs) (replicate (nt (DAll res)) 0%Q)
       ∧ shaped (length rs) (nt (DAll res)) (AllLats_q P)
       ∧ ∃ obs, AllObs res = Some obs
                ∧ obs_shaped (length rs) (nt (DAll res)) obs.
Proof.
  intros Hrun Hq Hset.
  destruct (retrieve_obs_valid_run rs log res Hrun Hq)
    as (al & obs & Hal & Hne & Hagg & Hsh & Hnan & Hmin & ->).
  destruct (time_alignment_spec rs al Hal) as (_ & Hnt & _).
  destruct (validity_filter_shape (length rs) (a_nt al) obs
              (talli_of (a_overlap_ts al)) Hsh)
    as (_ & _ & _ & _ & Hsh' & _); [by rewrite length_talli_of|].
  unfold set_up_experiment in Hset. unfold ntmin in Hmin.
  cbn [DAll nR nt Qbar AllObs] in Hset, Hsh' |- *.
  set (n := f_nt _) in *. clearbody n.
  injection Hset as <- <- <- <-.
  eexists. cbn [tUse meanQbar AllLats_q].
  split; [reflexivity|]. split; [reflexivity|].
  split; [lia|]. split; [lia|]. split; [reflexivity|]. split.
  - split; [by rewrite length_replicate|].
    apply Forall_replicate. by rewrite length_replicate.
  - by eexists.
Qed.

Lemma set_up_experiment_window_witness :
  ∃ res C R Exp P,
    outcome (retrieve_obs [reach_hours 1 (val 9) 2; reach_hours 2 (val 9) (-1)])
    = inr res
    ∧ set_up_experiment (DAll res) (Qbar res) = (C, R, Exp, P)
    ∧ tUse Exp = (1, 3)%Z
    ∧ AllLats_q P = [[0; 0; 0; 0]; [0; 0; 0; 0]]%Q.
Proof.
  destruct (retrieve_obs [reach_hours 1 (val 9) 2; reach_hours 2 (val 9) (-1)])
    as [log [e|res]] eqn:Hrun; [vm_compute in Hrun; discriminate|].
  assert (SetQuality res = Degraded) as Hq
    by (vm_compute in Hrun; by simplify_eq).
  assert (nt (DAll res) = 4) as Hn by (vm_compute in Hrun; by simplify_eq).
  destruct (set_up_experiment (DAll res) (Qbar res)) as [[[C R] Exp] P] eqn:Hs.
  destruct (set_up_experiment_window _ log res C R Exp P Hrun)
    as (k & Hk & Hkv & _ & _ & Hz & _).
  - by rewrite Hq.
  - exact Hs.
  - exists res, C, R, Exp, P. rewrite Hn in Hkv, Hz. simpl in Hkv.
    rewrite Hkv in Hk. by split_and!.
Defined.

(** ** [main] and [write_output] *)

Lemma M_bind_inr {A B} (m : M A) (k : A → M B) l a :
  m = (l, inr a) → (m ≫= k) = (l ++ (k a).1, (k a).2).
Proof. intros ->. unfold mbind, M_bind. by destruct (k a). Qed.






(** X10.  The run without estimation.  For the empty reach list [main]
    returns without writing.  When [retrieve_obs] returns Invalid,
    [main] does not consult the estimator, resets the ledger, and hands
    to the dataset: the validity flag 0, a dimension [nt] of size 0,
    no value for [allq] and [q_u], and as time axis [nt + nDelete]
    sentinels. *)
Theorem main_invalid process rs log res :
  main process [] = ([], inr None)
  ∧ (rs ≠ [] → retrieve_obs rs = (log, inr res) → SetQuality res = Invalid →
     ∃ out,
       main process rs = (log, inr (Some out))
       ∧ o_valid out = 0%Z
       ∧ o_dim_nr out = length rs
       ∧ o_dim_nt out = 0
       ∧ o_nt out = []
       ∧ o_allq out = None
       ∧ o_q_u out = None
       ∧ o_t out = replicate (nt (DAll res) + nDelete res) fillvalue
       ∧ ∀ process', main process' rs = main process rs).
Proof.
  split; [done|]. intros Hne Hrun Hq.
  assert (∀ p, main p rs
    = (log, inr (Some
         {| o_set_id := str_join "-" ((λ e, str (reach_id e)) <$> rs)
                        +:+ "_metroman.nc";
            o_valid := 0; o_dim_nr := length rs; o_dim_nt := 0; o_nt := [];
            o_allq := None; o_q_u := None;
            o_t := replicate (nt (DAll res) + nDelete res) fillvalue |})))
    as Hmain.
  { intros p. unfold main. destruct rs as [|r0 rs0] eqn:Hrs; [done|].
    rewrite <-Hrs in *.
    rewrite (M_bind_inr _ _ _ _ Hrun).
    rewrite decide_True by done.
    unfold lift, write_output, mbind, M_bind, mret, M_ret.
    cbn [fst snd app]. rewrite Hq. cbn. rewrite !app_nil_r.
    by rewrite length_fmap. }
  eexists. split; [apply Hmain|]. split_and!; try done.
  intros p'. by rewrite !Hmain.
Qed.

Lemma main_invalid_witness :
  ∃ out, outcome (main process_h rs_short) = inr (Some out)
         ∧ o_valid out = 0%Z ∧ o_dim_nt out = 0
         ∧ o_t out = [fillvalue; fillvalue; fillvalue].
Proof.
  destruct (retrieve_obs rs_short) as [log [e|res]] eqn:Hrun;
    [vm_compute in Hrun; discriminate|].
  assert (SetQuality res = Invalid) as Hq
    by (vm_compute in Hrun; by simplify_eq).
  assert (nt (DAll res) = 3) as Hnt by (vm_compute in Hrun; by simplify_eq).
  assert (nDelete res = 0) as HnD by (vm_compute in Hrun; by simplify_eq).
  destruct (main_invalid process_h rs_short log res) as [_ H].
  destruct H as (out & Hmain & Hv & _ & Hdim & _ & _ & _ & Ht & _);
    [discriminate|exact Hrun|exact Hq|].
  exists out. unfold outcome. rewrite Hmain, Ht, Hnt, HnD. by split_and!.
Defined.

(** ** The returned matrices *)

Lemma aggregated_selected rs al obs :
  time_alignment rs = inr al → NoDup (reach_id <$> rs) →
  aggregated al rs obs →
  ∀ i r, rs !! i = Some r →
    ∃ f, swot r = Some f
         ∧ obs_h obs !! i = Some (selected (a_overlap_ts al) wse f)
         ∧ obs_w obs !! i = Some (selected (a_overlap_ts al) width f)
         ∧ obs_S obs !! i = Some (selected (a_overlap_ts al) slope2 f).
Proof.
  intros Hal Hnd Hagg i r Hi.
  destruct (Hagg i r Hi) as (f & mask & Hf & Hmask & _ & _ & Hh & Hw & HS).
  assert (r ∈ rs) as Hr by by eapply list_elem_of_lookup_2.
  rewrite (selection_mask_of_file rs al r f Hal Hnd Hr Hf) in Hmask.
  injection Hmask as <-. exists f. by split_and!.
Qed.

Lemma aggregated_nan_at rs al obs j :
  time_alignment rs = inr al → NoDup (reach_id <$> rs) →
  aggregated al rs obs → obs_shaped (length rs) (a_nt al) obs →
  nan_at j obs
  ↔ ∃ r f, r ∈ rs ∧ swot r = Some f ∧ undefined_at (a_overlap_ts al) j f.
Proof.
  intros Hal Hnd Hagg ([Hh _] & [Hw _] & [HS _]).
  pose proof (aggregated_selected rs al obs Hal Hnd Hagg) as Hsel.
  unfold nan_at, undefined_at. split.
  - intros (row & Hrow & Hj).
    assert (∃ i, i < length rs
                 ∧ (obs_h obs !! i = Some row ∨ obs_w obs !! i = Some row
                    ∨ obs_S obs !! i = Some row)) as (i & Hi & Hrow').
    { destruct Hrow as [Hrow|[Hrow|Hrow]];
        apply list_elem_of_lookup_1 in Hrow as [i Hi]; exists i;
        (split; [apply lookup_lt_Some in Hi; lia|auto]). }
    destruct (lookup_lt_is_Some_2 rs i Hi) as [r Hr].
    destruct (Hsel i r Hr) as (f & Hf & Hrh & Hrw & HrS).
    exists r, f. split; [by eapply list_elem_of_lookup_2|]. split; [done|].
    destruct Hrow' as [Hrow'|[Hrow'|Hrow']]; simplify_eq; auto.
  - intros (r & f & Hr & Hf & Hu).
    apply list_elem_of_lookup_1 in Hr as [i Hi].
    destruct (Hsel i r Hi) as (f' & Hf' & Hrh & Hrw & HrS).
    simplify_eq.
    destruct Hu as [Hu|[Hu|Hu]]; eexists; (split; [|exact Hu]).
    + left. by eapply list_elem_of_lookup_2.
    + right; left. by eapply list_elem_of_lookup_2.
    + right; right. by eapply list_elem_of_lookup_2.
Qed.

(** X11.  The matrices that a run returns with another tier than
    Invalid, for distinct identifiers: the row of a reach holds, for
    each channel, the readings of its file at the first occurrences of
    the overlap instants, in the order of the file, without the columns
    of the ledger; and a column is in the ledger exactly when some
    reach has an undefined elevation, width or slope there. *)
Theorem retrieve_obs_rows rs log res :
  retrieve_obs rs = (log, inr res) → SetQuality res ≠ Invalid →
  NoDup (reach_id <$> rs) →
  ∃ obs D,
    AllObs res = Some obs
    ∧ iDelete res = WhereIndex D
    ∧ (∀ i r, rs !! i = Some r →
         ∃ f, swot r = Some f
              ∧ obs_h obs !! i
                = Some (retained D (selected (overlap_ts res) wse f))
              ∧ obs_w obs !! i
                = Some (retained D (selected (overlap_ts res) width f))
              ∧ obs_S obs !! i
                = Some (retained D (selected (overlap_ts res) slope2 f)))
    ∧ (∀ j, j ∈ D
            ↔ j < length (overlap_ts res)
              ∧ ∃ r f, r ∈ rs ∧ swot r = Some f
                       ∧ undefined_at (overlap_ts res) j f).
Proof.
  intros Hrun Hq Hnd.
  destruct (retrieve_obs_valid_run rs log res Hrun Hq)
    as (al & obs & Hal & Hne & Hagg & Hsh & Hnan & Hmin & ->).
  destruct (time_alignment_spec rs al Hal) as (_ & Hnt & _).
  pose proof (aggregated_selected rs al obs Hal Hnd Hagg) as Hsel.
  eexists _, _.
  cbn [AllObs D_t D_dt DAll iDelete nDelete nR nt Qbar SetQuality overlap_ts].
  split; [reflexivity|]. split; [reflexivity|]. split.
  - intros i r Hi. destruct (Hsel i r Hi) as (f & Hf & Hrh & Hrw & HrS).
    exists f. split; [done|].
    change (f_obs (validity_filter (a_nt al) obs (talli_of (a_overlap_ts al))))
      with {| obs_h := np_delete_cols (obs_h obs)
                (f_iDelete (validity_filter (a_nt al) obs
                              (talli_of (a_overlap_ts al))));
              obs_w := np_delete_cols (obs_w obs)
                (f_iDelete (validity_filter (a_nt al) obs
                              (talli_of (a_overlap_ts al))));
              obs_S := np_delete_cols (obs_S obs)
                (f_iDelete (validity_filter (a_nt al) obs
                              (talli_of (a_overlap_ts al)))) |}.
    cbn [obs_h obs_w obs_S]. unfold np_delete_cols.
    rewrite !list_lookup_fmap, Hrh, Hrw, HrS. simpl.
    by rewrite !np_delete_retained.
  - intros j.
    change (f_iDelete (validity_filter (a_nt al) obs (talli_of (a_overlap_ts al))))
      with (np_where (bad_columns (a_nt al) obs)).
    rewrite (np_where_bad_columns (length rs)) by done.
    rewrite (aggregated_nan_at rs al obs j) by done.
    by rewrite Hnt.
Qed.

Lemma retrieve_obs_rows_witness :
  ∃ res obs,
    outcome (retrieve_obs rs_gap) = inr res
    ∧ AllObs res = Some obs
    ∧ iDelete res = WhereIndex [2]
    ∧ obs_w obs !! 1 = Some [val 2; val 2; val 2; val 2].
Proof.
  destruct (retrieve_obs rs_gap) as [log [e|res]] eqn:Hrun;
    [vm_compute in Hrun; discriminate|].
  assert (SetQuality res = Nominal) as Hq
    by (vm_compute in Hrun; by simplify_eq).
  assert (iDelete res = WhereIndex [2]) as Hi
    by (vm_compute in Hrun; by simplify_eq).
  assert (overlap_ts res = [0; 1; 2; 3; 4]%Z) as Hov
    by (vm_compute in Hrun; by simplify_eq).
  destruct (retrieve_obs_rows rs_gap log res Hrun)
    as (obs & D & Hobs & HD & Hrows & _).
  - by rewrite Hq.
  - apply (bool_decide_unpack _). vm_compute. reflexivity.
  - rewrite Hi in HD. injection HD as <-.
    destruct (Hrows 1 (reach_hours 2 (val 8) 2) eq_refl)
      as (f & Hf & _ & Hw & _).
    injection Hf as <-. rewrite Hov in Hw.
    exists res, obs. split; [reflexivity|]. split; [exact Hobs|].
    split; [exact Hi|]. exact Hw.
Defined.

(** ** The floor of the slopes *)

Lemma zip_with_fmap_same {A B C} (g : A → B → C) (h : A → B) (l : list A) :
  zip_with g l (h <$> l) = (λ x, g x (h x)) <$> l.
Proof.
  induction l as [|x l IH]; [done|]. rewrite !fmap_cons. simpl. by f_equal.
Qed.

Lemma float_lt_floor (x : float) : float_lt (floor_slope x) Smin = false.
Proof.
  destruct x as [q|]; [|done]. simpl.
  destruct (Qle_bool Smin q) eqn:Hq; simpl; [by rewrite Hq|done].
Qed.

(** X12.  The statement that limits the slopes in [process] raises
    every defined slope below [Smin] to [Smin] and changes nothing
    else: the assignment of the value returned by [putmask] finds no
    entry below [Smin] any more, so that it stores no NaN.  The shape is
    kept, an undefined slope stays undefined, and a second application
    changes nothing. *)
Theorem limit_slopes_floor (S : list (list float)) :
  limit_slopes S = (λ row : list float, floor_slope <$> row) <$> S
  ∧ length (limit_slopes S) = length S
  ∧ (∀ i j x, S !! i ≫= (.!! j) = Some x →
       ∃ y, limit_slopes S !! i ≫= (.!! j) = Some y
            ∧ isnan y = isnan x
            ∧ (∀ q, y = Some q → (Smin <= q)%Q)
            ∧ (∀ q, x = Some q → (Smin <= q)%Q → y = x))
  ∧ limit_slopes (limit_slopes S) = limit_slopes S.
Proof.
  assert (∀ M, limit_slopes M = (λ row : list float, floor_slope <$> row) <$> M) as Heq.
  { intros M. unfold limit_slopes, putmask, setitem_mask, matrix_lt.
    assert (∀ row : list float,
              zip_with (λ x (b : bool), if b then Some Smin else x) row
                ((λ x, float_lt x Smin) <$> row)
              = floor_slope <$> row) as Hrow.
    { intros row. rewrite zip_with_fmap_same. apply list_fmap_ext.
      intros _ [q|] _; [|done]. simpl. by destruct (Qle_bool Smin q). }
    assert (zip_with (zip_with (λ x (b : bool), if b then Some Smin else x)) M
              ((λ row : list float, (λ x, float_lt x Smin) <$> row) <$> M)
            = (λ row : list float, floor_slope <$> row) <$> M) as ->.
    { rewrite zip_with_fmap_same. apply list_fmap_ext. intros _ row _.
      apply Hrow. }
    rewrite (zip_with_fmap_same _ _
               ((λ row : list float, floor_slope <$> row) <$> M)).
    rewrite <-list_fmap_compose. apply list_fmap_ext. intros _ row _.
    unfold compose.
    rewrite (zip_with_fmap_same _ _ (floor_slope <$> row)).
    rewrite <-list_fmap_compose.
    apply list_fmap_ext. intros _ x _. simpl.
    by rewrite float_lt_floor. }
  split; [apply Heq|]. split; [by rewrite Heq, length_fmap|]. split.
  - intros i j x Hx. rewrite Heq, list_lookup_fmap.
    destruct (S !! i) as [row|]; [|done]. simpl in *.
    rewrite list_lookup_fmap, Hx. simpl. eexists. split; [done|].
    destruct x as [q|]; simpl; [|by split_and!].
    destruct (Qle_bool Smin q) eqn:Hq; split_and!; try done.
    + intros q' [= <-]. by apply Qle_bool_iff.
    + intros q' [= <-]. apply Qle_refl.
    + intros q' [= <-] Hle. apply Qle_bool_iff in Hle. congruence.
  - rewrite !Heq. rewrite <-list_fmap_compose. apply list_fmap_ext.
    intros _ row _. simpl. rewrite <-list_fmap_compose.
    apply list_fmap_ext. intros _ [q|] _; [|done]. simpl.
    destruct (Qle_bool Smin q) eqn:Hq; simpl; [by rewrite Hq|done].
Qed.

Lemma limit_slopes_floor_witness :
  limit_slopes [[Some (1 # 100000); None; Some (7 # 100000)]]
  = [[Some Smin; None; Some (7 # 100000)]].
Proof.
  destruct (limit_slopes_floor [[Some (1 # 100000); None; Some (7 # 100000)]])
    as [-> _].
  reflexivity.
Defined.

(** ** The identifier of the output file *)

Lemma string_app_cons c s t : String c s +:+ t = String c (s +:+ t).
Proof. done. Qed.

Lemma string_app_nil_l t : "" +:+ t = t.
Proof. done. Qed.

Lemma string_app_length s t :
  String.length (s +:+ t) = String.length s + String.length t.
Proof.
  induction s as [|c s IH]; [done|].
  rewrite string_app_cons. simpl. by rewrite IH.
Qed.

Lemma string_app_inv_tail s1 s2 t : s1 +:+ t = s2 +:+ t → s1 = s2.
Proof.
  revert s2. induction s1 as [|c1 s1 IH]; intros [|c2 s2] Heq; [done|..].
  - apply (f_equal String.length) in Heq.
    rewrite !string_app_length in Heq. simpl in Heq. lia.
  - apply (f_equal String.length) in Heq.
    rewrite !string_app_length in Heq. simpl in Heq. lia.
  - rewrite !string_app_cons in Heq. injection Heq as -> Heq.
    f_equal. by apply IH.
Qed.

(** Two separated strings are equal only part by part. *)
Lemma dash_split x y s t :
  no_dash x → no_dash y →
  x +:+ "-" +:+ s = y +:+ "-" +:+ t → x = y ∧ s = t.
Proof.
  revert y. induction x as [|c x IH]; intros [|c' y] Hx Hy Heq.
  - rewrite !string_app_nil_l, !string_app_cons, !string_app_nil_l in Heq.
    by injection Heq as ->.
  - rewrite string_app_nil_l, !string_app_cons in Heq.
    injection Heq as <- _. by destruct Hy.
  - rewrite string_app_nil_l, !string_app_cons in Heq.
    injection Heq as -> _. by destruct Hx.
  - rewrite !(string_app_cons _ _ ("-" +:+ _)) in Heq.
    injection Heq as -> Heq.
    destruct Hx as [_ Hx], Hy as [_ Hy].
    destruct (IH y Hx Hy Heq) as [-> ->]. done.
Qed.

Lemma dash_absent x y t : no_dash x → x ≠ y +:+ "-" +:+ t.
Proof.
  revert x. induction y as [|c y IH]; intros [|c' x] Hx Heq; try done.
  - rewrite string_app_nil_l, string_app_cons in Heq.
    injection Heq as -> _. by destruct Hx.
  - rewrite string_app_cons in Heq. injection Heq as -> Heq.
    destruct Hx as [_ Hx]. by apply (IH x).
Qed.

Lemma str_join_cons_cons sep x y l :
  str_join sep (x :: y :: l) = x +:+ sep +:+ str_join sep (y :: l).
Proof. done. Qed.

Lemma str_join_inj l1 l2 :
  Forall (λ s, no_dash s ∧ s ≠ "") l1 → Forall (λ s, no_dash s ∧ s ≠ "") l2 →
  str_join "-" l1 = str_join "-" l2 → l1 = l2.
Proof.
  intros H1. revert l2. induction H1 as [|x l1 [Hx Hxe] Hl1 IH]; intros l2 H2.
  - destruct H2 as [|y l2 [Hy Hye] Hl2]; [done|].
    destruct l2 as [|z l2]; simpl; [congruence|].
    intros Heq. destruct y; [done|discriminate].
  - destruct H2 as [|y l2 [Hy Hye] Hl2].
    + destruct l1 as [|z l1]; simpl; [congruence|].
      intros Heq. destruct x; [done|discriminate].
    + destruct l1 as [|x' l1], l2 as [|y' l2].
      * simpl. by intros ->.
      * rewrite str_join_cons_cons. intros Heq. by apply dash_absent in Heq.
      * rewrite str_join_cons_cons. intros Heq. symmetry in Heq.
        by apply dash_absent in Heq.
      * rewrite !str_join_cons_cons. intros Heq.
        apply dash_split in Heq as [-> Heq]; [|done|done].
        f_equal. by apply IH.
Qed.

(** The decimal digits of a number hold no separator. *)
Lemma pretty_N_go_no_dash x s :
  no_dash s → s ≠ "" → no_dash (pretty_N_go x s) ∧ pretty_N_go x s ≠ "".
Proof.
  revert s. induction (N.lt_wf_0 x) as [x _ IH]; intros s Hs Hne.
  assert (x = 0 ∨ 0 < x)%N as [->|?] by lia.
  - by rewrite pretty_N_go_0.
  - rewrite pretty_N_go_step by done. apply IH.
    + by apply N.div_lt.
    + split; [|done]. unfold pretty_N_char. repeat case_match; discriminate.
    + done.
Qed.

Lemma str_no_dash (z : Z) : (0 ≤ z)%Z → no_dash (str z) ∧ str z ≠ "".
Proof.
  intros Hz. destruct z as [|p|p]; [done| |lia].
  unfold str, pretty, pretty_Z, pretty, pretty_positive, pretty, pretty_N.
  rewrite decide_False by done.
  rewrite pretty_N_go_step by lia. apply pretty_N_go_no_dash; [|done].
  split; [|done]. unfold pretty_N_char. repeat case_match; discriminate.
Qed.

Lemma write_output_set_id ids E iD nD q ts out :
  write_output ids E iD nD q ts = inr out →
  o_set_id out = str_join "-" ids +:+ "_metroman.nc".
Proof.
  unfold write_output.
  destruct (add_placeholders E iD nD q) as [e|E']; [done|].
  destruct q; simpl.
  - destruct (len_first (AllQ E')); [done|]. by intros [= <-].
  - destruct (len_first (QhatAllPrior E')); [done|]. by intros [= <-].
  - by intros [= <-].
Qed.

(** X13.  The identifier of the output file determines the reach set:
    two calls of [write_output] for lists of non-negative reach
    identifiers that give the same [set_id] were made for the same
    identifiers in the same order. *)
Theorem set_id_injective (ids1 ids2 : list Z) E1 E2 iD1 iD2 nD1 nD2 q1 q2
    ts1 ts2 out1 out2 :
  Forall (λ z, 0 ≤ z)%Z ids1 → Forall (λ z, 0 ≤ z)%Z ids2 →
  write_output (str <$> ids1) E1 iD1 nD1 q1 ts1 = inr out1 →
  write_output (str <$> ids2) E2 iD2 nD2 q2 ts2 = inr out2 →
  o_set_id out1 = o_set_id out2 → ids1 = ids2.
Proof.
  intros H1 H2 Hw1%write_output_set_id Hw2%write_output_set_id Heq.
  rewrite Hw1, Hw2 in Heq. apply string_app_inv_tail in Heq.
  apply str_join_inj in Heq.
  - revert Heq. apply (inj (fmap str)).
  - apply Forall_fmap. eapply Forall_impl; [exact H1|]. apply str_no_dash.
  - apply Forall_fmap. eapply Forall_impl; [exact H2|]. apply str_no_dash.
Qed.

Lemma set_id_injective_witness :
  ∃ out,
    write_output (str <$> [74267100011; 74267100021]%Z) (MkEstimates [] [] [])
      (IntIndex 0) 0 Invalid [] = inr out
    ∧ o_set_id out = "74267100011-74267100021_metroman.nc"
    ∧ [74267100011; 74267100021]%Z = [74267100011; 74267100021]%Z.
Proof.
  destruct (write_output (str <$> [74267100011; 74267100021]%Z)
              (MkEstimates [] [] []) (IntIndex 0) 0 Invalid [])
    as [e|out] eqn:Hw; [vm_compute in Hw; discriminate|].
  assert (Forall (λ z, 0 ≤ z)%Z [74267100011; 74267100021]%Z) as Hpos.
  { apply Forall_forall. intros z Hz.
    rewrite !elem_of_cons, elem_of_nil in Hz. lia. }
  exists out. split; [reflexivity|]. split.
  - vm_compute in Hw. by simplify_eq.
  - apply (set_id_injective _ _ _ _ _ _ _ _ _ _ _ _ out out Hpos Hpos Hw Hw).
    reflexivity.
Defined.

(** ** The order of the reaches, and the decision table *)

Lemma well_formed_perm rs rs' : rs ≡ₚ rs' → well_formed rs → well_formed rs'.
Proof.
  intros Hp [Hnd Hf]. split.
  - by rewrite <-Hp.
  - by rewrite <-Hp.
Qed.

Lemma common_instants_perm rs rs' :
  rs ≡ₚ rs' → common_instants rs = common_instants rs'.
Proof.
  intros Hp. apply set_eq. intros z. rewrite !elem_of_common_instants.
  assert (rs = [] ↔ rs' = []) as Hnil.
  { split; intros ->; [by apply Permutation_nil_l in Hp
                      |by apply Permutation_nil_r in Hp]. }
  setoid_rewrite Hp at 2. tauto.
Qed.

(** X14.  The time axis does not depend on the order of the reaches:
    for a set of two reaches or more with distinct identifiers whose
    files exist, listing the reaches in another order gives the same
    sorted overlap instants, the same [nt] and the same mask for every
    reach. *)
Theorem alignment_order_independent rs rs' al :
  well_formed rs → 2 ≤ length rs → rs ≡ₚ rs' →
  time_alignment rs = inr al →
  ∃ al', time_alignment rs' = inr al'
         ∧ a_overlap_ts al' = a_overlap_ts al
         ∧ a_nt al' = a_nt al
         ∧ ∀ r, r ∈ rs →
             a_overlap_fs al' !! reach_id r = a_overlap_fs al !! reach_id r.
Proof.
  intros Hwf Hlen Hp Hal.
  pose proof (well_formed_perm rs rs' Hp Hwf) as Hwf'.
  destruct (well_formed_alignment rs' Hwf') as [al' Hal'].
  destruct (time_alignment_spec rs al Hal)
    as (_ & Hnt & Hsorted & _ & Hset & _ & Hnd).
  destruct (time_alignment_spec rs' al' Hal')
    as (_ & Hnt' & Hsorted' & _ & Hset' & _ & Hnd').
  rewrite overlap_of_common_instants in Hset, Hset' by done.
  assert (a_overlap_ts al' = a_overlap_ts al) as Hov.
  { apply (Sorted_unique Z.le); [done|done|].
    apply NoDup_Permutation; [apply Hnd'; by rewrite <-Hp|by apply Hnd|].
    intros z. rewrite <-!(elem_of_list_to_set (C := gset Z)).
    by rewrite Hset, Hset', (common_instants_perm rs rs'). }
  exists al'. split_and!; [done|done|by rewrite Hnt, Hnt', Hov|].
  intros r Hr. destruct Hwf as [Hnd0 Hfiles], Hwf' as [Hnd0' _].
  rewrite Forall_forall in Hfiles. destruct (Hfiles r Hr) as [f Hf].
  rewrite (selection_mask_of_file rs al r f), (selection_mask_of_file rs' al' r f);
    try done; [by rewrite Hov|by rewrite <-Hp].
Qed.

Lemma alignment_order_independent_witness :
  ∃ al al',
    time_alignment rs_dup = inr al
    ∧ time_alignment (reverse rs_dup) = inr al'
    ∧ a_overlap_ts al' = a_overlap_ts al.
Proof.
  destruct (time_alignment rs_dup) as [e|al] eqn:Hal;
    [vm_compute in Hal; discriminate|].
  destruct (alignment_order_independent rs_dup (reverse rs_dup) al)
    as (al' & Hal' & Hov & _).
  - exact rs_dup_well_formed.
  - simpl. lia.
  - symmetry. apply reverse_Permutation.
  - exact Hal.
  - exists al, al'. split_and!; [reflexivity|exact Hal'|exact Hov].
Defined.

(** X15.  The decision table, for a reach list of two reaches or more:
    a run that returns is Invalid exactly when fewer than four time
    steps are returned or the prior of some reach is undefined;
    otherwise it is Degraded for two reaches and Nominal for three or
    more. *)
Theorem tier_decision rs log res :
  2 ≤ length rs → retrieve_obs rs = (log, inr res) →
  (SetQuality res = Invalid
   ↔ nt (DAll res) < 4 ∨ ∃ r, r ∈ rs ∧ mean_q r = None)
  ∧ (SetQuality res ≠ Invalid →
     SetQuality res = (if decide (length rs < 3) then Degraded else Nominal)).
Proof.
  intros Hlen Hrun. split.
  - split.
    + intros Hq. revert Hrun Hq. retrieve_cases rs; try done.
      * intros [= <- <-] _. left. simpl. unfold ntmin_prior in Hnt. lia.
      * intros [= <- <-] _. exfalso.
        apply read_loop_return in Hloop
          as (_ & _ & _ & l1 & r & l2 & log' & Hrs & _ & _ & _ & _ & Hno).
        apply Hno. apply (guard_counts_agree rs); [done|done|].
        rewrite Hrs. set_solver.
      * intros [= <- <-] _. left. simpl.
        by apply post_filter_quality_4 in Hpost as [_ ?].
      * intros [= <- <-]. simpl. intros Hq. right.
        apply read_loop_continue in Hloop as (_ & Hqual & _).
        rewrite Hqual in Hq. simpl in Hq.
        destruct (existsb _ rs) eqn:Hnan;
          [|by apply initial_quality_valid in Hq].
        apply existsb_exists in Hnan as (r & Hr%list_elem_of_In & Hn).
        exists r. split; [done|]. by destruct (mean_q r).
    + intros Hor. destruct (decide (SetQuality res = Invalid)) as [|Hq]; [done|].
      exfalso.
      destruct (retrieve_obs_valid_run rs log res Hrun Hq)
        as (al & obs & _ & _ & _ & _ & Hnan & Hmin & ->).
      cbn [nt DAll] in Hor. unfold ntmin in Hmin.
      destruct Hor as [?|(r & Hr & Hnone)]; [lia|].
      assert (existsb (λ r, isnan (mean_q r)) rs = true) as Ht.
      { apply existsb_exists. exists r.
        split; [by apply list_elem_of_In|by rewrite Hnone]. }
      congruence.
  - intros Hq.
    destruct (retrieve_obs_valid_run rs log res Hrun Hq)
      as (al & obs & _ & _ & _ & _ & _ & _ & ->).
    done.
Qed.

Lemma tier_decision_witness :
  ∃ res, outcome (retrieve_obs rs_nan_prior) = inr res
         ∧ (SetQuality res = Invalid
            ↔ nt (DAll res) < 4 ∨ ∃ r, r ∈ rs_nan_prior ∧ mean_q r = None).
Proof.
  destruct (retrieve_obs rs_nan_prior) as [log [e|res]] eqn:Hrun;
    [vm_compute in Hrun; discriminate|].
  destruct (tier_decision rs_nan_prior log res) as [H _].
  - simpl. lia.
  - exact Hrun.
  - exists res. split; [reflexivity|exact H].
Defined.

(** ** The accesses of a run *)

Lemma tiers_reach_events_defined l :
  existsb (λ r, isnan (mean_q r)) l = false → tiers (l ≫= reach_events) = [].
Proof.
  induction l as [|r l IH]; [done|]. simpl existsb.
  intros [Hr Hl]%orb_false_elim.
  rewrite bind_cons, tiers_app, tiers_reach_events, Hr. simpl. by apply IH.
Qed.

(** X16.  The accesses of a run that returns another tier than Invalid:
    the instants of every file are read in the order of the list, the
    tier is assigned once, and then, reach by reach in the order of the
    list, the file is opened again and elevation, width, slope, prior
    and reference data are read - each once, and nothing else. *)
Theorem valid_run_log rs log res :
  retrieve_obs rs = (log, inr res) → SetQuality res ≠ Invalid →
  log = time_events rs ++ Assign Initial (SetQuality res)
                          :: (rs ≫= reach_events)
  ∧ tiers log = [SetQuality res]
  ∧ (rs ≫= reach_events)
    = rs ≫= λ r, [OpenSwot (reach_id r); ReadWse (reach_id r);
                  ReadWidth (reach_id r); ReadSlope (reach_id r);
                  ReadQbar (reach_id r); ReadSword (reach_id r)].
Proof.
  intros Hrun Hq.
  destruct (retrieve_obs_valid_run rs log res Hrun Hq)
    as (al & obs & _ & _ & _ & _ & Hnan & _ & Hres).
  assert (SetQuality res = initial_quality nRmin (length rs)) as Hq0
    by by rewrite Hres.
  assert (log = time_events rs ++ Assign Initial (SetQuality res)
                                  :: (rs ≫= reach_events)) as Hlog.
  { rewrite Hq0. clear Hres Hq0 Hnan obs. clear al. revert Hrun Hq.
    retrieve_cases rs; try done.
    - by intros [= <- <-].
    - intros [= <- <-] Hq.
      by apply read_loop_return in Hloop as (? & _).
    - intros [= <- <-] Hq. simpl in Hq.
      by apply post_filter_quality_4 in Hpost as [-> _].
    - intros [= <- <-] _.
      apply read_loop_continue in Hloop as (-> & _).
      by rewrite app_nil_r. }
  split; [exact Hlog|]. split.
  - rewrite Hlog, tiers_app, time_events_tiers. simpl.
    by rewrite tiers_reach_events_defined.
  - clear -Hnan. induction rs as [|r rs IH]; [done|].
    simpl in Hnan. apply orb_false_elim in Hnan as [Hr Hrs].
    rewrite !bind_cons, IH by done. f_equal.
    unfold reach_events. by rewrite Hr.
Qed.

Lemma valid_run_log_witness :
  ∃ res,
    retrieve_obs [reach_hours 1 (val 9) 2; reach_hours 2 (val 9) (-1)]
    = ([OpenSwot 1; ReadTime 1; OpenSwot 2; ReadTime 2;
        Assign Initial Degraded;
        OpenSwot 1; ReadWse 1; ReadWidth 1; ReadSlope 1; ReadQbar 1;
        ReadSword 1;
        OpenSwot 2; ReadWse 2; ReadWidth 2; ReadSlope 2; ReadQbar 2;
        ReadSword 2], inr res)
    ∧ SetQuality res = Degraded.
Proof.
  destruct (retrieve_obs [reach_hours 1 (val 9) 2; reach_hours 2 (val 9) (-1)])
    as [log [e|res]] eqn:Hrun; [vm_compute in Hrun; discriminate|].
  assert (SetQuality res = Degraded) as Hq
    by (vm_compute in Hrun; by simplify_eq).
  destruct (valid_run_log _ log res Hrun) as (Hlog & _ & _).
  - by rewrite Hq.
  - exists res. split; [|exact Hq]. rewrite Hlog, Hq. reflexivity.
Defined.
